(** * scroll-binder: a shallow embedding of [src/scroll-binder.js]

    The development follows the source file top to bottom.

    - JavaScript numbers are binary64 floating-point numbers: Rocq's
      primitive [float], with NaN, the infinities, the two zeros and every
      operation rounded to nearest, ties to even.  [Math.round], which is
      not a primitive, is defined from the exact value of its argument.
    - [parseFloat] and the conversion of a number to a string are built-ins
      of the language: they are parameters of the definitions that call
      them.
    - JavaScript objects used as ordered maps (the [animations] option, the
      [properties] of a selector, the [transformStack]) are association lists
      in enumeration order; the fields of a tween, when present, are numbers.
    - jQuery collections are modelled by the path that selects them; what
      the document answers (computed styles, selectors that jQuery refuses)
      is read from a [document].
    - Timers, animation frames and the scroll listener live in an explicit
      [world]; the instance is a heap object so that closures created by
      [onScroll] keep designating it after [exports.destroy]. *)

From Stdlib Require Import ZArith QArith Qround Qminmax Qabs Qpower Lqa Lia.
From Stdlib Require Import List String Ascii Bool DecimalString.
From Stdlib Require Import Floats.
From Stdlib Require Uint63.
Import ListNotations.

Local Open Scope Q_scope.

(** ** JavaScript numbers *)

Module JS.

(** [x < y] and [x > y] on numbers: false when either is NaN. *)
Definition lt (x y : float) : bool := (x <? y)%float.
Definition gt (x y : float) : bool := (y <? x)%float.

(** [isNaN(x)] *)
Definition isNaN (x : float) : bool := PrimFloat.is_nan x.

(** Truthiness of a number, as tested by [x || d]: every number but
    [+0], [-0] and NaN. *)
Definition truthy (x : float) : bool :=
  negb (PrimFloat.is_zero x || PrimFloat.is_nan x).

(** [v || d] where [v] is a possibly undefined number. *)
Definition or_default (v : option float) (d : float) : float :=
  match v with
  | Some x => if truthy x then x else d
  | None => d
  end.

(** The exact value of a number that is neither NaN nor infinite. *)
Definition exact (x : float) : option Q :=
  match Prim2SF x with
  | S754_zero _ => Some 0
  | S754_finite s m e =>
      Some (inject_Z (if s then Zneg m else Zpos m) * Qpower 2 e)
  | _ => None
  end.

(** The integer nearest to a rational, a tie going towards +infinity. *)
Definition nearest (v : Q) : Z := Qfloor (v + (1 # 2)).

(** The number that an integer of magnitude at most 2^53 denotes. *)
Definition of_integer (n : Z) : float :=
  match n with
  | Z0 => 0%float
  | Zpos _ => PrimFloat.of_uint63 (Uint63.of_Z n)
  | Zneg p => (- PrimFloat.of_uint63 (Uint63.of_Z (Zpos p)))%float
  end.

(** The result of [Math.round(x)] for a finite [x] whose nearest integer is
    [n]: [x] itself when it has no fractional bit; a zero with the sign of
    [x] when [n] is 0; otherwise [n], of magnitude below 2^53. *)
Definition integral (x : float) (n : Z) : float :=
  match Prim2SF x with
  | S754_finite s _ e =>
      if (0 <=? e)%Z then x
      else if (n =? 0)%Z then (if s then (-0)%float else 0%float)
      else of_integer n
  | _ => x
  end.

(** [Math.round]: NaN, the infinities and the zeros are returned as they
    are; otherwise the nearest integer, a tie going towards +infinity. *)
Definition Math_round (x : float) : float :=
  match exact x with
  | Some v => integral x (nearest v)
  | None => x
  end.

End JS.

(** ** [ScrollBinder.prototype.buildPropertyFunction] *)

(** [from + (to - from) * scrollPos / over], each operation rounded. *)
Definition raw_value (from to over scrollPos : float) : float :=
  (from + (to - from) * scrollPos / over)%float.

(** [Math.round(raw * 100) / 100]: the value of [newValue] before clamping. *)
Definition rounded_value (from to over scrollPos : float) : float :=
  (JS.Math_round (raw_value from to over scrollPos * 100) / 100)%float.

Definition buildPropertyFunction (from to over : float) : float -> float :=
  fun scrollPos =>
    let newValue := rounded_value from to over scrollPos in
    if JS.lt from to then
      (if JS.lt newValue from then from
       else if JS.gt newValue to then to else newValue)
    else
      (if JS.gt newValue from then from
       else if JS.lt newValue to then to else newValue).

(** ** Definitions for the statements about numbers *)

(** The bounds [min(from, to)] and [max(from, to)]. *)
Definition lower (from to : float) : float :=
  if JS.lt from to then from else to.

Definition upper (from to : float) : float :=
  if JS.lt from to then to else from.

(** Rounding to the nearest integer, a tie going away from zero: the
    magnitude is rounded half up and the sign restored.  This is the
    rounding the specification describes; it is compared with [Math.round]
    below. *)
Definition round_half_away_from_zero (x : Q) : Z :=
  if Qle_bool 0 x then Qfloor (x + (1 # 2)) else (- Qfloor (- x + (1 # 2)))%Z.

(** A negative value lying exactly half way between two integers. *)
Definition negative_tie (x : Q) : bool :=
  negb (Qle_bool 0 x)
  && Qeq_bool (inject_Z (Qfloor (x + (1 # 2)))) (x + (1 # 2)).

(** The largest finite power of two, 2^1023 (about 9e307). *)
Definition huge : float := 0x1p+1023%float.

(** The number nearest to 0.015, which is slightly below it. *)
Definition fifteen_thousandths : float := 0x1.eb851eb851eb8p-7%float.

(** Key of the order of numbers: the class (infinite, negative, zero,
    positive), then the exponent, then the mantissa, as [SFcompare]
    compares them; none for NaN. *)
Module F64.

Definition rank (f : spec_float) : option (Z * Z * Z) :=
  match f with
  | S754_nan => None
  | S754_infinity true => Some (-2, 0, 0)%Z
  | S754_infinity false => Some (2, 0, 0)%Z
  | S754_zero _ => Some (0, 0, 0)%Z
  | S754_finite true m e => Some (-1, - e, Zneg m)%Z
  | S754_finite false m e => Some (1, e, Zpos m)%Z
  end.

Definition lex (a b : Z * Z * Z) : comparison :=
  let '(a1, a2, a3) := a in
  let '(b1, b2, b3) := b in
  match (a1 ?= b1)%Z with
  | Eq => match (a2 ?= b2)%Z with Eq => (a3 ?= b3)%Z | c => c end
  | c => c
  end.

Definition key (x : float) : option (Z * Z * Z) := rank (Prim2SF x).

(** The classes of numbers: zeros, infinities, and the numbers that are
    neither NaN nor infinite. *)
Definition null (f : spec_float) : bool :=
  match f with S754_zero _ => true | _ => false end.

Definition infinite (f : spec_float) : bool :=
  match f with S754_infinity _ => true | _ => false end.

Definition finite (f : spec_float) : bool :=
  match f with S754_zero _ | S754_finite _ _ _ => true | _ => false end.

End F64.

(** The order that the claim of monotonicity asks of two values: [x <= y]
    when [to >= from], [y <= x] otherwise. *)
Definition ordered (from to x y : float) : bool :=
  if (from <=? to)%float then (x <=? y)%float else (y <=? x)%float.

(** The function built for a tween is ordered between the scroll
    positions [s] and [s + 1], for [s = 0 .. n - 1]. *)
Fixpoint steps_ordered (from to over : float) (n : nat) : bool :=
  match n with
  | O => true
  | S n' =>
      let f := buildPropertyFunction from to over in
      ordered from to
        (f (JS.of_integer (Z.of_nat n')))
        (f (JS.of_integer (Z.of_nat n' + 1)))
      && steps_ordered from to over n'
  end.

(** The integers [lo, lo + 1, ..., lo + n - 1]. *)
Fixpoint Z_range (lo : Z) (n : nat) : list Z :=
  match n with
  | O => []
  | S n' => lo :: Z_range (lo + 1) n'
  end.

(** Every tween with integer [from] and [to] in [-bound, bound] and an
    integer [over] in [1, span] is ordered at all the steps within
    [0, over]. *)
Definition grid_ordered (bound : Z) (span : nat) : bool :=
  let ends := Z_range (- bound) (Z.to_nat (2 * bound + 1)) in
  forallb
    (fun from =>
       forallb
         (fun to =>
            forallb
              (fun over =>
                 steps_ordered (JS.of_integer from) (JS.of_integer to)
                   (JS.of_integer over) (Z.to_nat over))
              (Z_range 1 span))
         ends)
    ends.

(** Rounding to two decimals half away from zero, as the specification
    describes it, applied to the exact value of a number. *)
Definition round2_half_away (x : float) : option float :=
  match JS.exact x with
  | Some v =>
      Some (JS.of_integer (round_half_away_from_zero (v * 100)) / 100)%float
  | None => None
  end.


(** ** JavaScript objects used as maps *)

(** An object with string keys, in the order [for ... in] enumerates them:
    insertion order (no key of the program is an array index). *)
Definition obj (V : Type) : Type := list (string * V).

Module Obj.

Section Ops.
Context {V : Type}.

Fixpoint get (o : obj V) (k : string) : option V :=
  match o with
  | [] => None
  | (k', v) :: o' => if String.eqb k k' then Some v else get o' k
  end.

(** [o[k] = v]: an existing key keeps its place, a new one goes last. *)
Fixpoint set (o : obj V) (k : string) (v : V) : obj V :=
  match o with
  | [] => [(k, v)]
  | (k', v') :: o' =>
      if String.eqb k k' then (k', v) :: o' else (k', v') :: set o' k v
  end.

Definition keys (o : obj V) : list string := map fst o.

(** [$.isEmptyObject(o)] *)
Definition isEmptyObject (o : obj V) : bool :=
  match o with [] => true | _ :: _ => false end.

(** An association list is an object when no key occurs twice. *)
Definition wf (o : obj V) : Prop := NoDup (keys o).

End Ops.

End Obj.

(** ** The document *)

(** A jQuery collection, designated by the way it was selected. *)
Inductive jq : Type :=
| Body                                    (* $(document.body) *)
| Given (n : nat)                         (* a collection made by the caller *)
| Find (parent : jq) (selector : string). (* parent.find(selector) *)

(** What the document answers to jQuery: the computed styles,
    [$element.css(property)], and whether [$element.find(selector)] throws,
    as it does for a selector that jQuery cannot parse. *)
Record document : Type := {
  css : jq -> string -> option string;
  find_throws : jq -> string -> bool
}.

(** Calls of [$element.css]. *)
Inductive dom_event : Type :=
| CssGet (el : jq) (property : string)
| CssSet (el : jq) (property value : string)
| CssSetAll (el : jq) (styles : obj string).

(** ** Construction: a reader of the document that logs its style reads and
    may throw *)

Inductive completion (A : Type) : Type :=
| Normal (a : A)
| Throw (message : string).
Arguments Normal {A} a.
Arguments Throw {A} message.

Definition Eff (A : Type) : Type :=
  document -> completion A * list dom_event.

Module EffMonad.

Definition ret {A} (a : A) : Eff A := fun _ => (Normal a, []).

Definition bind {A B} (m : Eff A) (k : A -> Eff B) : Eff B :=
  fun doc =>
    match m doc with
    | (Normal a, t) => let (r, t') := k a doc in (r, t ++ t')
    | (Throw e, t) => (Throw e, t)
    end.

Definition throw {A} (e : string) : Eff A := fun _ => (Throw e, []).

(** [$element.css(property)] *)
Definition css_get (el : jq) (property : string) : Eff (option string) :=
  fun doc => (Normal (css doc el property), [CssGet el property]).

(** [$element.find(selector)] *)
Definition find (parent : jq) (selector : string) : Eff jq :=
  fun doc =>
    if find_throws doc parent selector
    then (Throw "Error: Syntax error, unrecognized expression", [])
    else (Normal (Find parent selector), []).

(** [o.hasOwnProperty(k)] for an object [o] of the options.  The method is
    that of [Object.prototype] unless [o] has a key of this name: its value,
    a tween or a map of tweens, is then what is called, and the call
    throws. *)
Definition hasOwnProperty {V} (o : obj V) (k : string) : Eff bool :=
  match Obj.get o "hasOwnProperty" with
  | Some _ => throw "TypeError: hasOwnProperty is not a function"
  | None => ret (match Obj.get o k with Some _ => true | None => false end)
  end.

(** [for (var k in o) { acc = body(k, o[k], acc) }] *)
Fixpoint for_in {V S} (o : obj V) (body : string -> V -> S -> Eff S)
  (acc : S) : Eff S :=
  match o with
  | [] => ret acc
  | (k, v) :: o' => bind (body k v acc) (for_in o' body)
  end.

End EffMonad.

Declare Scope eff_scope.
Delimit Scope eff_scope with eff.
Notation "x <- m ;; k" := (EffMonad.bind m (fun x => k))
  (at level 61, m at next level, right associativity) : eff_scope.

(** ** Tweens and their resolution *)

(** A tweening object [{ from, to, over, unit }]; every field is optional.
    [tw_unit] is present when [typeof value.unit === 'string']. *)
Record Tween : Type := {
  tw_from : option float;
  tw_to : option float;
  tw_over : option float;
  tw_unit : option string
}.

(** What [initProperty] returns. *)
Record PropertyBinding : Type := {
  fn : float -> float;
  isTransform : bool;
  unit_ : string
}.

(** What [initSelector] returns. *)
Record SelectorTarget : Type := {
  init_ : bool;
  element : jq;
  properties : obj PropertyBinding
}.

(** [this.transforms], as the constructor sets it. *)
Definition default_transforms : list string :=
  ["scale"; "scaleX"; "scaleY"; "rotate"; "rotateX"; "rotateY"; "rotateZ";
   "translateX"; "translateY"]%string.

(** [$.inArray(x, l) !== -1] *)
Definition inArray (x : string) (l : list string) : bool :=
  existsb (String.eqb x) l.

(** The fields of [this] that the initialisation reads. *)
Record Settings : Type := {
  s_element : jq;
  scrollDistance : float;
  transforms : list string
}.

Section Init.

(** [parseFloat], a built-in of the language. *)
Variable parseFloat : string -> float.

Variable this : Settings.

Local Open Scope eff_scope.
Import EffMonad.

(** The string that [parseFloat] converts the result of a style read to. *)
Definition ToString (v : option string) : string :=
  match v with
  | Some s => s
  | None => "undefined"
  end.

(** [value.from], or, when it is undefined,
    [from = parseFloat($element.css(property)); if (isNaN(from)) from = 0]. *)
Definition inherit (given : option float) (el : jq) (property : string)
  : Eff float :=
  match given with
  | Some x => ret x
  | None =>
      v <- css_get el property ;;
      let from := parseFloat (ToString v) in
      if JS.isNaN from then ret 0%float else ret from
  end.

(** [value.over || this.scrollDistance] *)
Definition resolve_over (value : Tween) : float :=
  JS.or_default (tw_over value) (scrollDistance this).

(** [initProperty(property, value, $element)]; [value] is [None] when the
    tween is [null] or [undefined], and reading its [from] then throws. *)
Definition initProperty (property : string) (value : option Tween) (el : jq)
  : Eff PropertyBinding :=
  match value with
  | None => throw "TypeError: cannot read property 'from'"
  | Some value =>
      let isTransform := inArray property (transforms this) in
      let over := resolve_over value in
      let unit :=
        match tw_unit value with
        | Some u => u
        | None => if isTransform then ""%string else "px"%string
        end in
      from <- inherit (tw_from value) el property ;;
      to <- inherit (tw_to value) el property ;;
      ret {| fn := buildPropertyFunction from to over;
             isTransform := inArray property (transforms this);
             unit_ := unit |}
  end.

(** The body of the two loops of the initialisation:
    [if (o.hasOwnProperty(k)) { acc[k] = g(k, o[k]) }]. *)
Definition assign_each {V B : Type} (o : obj V) (g : string -> V -> Eff B)
  (k : string) (v : V) (acc : obj B) : Eff (obj B) :=
  own <- hasOwnProperty o k ;;
  if own then b <- g k v ;; ret (Obj.set acc k b) else ret acc.

Definition initSelector (selector : string) (props : obj (option Tween))
  : Eff SelectorTarget :=
  el <- (if String.eqb selector "this" then ret (s_element this)
         else find (s_element this) selector) ;;
  ps <- for_in props
          (assign_each props
             (fun property value => initProperty property value el))
          [] ;;
  ret {| init_ := true; element := el; properties := ps |}.

Definition initAnimations (animations : obj (obj (option Tween)))
  : Eff (obj SelectorTarget) :=
  for_in animations (assign_each animations initSelector) [].

End Init.

(** ** The constructor *)

(** The [options] argument: [over] and [animations], both optional;
    [opt_animations] is present when
    [typeof options.animations === 'object']. *)
Record Options : Type := {
  opt_over : option float;
  opt_animations : option (obj (obj (option Tween)))
}.

(** An instance.  [animations] holds the initialised animations, by which
    [initAnimations] replaces the ones the user gave. *)
Record ScrollBinder : Type := {
  settings : Settings;
  animations : obj SelectorTarget;
  scrollFlag : bool;
  scrollEnd : option nat
}.

(** The fields that the constructor sets before it calls [this.init()]. *)
Definition constructor_settings (el : option jq) (options : option Options)
  : Settings :=
  let options :=
    match options with
    | Some o => o
    | None => {| opt_over := None; opt_animations := None |}
    end in
  {| s_element := match el with Some e => e | None => Body end;
     scrollDistance := JS.or_default (opt_over options) 70;
     transforms := default_transforms |}.

(** [this.animations], as the constructor sets it from the options. *)
Definition given_animations (options : option Options)
  : obj (obj (option Tween)) :=
  match options with
  | Some o => match opt_animations o with Some a => a | None => [] end
  | None => []
  end.

(** [new ScrollBinder($element, options)] up to and including [this.init()];
    binding the scroll handler is left to [exports_init]. *)
Definition ScrollBinder_new (parseFloat : string -> float)
  (el : option jq) (options : option Options) : Eff ScrollBinder :=
  let this := constructor_settings el options in
  (tree <- initAnimations parseFloat this (given_animations options) ;;
   EffMonad.ret {| settings := this; animations := tree;
                   scrollFlag := true; scrollEnd := None |})%eff.

(** ** [ScrollBinder.prototype.animate]: the frame callback *)

Section Animate.

(** The conversion of a number to a string, a built-in of the language. *)
Variable Number_toString : float -> string.

Local Open Scope string_scope.

(** [value.fn(scrollPos) + value.unit] *)
Definition formatted (value : PropertyBinding) (scrollPos : float)
  : string :=
  Number_toString (fn value scrollPos) ++ unit_ value.

(** One turn of the loop over [animation.properties]: the transform stack
    and the style writes so far. *)
Definition animate_property (el : jq) (scrollPos : float)
  (acc : obj string * list dom_event) (entry : string * PropertyBinding)
  : obj string * list dom_event :=
  let (property, value) := entry in
  let (transformStack, writes) := acc in
  if isTransform value then
    (Obj.set transformStack property (formatted value scrollPos), writes)
  else
    (transformStack,
     (writes ++ [CssSet el property (formatted value scrollPos)])%list).

(** The loop that builds [transformString]. *)
Definition build_transformString (transformStack : obj string) : string :=
  fold_left
    (fun transformString entry =>
       transformString ++ fst entry ++ "(" ++ snd entry ++ ") ")
    transformStack "".

(** The body of the loop over the selectors. *)
Definition animate_selector (animation : SelectorTarget) (scrollPos : float)
  : list dom_event :=
  let (transformStack, writes) :=
    fold_left (animate_property (element animation) scrollPos)
      (properties animation) ([], []) in
  if negb (Obj.isEmptyObject transformStack) then
    let transformString := build_transformString transformStack in
    (writes ++
     [CssSetAll (element animation)
        [("-webkit-transform", transformString);
         ("-ms-transform", transformString);
         ("transform", transformString)]])%list
  else writes.

(** The function that [animate] hands to [requestFrame]. *)
Definition animate_frame (anims : obj SelectorTarget) (scrollPos : float)
  : list dom_event :=
  flat_map (fun entry => animate_selector (snd entry) scrollPos) anims.

End Animate.

(** ** The window: timers, frames, listeners and the module singleton *)

Definition addr : Type := nat.

(** The closures that the program hands to [setTimeout]. *)
Inductive callback : Type :=
| SetScrollFlag (self : addr)   (* function () { self.scrollFlag = true; } *)
| ScrollEnd (self : addr).      (* function () { self.onScroll(e, true); } *)

Record timer : Type := {
  timer_id : nat;
  due : Z;
  action : callback
}.

Record world : Type := {
  now : Z;                          (* the clock, in milliseconds *)
  window_scrollTop : float;         (* $(window).scrollTop() *)
  heap : list ScrollBinder;         (* the instances ever constructed *)
  module_instance : option addr;    (* module.instance *)
  listeners : list addr;            (* the bound scroll handlers *)
  timers : list timer;              (* pending timers, oldest first *)
  next_timer_id : nat;
  frames : list (addr * float);     (* pending frame callbacks *)
  animate_log : list (Z * float);   (* the calls of animate: when, where *)
  dom_log : list dom_event          (* the calls of $element.css *)
}.

Definition empty_world : world :=
  {| now := 0; window_scrollTop := 0%float; heap := [];
     module_instance := None; listeners := []; timers := [];
     next_timer_id := 0; frames := []; animate_log := []; dom_log := [] |}.

Module World.

Definition with_clock (t : Z) (top : float) (w : world) : world :=
  {| now := t; window_scrollTop := top; heap := heap w;
     module_instance := module_instance w; listeners := listeners w;
     timers := timers w; next_timer_id := next_timer_id w;
     frames := frames w; animate_log := animate_log w;
     dom_log := dom_log w |}.

Definition with_heap (h : list ScrollBinder) (w : world) : world :=
  {| now := now w; window_scrollTop := window_scrollTop w; heap := h;
     module_instance := module_instance w; listeners := listeners w;
     timers := timers w; next_timer_id := next_timer_id w;
     frames := frames w; animate_log := animate_log w;
     dom_log := dom_log w |}.

Definition with_module (i : option addr) (l : list addr) (w : world)
  : world :=
  {| now := now w; window_scrollTop := window_scrollTop w; heap := heap w;
     module_instance := i; listeners := l;
     timers := timers w; next_timer_id := next_timer_id w;
     frames := frames w; animate_log := animate_log w;
     dom_log := dom_log w |}.

Definition with_timers (ts : list timer) (next : nat) (w : world) : world :=
  {| now := now w; window_scrollTop := window_scrollTop w; heap := heap w;
     module_instance := module_instance w; listeners := listeners w;
     timers := ts; next_timer_id := next;
     frames := frames w; animate_log := animate_log w;
     dom_log := dom_log w |}.

Definition with_frames (fs : list (addr * float)) (calls : list (Z * float))
  (w : world) : world :=
  {| now := now w; window_scrollTop := window_scrollTop w; heap := heap w;
     module_instance := module_instance w; listeners := listeners w;
     timers := timers w; next_timer_id := next_timer_id w;
     frames := fs; animate_log := calls;
     dom_log := dom_log w |}.

Definition with_dom_log (l : list dom_event) (w : world) : world :=
  {| now := now w; window_scrollTop := window_scrollTop w; heap := heap w;
     module_instance := module_instance w; listeners := listeners w;
     timers := timers w; next_timer_id := next_timer_id w;
     frames := frames w; animate_log := animate_log w;
     dom_log := l |}.

End World.

(** Code that runs in the window: a state monad over [world]. *)
Definition W (A : Type) : Type := world -> A * world.

Module WMonad.

Definition ret {A} (a : A) : W A := fun w => (a, w).

Definition bind {A B} (m : W A) (k : A -> W B) : W B :=
  fun w => let (a, w') := m w in k a w'.

Definition gets {A} (f : world -> A) : W A := fun w => (f w, w).

Definition modify (f : world -> world) : W unit := fun w => (tt, f w).

Definition exec {A} (m : W A) (w : world) : world := snd (m w).

(** [for each x of l: body(x)] *)
Fixpoint for_each {A} (l : list A) (body : A -> W unit) : W unit :=
  match l with
  | [] => ret tt
  | x :: l' => bind (body x) (fun _ => for_each l' body)
  end.

End WMonad.

Declare Scope w_scope.
Delimit Scope w_scope with W.
Notation "x <- m ;; k" := (WMonad.bind m (fun x => k))
  (at level 61, m at next level, right associativity) : w_scope.
Notation "m ;; k" := (WMonad.bind m (fun _ => k))
  (at level 61, right associativity) : w_scope.

Module Window.

Import WMonad.
Local Open Scope w_scope.

(** [setTimeout(callback, delay)]: the handle of the new timer. *)
Definition setTimeout (cb : callback) (delay : Z) : W nat :=
  fun w =>
    let id := next_timer_id w in
    let t := {| timer_id := id; due := now w + delay; action := cb |} in
    (id, World.with_timers (timers w ++ [t]) (S id) w).

(** [clearTimeout(handle)]: nothing happens for [null] or for the handle
    of a timer that is no longer pending. *)
Definition clearTimeout (handle : option nat) : W unit :=
  match handle with
  | None => ret tt
  | Some id =>
      modify (fun w =>
        World.with_timers
          (filter (fun t => negb (Nat.eqb (timer_id t) id)) (timers w))
          (next_timer_id w) w)
  end.

(** Reading and updating the instance at an address. *)
Definition deref (self : addr) : W (option ScrollBinder) :=
  gets (fun w => nth_error (heap w) self).

Fixpoint update {A} (l : list A) (n : nat) (f : A -> A) : list A :=
  match l, n with
  | [], _ => []
  | x :: l', O => f x :: l'
  | x :: l', S n' => x :: update l' n' f
  end.

Definition set_scrollFlag (self : addr) (b : bool) : W unit :=
  modify (fun w =>
    World.with_heap
      (update (heap w) self
         (fun o => {| settings := settings o; animations := animations o;
                      scrollFlag := b; scrollEnd := scrollEnd o |}))
      w).

Definition set_scrollEnd (self : addr) (handle : option nat) : W unit :=
  modify (fun w =>
    World.with_heap
      (update (heap w) self
         (fun o => {| settings := settings o; animations := animations o;
                      scrollFlag := scrollFlag o; scrollEnd := handle |}))
      w).

(** [animate(scrollPos)] hands its callback, which keeps [self] and
    [scrollPos], to [requestFrame]: whichever function that is, the callback
    runs once, later.  The call is also recorded in [animate_log]. *)
Definition animate (self : addr) (scrollPos : float) : W unit :=
  modify (fun w =>
    World.with_frames
      (frames w ++ [(self, scrollPos)])
      (animate_log w ++ [(now w, scrollPos)])
      w).

(** [ScrollBinder.prototype.onScroll] *)
Definition onScroll (self : addr) (fromScrollEnd : bool) : W unit :=
  scrollTop <- gets window_scrollTop ;;
  this <- deref self ;;
  match this with
  | None => ret tt
  | Some this =>
      if Bool.eqb (scrollFlag this) false then ret tt
      else
        clearTimeout (scrollEnd this) ;;
        set_scrollFlag self false ;;
        animate self scrollTop ;;
        _ <- setTimeout (SetScrollFlag self) 16 ;;
        if negb fromScrollEnd then
          handle <- setTimeout (ScrollEnd self) 64 ;;
          set_scrollEnd self (Some handle)
        else ret tt
  end.

(** Running the closure of a timer. *)
Definition run_callback (cb : callback) : W unit :=
  match cb with
  | SetScrollFlag self => set_scrollFlag self true
  | ScrollEnd self => onScroll self true
  end.

(** The pending timer that fires next: the one due first and, among those
    due together, the oldest. *)
Fixpoint earliest (ts : list timer) : option timer :=
  match ts with
  | [] => None
  | t :: ts' =>
      match earliest ts' with
      | Some t' => if (due t' <? due t)%Z then Some t' else Some t
      | None => Some t
      end
  end.

(** [exports.destroy]: [reset] returns [this] and does nothing else;
    [unbind] removes the scroll handlers. *)
Definition reset (self : addr) : W unit := ret tt.

Definition unbind (self : addr) : W unit :=
  modify (fun w => World.with_module (module_instance w) [] w).

Definition exports_destroy : W unit :=
  i <- gets module_instance ;;
  match i with
  | None => ret tt
  | Some self =>
      reset self ;;
      unbind self ;;
      modify (fun w => World.with_module None (listeners w) w)
  end.

(** [exports.init($element, options)] in the document [doc].  When the
    constructor throws, the singleton stays unset. *)
Definition exports_init (parseFloat : string -> float) (doc : document)
  (el : option jq) (options : option Options) : W unit :=
  i <- gets module_instance ;;
  match i with
  | Some _ => ret tt
  | None =>
      modify (fun w =>
        match ScrollBinder_new parseFloat el options doc with
        | (Normal this, reads) =>
            let self := List.length (heap w) in
            World.with_module (Some self) (listeners w ++ [self])
              (World.with_heap (heap w ++ [this])
                 (World.with_dom_log (dom_log w ++ reads) w))
        | (Throw _, reads) => World.with_dom_log (dom_log w ++ reads) w
        end)
  end.

End Window.

(** ** What happens in the window *)

Inductive event : Type :=
| EvInit (doc : document) (el : option jq) (options : option Options)
| EvDestroy
| EvScroll (t : Z) (top : float) (* at time [t] the window is at [top] *)
| EvTimer                      (* the next pending timer fires *)
| EvFrame.                     (* the pending frame callbacks run *)

Section Machine.

(** The built-ins of the language that the program calls. *)
Variable parseFloat : string -> float.
Variable Number_toString : float -> string.

Import WMonad.
Local Open Scope w_scope.

(** A frame callback writes the styles for the scroll position it kept. *)
Definition run_frame (frame : addr * float) : W unit :=
  let (self, scrollPos) := frame in
  this <- Window.deref self ;;
  match this with
  | None => ret tt
  | Some this =>
      modify (fun w =>
        World.with_dom_log
          (dom_log w ++
           animate_frame Number_toString (animations this) scrollPos) w)
  end.

(** One event; [None] when it cannot happen in [w]: time does not go back,
    and a timer fires when it is due, before any later scroll event. *)
Definition step (w : world) (e : event) : option world :=
  match e with
  | EvInit doc el options =>
      Some (exec (Window.exports_init parseFloat doc el options) w)
  | EvDestroy => Some (exec Window.exports_destroy w)
  | EvScroll t top =>
      if ((now w <=? t)%Z
          && forallb (fun tm => (t <=? due tm)%Z) (timers w))%bool
      then
        let w' := World.with_clock t top w in
        Some (exec (for_each (listeners w')
                      (fun self => Window.onScroll self false)) w')
      else None
  | EvTimer =>
      match Window.earliest (timers w) with
      | None => None
      | Some tm =>
          let w' :=
            World.with_timers
              (filter (fun t => negb (Nat.eqb (timer_id t) (timer_id tm)))
                 (timers w))
              (next_timer_id w)
              (World.with_clock (due tm) (window_scrollTop w) w) in
          Some (exec (Window.run_callback (action tm)) w')
      end
  | EvFrame =>
      let fs := frames w in
      let w' := World.with_frames [] (animate_log w) w in
      Some (exec (for_each fs run_frame) w')
  end.

Fixpoint run (w : world) (es : list event) : option world :=
  match es with
  | [] => Some w
  | e :: es' =>
      match step w e with
      | Some w' => run w' es'
      | None => None
      end
  end.

End Machine.

(** ** Auxiliary definitions for the statements *)

(** The number that [initProperty] takes from a style: what [parseFloat]
    makes of it, or 0 when that is NaN. *)
Definition style_number (parseFloat : string -> float)
  (style : option string) : float :=
  let x := parseFloat (ToString style) in
  if JS.isNaN x then 0%float else x.

(** *** Sample inputs *)

Module Sample.

Local Open Scope string_scope.

Definition tween (from to over : option float) : Tween :=
  {| tw_from := from; tw_to := to; tw_over := over; tw_unit := None |}.

Definition bare_tween : Tween := tween None None None.
Definition full_tween : Tween := tween (Some 0%float) (Some 20%float) None.

(** A document in which every style reads ["10px"], and one without
    styles; both accept every selector. *)
Definition ten_px : document :=
  {| css := fun _ _ => Some "10px"; find_throws := fun _ _ => false |}.
Definition no_style : document :=
  {| css := fun _ _ => None; find_throws := fun _ _ => false |}.

(** A document in which no selector but ['this'] can be used. *)
Definition no_selector : document :=
  {| css := fun _ _ => None; find_throws := fun _ _ => true |}.

(** [{ animations:
       { 'this': { 'padding-top': { from: 0, to: 20, over: over } } } }] *)
Definition padding_options (over : option float) : Options :=
  {| opt_over := None;
     opt_animations :=
       Some [("this",
              [("padding-top",
                Some (tween (Some 0%float) (Some 20%float) over))])]
  |}.

End Sample.

(** *** The composite transform, as the specification describes it *)

Section Composite.

Variable Number_toString : float -> string.

Local Open Scope string_scope.

(** [prop(<value><unit>) ], with its trailing space. *)
Definition transform_piece (scrollPos : float)
  (entry : string * PropertyBinding) : string :=
  fst entry ++ "(" ++ formatted Number_toString (snd entry) scrollPos ++ ") ".

(** The pieces of the transform properties, in the order of declaration. *)
Definition composite_transform (scrollPos : float)
  (props : obj PropertyBinding) : string :=
  fold_right (fun entry rest => transform_piece scrollPos entry ++ rest) ""
    (filter (fun entry => isTransform (snd entry)) props).

(** The only write of transforms: the three styles set at once. *)
Definition transform_write (el : jq) (scrollPos : float)
  (props : obj PropertyBinding) : dom_event :=
  let composite := composite_transform scrollPos props in
  CssSetAll el
    [("-webkit-transform", composite);
     ("-ms-transform", composite);
     ("transform", composite)].

(** The write of one property that is not a transform. *)
Definition plain_write (el : jq) (scrollPos : float)
  (entry : string * PropertyBinding) : dom_event :=
  CssSet el (fst entry) (formatted Number_toString (snd entry) scrollPos).

End Composite.

Module SampleRun.

Local Open Scope string_scope.

(** A stand-in for the conversion of numbers to strings: the integer part
    and the hundredths that are not zero, which is enough for the rounded
    values of the examples. *)
Definition digit_string (n : Z) : string :=
  String (ascii_of_nat (48 + Z.to_nat n)) "".

Definition toString (x : float) : string :=
  match JS.exact x with
  | None => "NaN"
  | Some q =>
      let h := JS.nearest (Qabs q * 100) in
      let f := (h mod 100)%Z in
      (if Qle_bool 0 q then "" else "-")
      ++ NilZero.string_of_uint (N.to_uint (Z.to_N (h / 100)))
      ++ (if (f =? 0)%Z then ""
          else if (f mod 10 =? 0)%Z then "." ++ digit_string (f / 10)
          else "." ++ digit_string (f / 10) ++ digit_string (f mod 10))
  end.

(** A stand-in for [parseFloat]: the integer that the leading decimal
    digits denote, NaN when there is none, which is enough for the styles
    of the examples. *)
Fixpoint leading_digits (s : string) (acc : option Z) : option Z :=
  match s with
  | String c s' =>
      let n := Z.of_nat (nat_of_ascii c) in
      if ((48 <=? n) && (n <=? 57))%Z then
        leading_digits s'
          (Some (10 * match acc with Some a => a | None => 0 end + (n - 48)))%Z
      else acc
  | EmptyString => acc
  end.

Definition parseFloat (s : string) : float :=
  match leading_digits s None with
  | Some n => JS.of_integer n
  | None => nan
  end.

Definition binding (from to over : float) (transform : bool) (unit : string)
  : PropertyBinding :=
  {| fn := buildPropertyFunction from to over;
     isTransform := transform; unit_ := unit |}.

(** A selector with [rotate] and [scale], in this order, around a
    [padding-top]. *)
Definition rotate_scale : SelectorTarget :=
  {| init_ := true; element := Find Body ".logo";
     properties :=
       [("rotate", binding 0 90 200 true "deg");
        ("padding-top", binding 0 20 200 false "px");
        ("scale", binding 1 0.5 200 true "")] |}.

End SampleRun.

(** *** The throttle *)

(** A freshly constructed instance: listening, with no timer. *)
Definition idle_instance (s : Settings) (anims : obj SelectorTarget)
  : ScrollBinder :=
  {| settings := s; animations := anims; scrollFlag := true;
     scrollEnd := None |}.

(** The window at time [t0], just after [exports.init] made the instance. *)
Definition idle_world (s : Settings) (anims : obj SelectorTarget) (t0 : Z)
  : world :=
  {| now := t0; window_scrollTop := 0%float;
     heap := [idle_instance s anims];
     module_instance := Some 0%nat; listeners := [0%nat]; timers := [];
     next_timer_id := 0; frames := []; animate_log := []; dom_log := [] |}.

(** The window after [onScroll] went past the throttle, for the instance
    [this] at [self]: the trailing timer is cleared, the flag is down, the
    call of [animate] is made and the timers are set. *)
Definition accepted (self : addr) (fromScrollEnd : bool) (this : ScrollBinder)
  (w : world) : world :=
  let pending :=
    match scrollEnd this with
    | Some id => filter (fun t => negb (Nat.eqb (timer_id t) id)) (timers w)
    | None => timers w
    end in
  let n := next_timer_id w in
  {| now := now w;
     window_scrollTop := window_scrollTop w;
     heap :=
       Window.update (heap w) self
         (fun o => {| settings := settings o; animations := animations o;
                      scrollFlag := false;
                      scrollEnd := if fromScrollEnd then scrollEnd o
                                   else Some (S n) |});
     module_instance := module_instance w;
     listeners := listeners w;
     timers :=
       pending
       ++ [{| timer_id := n; due := now w + 16;
              action := SetScrollFlag self |}]
       ++ (if fromScrollEnd then []
           else [{| timer_id := S n; due := now w + 64;
                    action := ScrollEnd self |}]);
     next_timer_id := if fromScrollEnd then S n else S (S n);
     frames := frames w ++ [(self, window_scrollTop w)];
     animate_log := animate_log w ++ [(now w, window_scrollTop w)];
     dom_log := dom_log w |}.

(** What holds of the timers in every window that the program can reach. *)
Record throttle_inv (w : world) : Prop := {
  (* a pending trailing timer is the one its instance remembers, and either
     the instance listens or the timer that makes it listen fires earlier *)
  inv_trailing :
    forall tm self,
      In tm (timers w) -> action tm = ScrollEnd self ->
      exists this,
        nth_error (heap w) self = Some this
        /\ scrollEnd this = Some (timer_id tm)
        /\ (scrollFlag this = true
            \/ exists tm',
                In tm' (timers w) /\ action tm' = SetScrollFlag self
                /\ (due tm' < due tm)%Z);
  (* a remembered handle designates no timer but a trailing one *)
  inv_handle :
    forall tm self this,
      In tm (timers w) -> nth_error (heap w) self = Some this ->
      scrollEnd this = Some (timer_id tm) ->
      exists self', action tm = ScrollEnd self';
  (* handles are fresh *)
  inv_ids :
    forall tm, In tm (timers w) -> (timer_id tm < next_timer_id w)%nat;
  inv_handles :
    forall self this id,
      nth_error (heap w) self = Some this -> scrollEnd this = Some id ->
      (id < next_timer_id w)%nat;
  inv_unique : NoDup (map timer_id (timers w))
}.

(** The window when the timer [tm] has just left the pending ones. *)
Definition fired (tm : timer) (w : world) : world :=
  World.with_timers
    (filter (fun t => negb (Nat.eqb (timer_id t) (timer_id tm))) (timers w))
    (next_timer_id w)
    (World.with_clock (due tm) (window_scrollTop w) w).

(** ** Further definitions for the statements *)

(** An object has a key named [hasOwnProperty]. *)
Definition shadows_hasOwnProperty {V : Type} (o : obj V) : bool :=
  match Obj.get o "hasOwnProperty" with Some _ => true | None => false end.

(** A tween is missing when the value of a property is [null] or
    [undefined]. *)
Definition missing_tween (entry : string * option Tween) : bool :=
  match snd entry with Some _ => false | None => true end.

(** Whether some property of some selector has no tween. *)
Definition has_missing_tween (anims : obj (obj (option Tween))) : bool :=
  existsb (fun entry => existsb missing_tween (snd entry)) anims.

(** The selector is one that [find] is called with, and throws on. *)
Definition refused (doc : document) (root : jq) (selector : string) : bool :=
  if String.eqb selector "this" then false
  else find_throws doc root selector.

(** Whether the initialisation of a selector throws: the selector is
    refused, the properties have a key named [hasOwnProperty], or a tween
    is missing. *)
Definition selector_fails (doc : document) (root : jq)
  (entry : string * obj (option Tween)) : bool :=
  refused doc root (fst entry)
  || shadows_hasOwnProperty (snd entry)
  || existsb missing_tween (snd entry).

(** Whether the construction throws on the given animations. *)
Definition construction_fails (doc : document) (root : jq)
  (anims : obj (obj (option Tween))) : bool :=
  shadows_hasOwnProperty anims || existsb (selector_fails doc root) anims.

(** The element that [initSelector] caches for a selector. *)
Definition target_of (this : Settings) (selector : string) : jq :=
  if String.eqb selector "this" then s_element this
  else Find (s_element this) selector.

(** The element that a call of [$element.css] is made on. *)
Definition target (e : dom_event) : jq :=
  match e with
  | CssGet el _ => el
  | CssSet el _ _ => el
  | CssSetAll el _ => el
  end.

Definition is_read (e : dom_event) : bool :=
  match e with CssGet _ _ => true | _ => false end.

Definition is_init (e : event) : bool :=
  match e with EvInit _ _ _ => true | _ => false end.

(** An [exports.init] whose options give no animation. *)
Definition init_without_animations (e : event) : bool :=
  match e with
  | EvInit _ _ options =>
      match given_animations options with [] => true | _ :: _ => false end
  | _ => true
  end.

(** Calls of [animate] that are 16 ms apart or more, in order. *)
Fixpoint spaced (log : list (Z * float)) : Prop :=
  match log with
  | [] => True
  | call :: rest =>
      match rest with
      | [] => True
      | next :: _ => (fst call + 16 <= fst next)%Z
      end /\ spaced rest
  end.

(** The time of the last call of [animate]. *)
Fixpoint last_call (log : list (Z * float)) : option Z :=
  match log with
  | [] => None
  | call :: rest =>
      match rest with
      | [] => Some (fst call)
      | _ :: _ => last_call rest
      end
  end.

Definition is_trailing (tm : timer) : bool :=
  match action tm with ScrollEnd _ => true | SetScrollFlag _ => false end.

Definition is_flag_timer (tm : timer) : bool :=
  match action tm with SetScrollFlag _ => true | ScrollEnd _ => false end.

(** A bound on the timers that can still fire when no event comes:
    each pending timer, and once more for each trailing one, whose call sets
    a timer again. *)
Definition timer_budget (w : world) : nat :=
  (List.length (timers w) + List.length (filter is_trailing (timers w)))%nat.

(** The singleton discipline: the bound scroll handlers are that of the
    singleton, if there is one, which is the last instance constructed. *)
Definition singleton_ok (w : world) : Prop :=
  listeners w
  = match module_instance w with Some self => [self] | None => [] end
  /\ forall self,
      module_instance w = Some self -> S self = List.length (heap w).

(** What neither a scroll event nor a timer changes. *)
Definition same_bindings (w w' : world) : Prop :=
  listeners w' = listeners w
  /\ module_instance w' = module_instance w
  /\ map animations (heap w') = map animations (heap w)
  /\ dom_log w' = dom_log w.

(** What holds of the window of a single instance, at every time: the calls
    of [animate] are spaced; no pending timer is overdue; while the instance
    listens, no timer that raises its flag is pending and the last call is
    16 ms old or more; there is at most one such timer, due 16 ms after the
    last call or later. *)
Record throttle_pace (w : world) : Prop := {
  pace_heap : exists this, heap w = [this];
  pace_spaced : spaced (animate_log w);
  pace_due : forall tm, In tm (timers w) -> (now w <= due tm)%Z;
  pace_flag_up :
    forall this,
      heap w = [this] -> scrollFlag this = true ->
      (forall tm, In tm (timers w) -> is_flag_timer tm = false)
      /\ forall t0,
          last_call (animate_log w) = Some t0 -> (t0 + 16 <= now w)%Z;
  pace_flag_down :
    forall tm,
      In tm (timers w) -> is_flag_timer tm = true ->
      (forall tm', In tm' (timers w) -> is_flag_timer tm' = true -> tm' = tm)
      /\ forall t0,
          last_call (animate_log w) = Some t0 -> (t0 + 16 <= due tm)%Z
}.

(** The property that a call of [$element.css(property, value)] sets. *)
Definition written_property (e : dom_event) : option string :=
  match e with
  | CssSet _ property _ => Some property
  | _ => None
  end.

Definition is_transform_write (e : dom_event) : bool :=
  match e with CssSetAll _ _ => true | _ => false end.

(** Whether a run can happen, and the window it ends in (the empty one
    stands for that of a run that cannot happen). *)
Definition happens (r : option world) : bool :=
  match r with Some _ => true | None => false end.

Definition outcome (r : option world) : world :=
  match r with Some w => w | None => empty_world end.

(** Whether a construction returns. *)
Definition returns {A : Type} (r : completion A * list dom_event) : bool :=
  match fst r with Normal _ => true | Throw _ => false end.

(** * Results *)

(** ** The order of numbers *)

Module F64Facts.

Import F64.

Lemma SFcompare_rank (f g : spec_float) :
  SFcompare f g
  = match rank f, rank g with
    | Some a, Some b => Some (lex a b)
    | _, _ => None
    end.
Proof.
  destruct f as [[|] | [|] | | [|] m e], g as [[|] | [|] | | [|] m' e'];
    try reflexivity; cbn -[Z.compare].
  all: try (rewrite Z.compare_opp, (Z.compare_antisym e' e);
            destruct (e' ?= e)%Z; cbn; try reflexivity;
            rewrite (Pos.compare_antisym m' m);
            now destruct (m' ?= m)%positive).
  all: destruct (e ?= e')%Z; reflexivity.
Qed.

Lemma lex_refl a : lex a a = Eq.
Proof. destruct a as [[a1 a2] a3]. cbn. now rewrite !Z.compare_refl. Qed.

Lemma lex_antisym a b : lex b a = CompOpp (lex a b).
Proof.
  destruct a as [[a1 a2] a3], b as [[b1 b2] b3]. cbn.
  rewrite (Z.compare_antisym a1 b1), (Z.compare_antisym a2 b2),
    (Z.compare_antisym a3 b3).
  destruct (a1 ?= b1)%Z, (a2 ?= b2)%Z, (a3 ?= b3)%Z; reflexivity.
Qed.

Lemma lex_le_trans a b c : lex a b <> Gt -> lex b c <> Gt -> lex a c <> Gt.
Proof.
  destruct a as [[a1 a2] a3], b as [[b1 b2] b3], c as [[c1 c2] c3]. cbn.
  destruct (Z.compare_spec a1 b1), (Z.compare_spec b1 c1),
    (Z.compare_spec a1 c1); try lia; try congruence;
  destruct (Z.compare_spec a2 b2), (Z.compare_spec b2 c2),
    (Z.compare_spec a2 c2); try lia; try congruence;
  destruct (Z.compare_spec a3 b3), (Z.compare_spec b3 c3),
    (Z.compare_spec a3 c3); try lia; try congruence.
Qed.

Lemma is_nan_key x : is_nan x = false <-> exists a, key x = Some a.
Proof.
  unfold is_nan, key. rewrite FloatAxioms.eqb_spec. unfold SFeqb.
  rewrite SFcompare_rank.
  destruct (rank (Prim2SF x)) as [a |].
  - rewrite lex_refl. cbn. split; eauto.
  - cbn. split; [discriminate | intros [a H]; discriminate].
Qed.

Lemma leb_key x y :
  (x <=? y)%float = true
  <-> exists a b, key x = Some a /\ key y = Some b /\ lex a b <> Gt.
Proof.
  unfold key. rewrite FloatAxioms.leb_spec. unfold SFleb.
  rewrite SFcompare_rank.
  destruct (rank (Prim2SF x)) as [a |], (rank (Prim2SF y)) as [b |];
    try (split; [discriminate | intros (? & ? & ? & ? & ?); discriminate]).
  split.
  - intros H. exists a, b. repeat split. destruct (lex a b); congruence.
  - intros (a' & b' & Ha & Hb & H). inversion Ha; inversion Hb; subst.
    destruct (lex a' b'); congruence.
Qed.

Lemma ltb_key x y :
  (x <? y)%float = true
  <-> exists a b, key x = Some a /\ key y = Some b /\ lex a b = Lt.
Proof.
  unfold key. rewrite FloatAxioms.ltb_spec. unfold SFltb.
  rewrite SFcompare_rank.
  destruct (rank (Prim2SF x)) as [a |], (rank (Prim2SF y)) as [b |];
    try (split; [discriminate | intros (? & ? & ? & ? & ?); discriminate]).
  split.
  - intros H. exists a, b. repeat split. destruct (lex a b); congruence.
  - intros (a' & b' & Ha & Hb & H). inversion Ha; inversion Hb; subst.
    now rewrite H.
Qed.

Lemma leb_refl x : is_nan x = false -> (x <=? x)%float = true.
Proof.
  intros H. apply is_nan_key in H. destruct H as [a Ha].
  apply leb_key. exists a, a. repeat split; try assumption.
  rewrite lex_refl. discriminate.
Qed.

Lemma leb_trans x y z :
  (x <=? y)%float = true -> (y <=? z)%float = true -> (x <=? z)%float = true.
Proof.
  intros H1 H2. apply leb_key in H1. apply leb_key in H2.
  destruct H1 as (a & b & Ha & Hb & Hab), H2 as (b' & c & Hb' & Hc & Hbc).
  rewrite Hb in Hb'. inversion Hb'; subst b'.
  apply leb_key. exists a, c. repeat split; try assumption.
  eapply lex_le_trans; eassumption.
Qed.

Lemma ltb_leb x y : (x <? y)%float = true -> (x <=? y)%float = true.
Proof.
  intros H. apply ltb_key in H. destruct H as (a & b & Ha & Hb & Hab).
  apply leb_key. exists a, b. repeat split; try assumption. congruence.
Qed.

(** Of two numbers, when [x < y] does not hold, [y <= x] does. *)
Lemma not_ltb_leb x y :
  is_nan x = false -> is_nan y = false ->
  (x <? y)%float = false -> (y <=? x)%float = true.
Proof.
  intros Hx Hy H. apply is_nan_key in Hx. apply is_nan_key in Hy.
  destruct Hx as [a Ha], Hy as [b Hb].
  apply leb_key. exists b, a. repeat split; try assumption.
  intros Hgt. rewrite lex_antisym in Hgt.
  assert (Hlt : lex a b = Lt) by (destruct (lex a b); cbn in Hgt; congruence).
  assert (Ht : (x <? y)%float = true) by (apply ltb_key; eauto).
  congruence.
Qed.

(** When [x < y] holds, [y <= x] does not. *)
Lemma ltb_not_leb x y : (x <? y)%float = true -> (y <=? x)%float = false.
Proof.
  intros H. destruct (y <=? x)%float eqn:E; [| reflexivity].
  apply ltb_key in H. apply leb_key in E.
  destruct H as (a & b & Ha & Hb & Hab), E as (b' & a' & Hb' & Ha' & Hba).
  rewrite Ha in Ha'. rewrite Hb in Hb'. inversion Ha'; inversion Hb'; subst.
  rewrite lex_antisym, Hab in Hba. now elim Hba.
Qed.

Lemma leb_not_nan x y :
  (x <=? y)%float = true -> is_nan x = false /\ is_nan y = false.
Proof.
  intros H. apply leb_key in H. destruct H as (a & b & Ha & Hb & _).
  split; apply is_nan_key; eauto.
Qed.

Lemma ltb_not_nan x y :
  (x <? y)%float = true -> is_nan x = false /\ is_nan y = false.
Proof. intros H. apply leb_not_nan. now apply ltb_leb. Qed.

Lemma nan_ltb_l x y : is_nan x = true -> (x <? y)%float = false.
Proof.
  intros H. destruct (x <? y)%float eqn:E; [| reflexivity].
  apply ltb_not_nan in E. destruct E. congruence.
Qed.

Lemma nan_ltb_r x y : is_nan y = true -> (x <? y)%float = false.
Proof.
  intros H. destruct (x <? y)%float eqn:E; [| reflexivity].
  apply ltb_not_nan in E. destruct E. congruence.
Qed.

Lemma nan_leb_l x y : is_nan x = true -> (x <=? y)%float = false.
Proof.
  intros H. destruct (x <=? y)%float eqn:E; [| reflexivity].
  apply leb_not_nan in E. destruct E. congruence.
Qed.

Lemma nan_leb_r x y : is_nan y = true -> (x <=? y)%float = false.
Proof.
  intros H. destruct (x <=? y)%float eqn:E; [| reflexivity].
  apply leb_not_nan in E. destruct E. congruence.
Qed.

(** *** NaN, zeros and the arithmetic *)

Lemma rank_nan (f : spec_float) : rank f = None <-> f = S754_nan.
Proof.
  destruct f as [[|] | [|] | | [|] m e]; cbn; split; congruence.
Qed.

Lemma is_nan_spec x : is_nan x = true <-> Prim2SF x = S754_nan.
Proof.
  rewrite <- rank_nan. fold (key x).
  destruct (is_nan x) eqn:E.
  - split; [intros _ | reflexivity].
    destruct (key x) as [a |] eqn:K; [| reflexivity].
    assert (is_nan x = false) by (apply is_nan_key; eauto). congruence.
  - apply is_nan_key in E. destruct E as [a Ha]. rewrite Ha.
    split; discriminate.
Qed.

Lemma add_nan_l x y : is_nan x = true -> is_nan (x + y) = true.
Proof.
  rewrite !is_nan_spec, add_spec. intros ->. reflexivity.
Qed.

Lemma add_nan_r x y : is_nan y = true -> is_nan (x + y) = true.
Proof.
  rewrite !is_nan_spec, add_spec. intros ->.
  now destruct (Prim2SF x) as [[|] | [|] | | [|] m e].
Qed.

Lemma sub_nan_l x y : is_nan x = true -> is_nan (x - y) = true.
Proof.
  rewrite !is_nan_spec, sub_spec. intros ->. reflexivity.
Qed.

Lemma sub_nan_r x y : is_nan y = true -> is_nan (x - y) = true.
Proof.
  rewrite !is_nan_spec, sub_spec. intros ->.
  now destruct (Prim2SF x) as [[|] | [|] | | [|] m e].
Qed.

Lemma mul_nan_l x y : is_nan x = true -> is_nan (x * y) = true.
Proof.
  rewrite !is_nan_spec, mul_spec. intros ->. reflexivity.
Qed.

Lemma mul_nan_r x y : is_nan y = true -> is_nan (x * y) = true.
Proof.
  rewrite !is_nan_spec, mul_spec. intros ->.
  now destruct (Prim2SF x) as [[|] | [|] | | [|] m e].
Qed.

Lemma div_nan_l x y : is_nan x = true -> is_nan (x / y) = true.
Proof.
  rewrite !is_nan_spec, div_spec. intros ->. reflexivity.
Qed.

Lemma div_nan_r x y : is_nan y = true -> is_nan (x / y) = true.
Proof.
  rewrite !is_nan_spec, div_spec. intros ->.
  now destruct (Prim2SF x) as [[|] | [|] | | [|] m e].
Qed.

(** A finite number is a zero or has a mantissa and an exponent. *)
Lemma finite_cases x :
  is_finite x = true ->
  (exists s, Prim2SF x = S754_zero s)
  \/ (exists s m e, Prim2SF x = S754_finite s m e).
Proof.
  intros H. pose proof (SF2Prim_Prim2SF x) as Hx.
  destruct (Prim2SF x) as [s | s | | s m e]; eauto.
  - exfalso. rewrite <- Hx in H. now destruct s.
  - exfalso. rewrite <- Hx in H. discriminate.
Qed.

(** A number that is neither a zero nor NaN is infinite or has a mantissa
    and an exponent. *)
Lemma truthy_cases x :
  JS.truthy x = true ->
  (exists s, Prim2SF x = S754_infinity s)
  \/ (exists s m e, Prim2SF x = S754_finite s m e).
Proof.
  intros H. pose proof (SF2Prim_Prim2SF x) as Hx.
  destruct (Prim2SF x) as [s | s | | s m e]; eauto.
  - exfalso. rewrite <- Hx in H. now destruct s.
  - exfalso. rewrite <- Hx in H. discriminate.
Qed.

End F64Facts.

(** *** The classes of numbers *)

Module Classes.

Lemma is_nan_class x : is_nan x = false <-> Prim2SF x <> S754_nan.
Proof.
  rewrite <- F64Facts.is_nan_spec. destruct (is_nan x); split; congruence.
Qed.

Lemma is_zero_class x : is_zero x = F64.null (Prim2SF x).
Proof.
  unfold is_zero. rewrite FloatAxioms.eqb_spec.
  change (Prim2SF zero) with (S754_zero false).
  now destruct (Prim2SF x) as [[|] | [|] | | [|] m e].
Qed.

Lemma is_infinity_class x : is_infinity x = F64.infinite (Prim2SF x).
Proof.
  unfold is_infinity. rewrite FloatAxioms.eqb_spec, abs_spec.
  change (Prim2SF infinity) with (S754_infinity false).
  now destruct (Prim2SF x) as [[|] | [|] | | [|] m e].
Qed.

Lemma is_finite_class x : is_finite x = F64.finite (Prim2SF x).
Proof.
  unfold is_finite. rewrite is_infinity_class.
  destruct (is_nan x) eqn:E.
  - apply F64Facts.is_nan_spec in E. now rewrite E.
  - apply is_nan_class in E. now destruct (Prim2SF x).
Qed.

End Classes.

(** *** Rounding yields no NaN *)

Module Rounding.

Local Abbreviation prec := FloatOps.prec.
Local Abbreviation emax := FloatOps.emax.

Lemma shr_1_nonneg (mrs : shr_record) :
  (0 <= shr_m mrs)%Z -> (0 <= shr_m (shr_1 mrs))%Z.
Proof.
  destruct mrs as [m r s]. cbn [shr_m].
  destruct m as [| [p | p |] | p]; cbn; lia.
Qed.

Lemma iter_pos_preserves {A : Type} (P : A -> Prop) (f : A -> A) :
  (forall x, P x -> P (f x)) ->
  forall p x, P x -> P (iter_pos f p x).
Proof.
  intros Hf. induction p as [p IH | p IH |]; intros x Hx; cbn [iter_pos];
    auto.
Qed.

Lemma shr_nonneg (mrs : shr_record) (e n : Z) :
  (0 <= shr_m mrs)%Z -> (0 <= shr_m (fst (shr mrs e n)))%Z.
Proof.
  intros H. unfold shr. destruct n as [| p | p]; cbn [fst]; try exact H.
  apply (iter_pos_preserves (fun r => (0 <= shr_m r)%Z)); [| exact H].
  apply shr_1_nonneg.
Qed.

Lemma shr_fexp_nonneg (m e : Z) (l : location) :
  (0 <= m)%Z -> (0 <= shr_m (fst (shr_fexp prec emax m e l)))%Z.
Proof.
  intros H. unfold shr_fexp. apply shr_nonneg.
  now destruct l as [| []].
Qed.

Lemma round_nearest_even_nonneg (m : Z) (l : location) :
  (0 <= m)%Z -> (0 <= round_nearest_even m l)%Z.
Proof.
  intros H. destruct l as [| []]; cbn; try lia.
  destruct (Z.even m); lia.
Qed.

Lemma binary_round_aux_not_nan (s : bool) (m e : Z) (l : location) :
  (0 <= m)%Z -> binary_round_aux prec emax s m e l <> S754_nan.
Proof.
  intros H. unfold binary_round_aux.
  pose proof (shr_fexp_nonneg m e l H) as H1.
  destruct (shr_fexp prec emax m e l) as [mrs' e'] eqn:E1. cbn [fst] in H1.
  pose proof (shr_fexp_nonneg
                (round_nearest_even (shr_m mrs') (loc_of_shr_record mrs'))
                e' loc_Exact
                (round_nearest_even_nonneg _ _ H1)) as H2.
  destruct (shr_fexp prec emax
              (round_nearest_even (shr_m mrs') (loc_of_shr_record mrs'))
              e' loc_Exact) as [mrs'' e''] eqn:E2.
  cbn [fst] in H2.
  destruct (shr_m mrs'') as [| p | p]; [discriminate | | lia].
  destruct (e'' <=? emax - prec)%Z; discriminate.
Qed.

Lemma binary_round_not_nan (s : bool) (m : positive) (e : Z) :
  binary_round prec emax s m e <> S754_nan.
Proof.
  unfold binary_round.
  destruct (shl_align m e _) as [mz ez].
  apply binary_round_aux_not_nan. lia.
Qed.

Lemma binary_normalize_not_nan (m e : Z) (szero : bool) :
  binary_normalize prec emax m e szero <> S754_nan.
Proof.
  unfold binary_normalize.
  destruct m; [discriminate | |]; apply binary_round_not_nan.
Qed.

(** The operations on the classes. *)

Lemma SFsub_finite (f g : spec_float) :
  F64.finite f = true -> F64.finite g = true -> SF64sub f g <> S754_nan.
Proof.
  destruct f as [[|] | | | sf mf ef], g as [[|] | | | sg mg eg];
    try discriminate; intros _ _; try discriminate.
  apply binary_normalize_not_nan.
Qed.

Lemma SFmul_number (f g : spec_float) :
  f <> S754_nan -> F64.finite g = true ->
  (F64.infinite f && F64.null g)%bool = false ->
  SF64mul f g <> S754_nan.
Proof.
  destruct f as [sf | sf | | sf mf ef], g as [sg | | | sg mg eg];
    try discriminate; try congruence; intros _ _ _; try discriminate.
  apply binary_round_aux_not_nan. lia.
Qed.

Lemma SFdiv_number (f g : spec_float) :
  f <> S754_nan -> F64.finite g = true -> F64.null g = false ->
  SF64div f g <> S754_nan.
Proof.
  destruct f as [sf | sf | | sf mf ef], g as [sg | | | sg mg eg];
    try discriminate; try congruence; intros _ _ _; try discriminate.
  unfold SF64div, SFdiv.
  destruct (SFdiv_core_binary prec emax (Z.pos mf) ef (Z.pos mg) eg)
    as [[mz ez] lz] eqn:E.
  apply binary_round_aux_not_nan.
  unfold SFdiv_core_binary in E.
  match type of E with
  | context [Z.div_eucl ?a ?b] =>
      pose proof (Z.div_pos a b) as Hq;
      unfold Z.div in Hq;
      destruct (Z.div_eucl a b) as [q r] eqn:D
  end.
  inversion E; subst. cbn [fst] in Hq. apply Hq; [| lia].
  match goal with
  | |- (0 <= match ?s with _ => _ end)%Z =>
      destruct s eqn:S; try lia
  end.
  rewrite Z.shiftl_mul_pow2 by lia. apply Z.mul_nonneg_nonneg; [lia |].
  apply Z.pow_nonneg. lia.
Qed.

Lemma SFadd_number (f g : spec_float) :
  F64.finite f = true -> g <> S754_nan -> SF64add f g <> S754_nan.
Proof.
  destruct f as [[|] | | | sf mf ef], g as [[|] | sg | | sg mg eg];
    try discriminate; try congruence; intros _ _; try discriminate.
  apply binary_normalize_not_nan.
Qed.

End Rounding.

Module JSFacts.

Lemma exact_nan x : is_nan x = true -> JS.exact x = None.
Proof.
  intros H. apply F64Facts.is_nan_spec in H. unfold JS.exact. now rewrite H.
Qed.

Lemma Math_round_nan x : is_nan x = true -> JS.Math_round x = x.
Proof. intros H. unfold JS.Math_round. now rewrite exact_nan. Qed.

Lemma Math_round_exact x v :
  JS.exact x = Some v -> JS.Math_round x = JS.integral x (JS.nearest v).
Proof. intros H. unfold JS.Math_round. now rewrite H. Qed.

Lemma Math_round_special x : JS.exact x = None -> JS.Math_round x = x.
Proof. intros H. unfold JS.Math_round. now rewrite H. Qed.

(** Ties go towards +infinity, and a result of zero keeps the sign of the
    argument. *)
Example Math_round_values :
  JS.Math_round 2.5 = 3%float
  /\ JS.Math_round (-2.5) = (-2)%float
  /\ JS.Math_round 0.25 = 0%float
  /\ JS.Math_round (-0.25) = (-0)%float
  /\ JS.Math_round (-0.5) = (-0)%float
  /\ JS.Math_round (-0) = (-0)%float
  /\ JS.Math_round infinity = infinity
  /\ JS.Math_round huge = huge
  /\ JS.isNaN (JS.Math_round nan) = true.
Proof. vm_compute. repeat split. Qed.

End JSFacts.

(** *** Which operations yield a number *)

Module Arith.

Import Classes Rounding.

Lemma sub_number x y :
  is_finite x = true -> is_finite y = true -> is_nan (x - y) = false.
Proof.
  rewrite !is_finite_class, is_nan_class, sub_spec. apply SFsub_finite.
Qed.

Lemma mul_number x y :
  is_nan x = false -> is_finite y = true ->
  (is_infinity x && is_zero y)%bool = false ->
  is_nan (x * y) = false.
Proof.
  rewrite is_finite_class, is_infinity_class, is_zero_class, !is_nan_class,
    mul_spec.
  apply SFmul_number.
Qed.

Lemma mul_infinity_zero x y :
  is_infinity x = true -> is_zero y = true -> is_nan (x * y) = true.
Proof.
  rewrite is_infinity_class, is_zero_class, F64Facts.is_nan_spec, mul_spec.
  now destruct (Prim2SF x) as [sx | sx | | sx mx ex],
    (Prim2SF y) as [sy | sy | | sy my ey].
Qed.

Lemma div_number x y :
  is_nan x = false -> is_finite y = true -> is_zero y = false ->
  is_nan (x / y) = false.
Proof.
  rewrite is_finite_class, is_zero_class, !is_nan_class, div_spec.
  apply SFdiv_number.
Qed.

Lemma add_number x y :
  is_finite x = true -> is_nan y = false -> is_nan (x + y) = false.
Proof.
  rewrite is_finite_class, !is_nan_class, add_spec. apply SFadd_number.
Qed.

Lemma of_uint63_number n : is_nan (of_uint63 n) = false.
Proof.
  rewrite is_nan_class, of_uint63_spec. apply binary_normalize_not_nan.
Qed.

Lemma opp_number x : is_nan x = false -> is_nan (- x) = false.
Proof.
  rewrite !is_nan_class, opp_spec. now destruct (Prim2SF x).
Qed.

Lemma of_integer_number n : is_nan (JS.of_integer n) = false.
Proof.
  destruct n as [| p | p]; cbn [JS.of_integer];
    [reflexivity | apply of_uint63_number |].
  apply opp_number, of_uint63_number.
Qed.

Lemma Math_round_number x :
  is_nan x = false -> is_nan (JS.Math_round x) = false.
Proof.
  intros H. unfold JS.Math_round, JS.exact, JS.integral.
  destruct (Prim2SF x) as [s | s | | s m e] eqn:P; try exact H.
  destruct (0 <=? e)%Z; [exact H |].
  destruct (_ =? 0)%Z; [now destruct s | apply of_integer_number].
Qed.

End Arith.

(** *** [Math.round] yields the nearest integer *)

Module Exact.

Local Abbreviation prec := FloatOps.prec.
Local Abbreviation emax := FloatOps.emax.

Lemma digits2_pos_bound (p : positive) :
  (Zpos p < 2 ^ Zpos (digits2_pos p))%Z.
Proof.
  induction p as [p IH | p IH |]; cbn [digits2_pos]; try reflexivity;
    rewrite Pos2Z.inj_succ, Z.pow_succ_r by lia; lia.
Qed.

Lemma digits2_pos_le (p : positive) :
  forall k, (0 <= k)%Z -> (Zpos p < 2 ^ k)%Z -> (Zpos (digits2_pos p) <= k)%Z.
Proof.
  induction p as [p IH | p IH |]; intros k Hk Hp; cbn [digits2_pos].
  - assert (k <> 0)%Z by (intros ->; cbn in Hp; lia).
    replace k with (Z.succ (k - 1)) in Hp by lia.
    rewrite Z.pow_succ_r in Hp by lia.
    rewrite Pos2Z.inj_succ. specialize (IH (k - 1)%Z). lia.
  - assert (k <> 0)%Z by (intros ->; cbn in Hp; lia).
    replace k with (Z.succ (k - 1)) in Hp by lia.
    rewrite Z.pow_succ_r in Hp by lia.
    rewrite Pos2Z.inj_succ. specialize (IH (k - 1)%Z). lia.
  - assert (k <> 0)%Z by (intros ->; cbn in Hp; lia). lia.
Qed.

Lemma digits2_pos_iter (p : positive) (n : positive) :
  digits2_pos (Pos.iter xO p n) = (digits2_pos p + n)%positive.
Proof.
  induction n as [| n IH] using Pos.peano_ind.
  - cbn. lia.
  - rewrite Pos.iter_succ. cbn [digits2_pos]. rewrite IH. lia.
Qed.

Lemma iter_xO_value (p : positive) (n : positive) :
  Zpos (Pos.iter xO p n) = (Zpos p * 2 ^ Zpos n)%Z.
Proof.
  induction n as [| n IH] using Pos.peano_ind.
  - cbn. lia.
  - rewrite Pos.iter_succ, Pos2Z.inj_xO, IH, Pos2Z.inj_succ,
      Z.pow_succ_r by lia. lia.
Qed.

(** An integer of at most 53 bits is represented exactly. *)
Lemma binary_round_exact (s : bool) (p : positive) :
  (Zpos (digits2_pos p) <= 53)%Z ->
  exists m e,
    binary_round prec emax s p 0 = S754_finite s m e
    /\ (e <= 0)%Z /\ (Zpos m = Zpos p * 2 ^ (- e))%Z.
Proof.
  intros Hd. unfold binary_round.
  set (d := Zpos (digits2_pos p)) in *.
  assert (Hfexp : fexp prec emax (d + 0) = (d - 53)%Z).
  { unfold fexp, SpecFloat.emin. rewrite Z.add_0_r.
    change prec with 53%Z. change emax with 1024%Z. subst d. lia. }
  rewrite Hfexp. unfold shl_align. rewrite Z.sub_0_r.
  assert (Haux : forall mz ez,
             Zpos (digits2_pos mz) = 53%Z -> (-52 <= ez <= 0)%Z ->
             binary_round_aux prec emax s (Zpos mz) ez loc_Exact
             = S754_finite s mz ez).
  { intros mz ez Hmz Hez. unfold binary_round_aux, shr_fexp.
    cbn [Zdigits2 shr_record_of_loc]. rewrite Hmz.
    assert (Hf : fexp prec emax (53 + ez) = ez).
    { unfold fexp, SpecFloat.emin. change prec with 53%Z.
      change emax with 1024%Z. lia. }
    rewrite Hf, Z.sub_diag. cbn [shr shr_m loc_of_shr_record
                                    round_nearest_even Zdigits2
                                    shr_record_of_loc].
    rewrite Hmz, Hf, Z.sub_diag. cbn [shr shr_m].
    change (emax - prec)%Z with 971%Z.
    destruct (ez <=? 971)%Z eqn:E; [reflexivity |].
    apply Z.leb_gt in E. lia. }
  destruct (d - 53)%Z as [| q | q] eqn:Eq; [| lia |].
  - exists p, 0%Z. split; [| split; [lia | cbn; lia]].
    apply Haux; [fold d; lia | lia].
  - exists (Pos.iter xO p q), (Zneg q). split; [| split; [lia |]].
    + apply Haux.
      * rewrite digits2_pos_iter, Pos2Z.inj_add. fold d. lia.
      * subst d. lia.
    + rewrite iter_xO_value. reflexivity.
Qed.

(** The value of a mantissa scaled by a power of two. *)
Lemma scaled_value (p : Z) (m : Z) (e : Z) :
  (e <= 0)%Z -> (m = p * 2 ^ (- e))%Z ->
  inject_Z m * Qpower 2 e == inject_Z p.
Proof.
  intros He ->. rewrite inject_Z_mult.
  destruct e as [| q | q]; [cbn; ring | lia |].
  cbn [Z.opp]. rewrite Zpower_Qpower by lia.
  change (inject_Z 2) with 2. cbn [Qpower].
  field. apply Qpower_not_0_positive. discriminate.
Qed.

Lemma exact_binary_round (x : float) (s : bool) (p : positive) :
  (Zpos (digits2_pos p) <= 53)%Z ->
  Prim2SF x = binary_round prec emax s p 0 ->
  exists r,
    JS.exact x = Some r /\ r == inject_Z (if s then Zneg p else Zpos p).
Proof.
  intros Hd Hx.
  destruct (binary_round_exact s p Hd) as (m & e & Hr & He & Hm).
  rewrite Hr in Hx. unfold JS.exact. rewrite Hx.
  eexists. split; [reflexivity |].
  destruct s.
  - apply scaled_value; [exact He |].
    change (Zneg m) with (- Zpos m)%Z. change (Zneg p) with (- Zpos p)%Z.
    rewrite Hm. ring.
  - apply scaled_value; assumption.
Qed.

Lemma to_Z_of_Z (p : positive) :
  (Zpos p < 2 ^ 53)%Z -> Uint63Axioms.to_Z (Uint63.of_Z (Zpos p)) = Zpos p.
Proof.
  intros H. rewrite Uint63.of_Z_spec. apply Z.mod_small.
  change Uint63.wB with (2 ^ 63)%Z. split; [lia |].
  eapply Z.lt_trans; [exact H | reflexivity].
Qed.

(** The number that [of_integer] makes of an integer of less than 53 bits
    is that integer. *)
Lemma exact_of_integer (n : Z) :
  (- 2 ^ 53 < n < 2 ^ 53)%Z ->
  exists r, JS.exact (JS.of_integer n) = Some r /\ r == inject_Z n.
Proof.
  intros Hn. destruct n as [| p | p]; cbn [JS.of_integer].
  - exists 0. split; reflexivity.
  - apply (exact_binary_round _ false p).
    + apply digits2_pos_le; lia.
    + rewrite of_uint63_spec, to_Z_of_Z by lia. reflexivity.
  - apply (exact_binary_round _ true p).
    + apply digits2_pos_le; lia.
    + rewrite opp_spec, of_uint63_spec, to_Z_of_Z by lia.
      cbn [binary_normalize].
      destruct (binary_round_exact false p) as (m & e & Hr & _);
        [apply digits2_pos_le; lia |].
      destruct (binary_round_exact true p) as (m' & e' & Hr' & _);
        [apply digits2_pos_le; lia |].
      unfold binary_round in *.
      destruct (shl_align p 0 _) as [mz ez].
      unfold binary_round_aux in *.
      destruct (shr_fexp prec emax (Z.pos mz) ez loc_Exact) as [mrs1 e1].
      destruct (shr_fexp prec emax _ e1 loc_Exact) as [mrs2 e2].
      destruct (shr_m mrs2); try discriminate.
      destruct (e2 <=? emax - prec)%Z; try discriminate. reflexivity.
Qed.

(** The mantissa of a number has at most 53 bits. *)
Lemma valid_mantissa (x : float) (s : bool) (m : positive) (e : Z) :
  Prim2SF x = S754_finite s m e -> (Zpos m < 2 ^ 53)%Z.
Proof.
  intros P. pose proof (Prim2SF_valid x) as Hv. rewrite P in Hv.
  unfold SpecFloat.valid_binary, bounded, canonical_mantissa in Hv.
  apply andb_prop in Hv. destruct Hv as [Hc _].
  apply Z.eqb_eq in Hc. unfold fexp, SpecFloat.emin in Hc.
  change prec with 53%Z in Hc. change emax with 1024%Z in Hc.
  pose proof (digits2_pos_bound m) as Hb.
  assert (Hd : (Zpos (digits2_pos m) <= 53)%Z) by lia.
  eapply Z.lt_le_trans; [exact Hb |].
  apply Z.pow_le_mono_r; lia.
Qed.

Lemma nearest_integer (k : Z) : JS.nearest (inject_Z k) = k.
Proof.
  unfold JS.nearest.
  pose proof (Qfloor_le (inject_Z k + (1 # 2))) as H1.
  pose proof (Qlt_floor (inject_Z k + (1 # 2))) as H2.
  rewrite inject_Z_plus in H2. change (inject_Z 1) with 1 in H2.
  set (n := Qfloor (inject_Z k + (1 # 2))) in *.
  assert (A : (n < k + 1)%Z).
  { rewrite Zlt_Qlt, inject_Z_plus. change (inject_Z 1) with 1. lra. }
  assert (B : (k < n + 1)%Z).
  { rewrite Zlt_Qlt, inject_Z_plus. change (inject_Z 1) with 1. lra. }
  lia.
Qed.

Lemma nearest_comp (v w : Q) : v == w -> JS.nearest v = JS.nearest w.
Proof. intros H. unfold JS.nearest. now rewrite H. Qed.

Lemma nearest_bounded (v : Q) (b : Z) :
  - inject_Z b <= v -> v <= inject_Z b -> (- b <= JS.nearest v <= b)%Z.
Proof.
  intros Hlo Hhi. unfold JS.nearest.
  pose proof (Qfloor_le (v + (1 # 2))) as H1.
  pose proof (Qlt_floor (v + (1 # 2))) as H2.
  rewrite inject_Z_plus in H2. change (inject_Z 1) with 1 in H2.
  set (n := Qfloor (v + (1 # 2))) in *.
  assert (A : (n < b + 1)%Z).
  { rewrite Zlt_Qlt, inject_Z_plus. change (inject_Z 1) with 1. lra. }
  assert (B : (- b < n + 1)%Z).
  { rewrite Zlt_Qlt, inject_Z_plus, inject_Z_opp.
    change (inject_Z 1) with 1. lra. }
  lia.
Qed.

(** A number with a fractional bit is below 2^52 in magnitude. *)
Lemma fractional_bound (sm : Z) (e : Z) :
  (- 2 ^ 53 < sm < 2 ^ 53)%Z -> (e < 0)%Z ->
  - inject_Z (2 ^ 52) <= inject_Z sm * Qpower 2 e
  /\ inject_Z sm * Qpower 2 e <= inject_Z (2 ^ 52).
Proof.
  intros Hm He. destruct e as [| q | q]; try lia.
  rewrite Qpower_decomp_neg_pos.
  rewrite Z.pow_1_l by lia.
  assert (Hq : (2 <= Zpos (2 ^ q))%Z).
  { rewrite Pos2Z.inj_pow. change 2%Z with (2 ^ 1)%Z at 1.
    apply Z.pow_le_mono_r; lia. }
  unfold Qle, Qmult, inject_Z. cbn [Qnum Qden Qopp].
  rewrite !Z.mul_1_r, !Pos.mul_1_l. lia.
Qed.

(** [Math.round] of a finite number is the integer nearest to it, a tie
    going towards +infinity. *)
Lemma Math_round_value (x : float) (v : Q) :
  JS.exact x = Some v ->
  exists r,
    JS.exact (JS.Math_round x) = Some r /\ r == inject_Z (JS.nearest v).
Proof.
  intros Hv. unfold JS.Math_round. rewrite Hv. unfold JS.integral.
  unfold JS.exact in Hv.
  destruct (Prim2SF x) as [s | s | | s m e] eqn:P; try discriminate.
  - inversion Hv; subst v. exists 0. split; [| reflexivity].
    unfold JS.exact. now rewrite P.
  - inversion Hv as [Ev]. clear Hv.
    set (sm := if s then Zneg m else Zpos m) in *.
    destruct (0 <=? e)%Z eqn:E.
    + apply Z.leb_le in E. eexists. split.
      * unfold JS.exact. rewrite P. reflexivity.
      * fold sm.
        assert (Hint : inject_Z sm * Qpower 2 e == inject_Z (sm * 2 ^ e)).
        { rewrite inject_Z_mult, Zpower_Qpower by exact E. reflexivity. }
        rewrite (nearest_comp _ _ Hint), nearest_integer. exact Hint.
    + apply Z.leb_gt in E.
      pose proof (valid_mantissa x s m e P) as Hm.
      assert (Hsm : (- 2 ^ 53 < sm < 2 ^ 53)%Z) by (subst sm; destruct s; lia).
      destruct (fractional_bound sm e Hsm E) as [Hlo Hhi].
      pose proof (nearest_bounded _ _ Hlo Hhi) as Hn.
      destruct (JS.nearest (inject_Z sm * Qpower 2 e) =? 0)%Z eqn:Z0.
      * apply Z.eqb_eq in Z0. rewrite Z0. exists 0.
        split; [now destruct s | reflexivity].
      * apply exact_of_integer. lia.
Qed.

End Exact.

(** ** The interpolator *)

Section Interpolator.

Variables from to over scrollPos : float.

Local Abbreviation newValue := (rounded_value from to over scrollPos).
Local Abbreviation result := (buildPropertyFunction from to over scrollPos).

(** NaN goes through the interpolation. *)
Lemma rounded_value_nan :
  JS.isNaN from = true \/ JS.isNaN to = true \/ JS.isNaN over = true
  \/ JS.isNaN scrollPos = true ->
  JS.isNaN newValue = true.
Proof.
  unfold JS.isNaN, rounded_value, raw_value. intros H.
  apply F64Facts.div_nan_l. rewrite JSFacts.Math_round_nan;
    apply F64Facts.mul_nan_l.
  all: destruct H as [H | [H | [H | H]]].
  all: try (now apply F64Facts.add_nan_l).
  all: apply F64Facts.add_nan_r.
  all: try (now apply F64Facts.div_nan_r).
  all: apply F64Facts.div_nan_l.
  all: try (now apply F64Facts.mul_nan_r).
  all: apply F64Facts.mul_nan_l.
  all: try (now apply F64Facts.sub_nan_l).
  all: now apply F64Facts.sub_nan_r.
Qed.

(** For finite arguments and a distance that is not zero, the rounded
    value is NaN in one case only: the difference [to - from] overflows
    and the scroll position is a zero. *)
Lemma rounded_value_finite :
  is_finite from = true -> is_finite to = true ->
  is_finite scrollPos = true ->
  is_finite over = true -> is_zero over = false ->
  JS.isNaN newValue = (is_infinity (to - from) && is_zero scrollPos)%bool.
Proof.
  intros Ff Ft Fs Fo Zo. unfold JS.isNaN, rounded_value, raw_value.
  pose proof (Arith.sub_number to from Ft Ff) as Nd.
  destruct (is_infinity (to - from) && is_zero scrollPos)%bool eqn:E.
  - apply andb_prop in E. destruct E as [Ed Es].
    apply F64Facts.div_nan_l. rewrite JSFacts.Math_round_nan;
      apply F64Facts.mul_nan_l, F64Facts.add_nan_r, F64Facts.div_nan_l,
        Arith.mul_infinity_zero; assumption.
  - apply Arith.div_number; [| reflexivity | reflexivity].
    apply Arith.Math_round_number.
    apply Arith.mul_number; [| reflexivity | apply andb_false_r].
    apply Arith.add_number; [exact Ff |].
    apply Arith.div_number; [| exact Fo | exact Zo].
    apply Arith.mul_number; assumption.
Qed.

(** NaN goes through the clamp: every comparison with it is false. *)
Lemma clamp_nan : JS.isNaN newValue = true -> result = newValue.
Proof.
  unfold JS.isNaN, buildPropertyFunction, JS.lt, JS.gt. intros H.
  rewrite !(F64Facts.nan_ltb_l _ _ H), !(F64Facts.nan_ltb_r _ _ H).
  now destruct (from <? to)%float.
Qed.

Lemma clamp_bounds :
  JS.isNaN from = false -> JS.isNaN to = false ->
  JS.isNaN newValue = false ->
  (lower from to <=? result)%float = true
  /\ (result <=? upper from to)%float = true.
Proof.
  unfold JS.isNaN, buildPropertyFunction, lower, upper, JS.lt, JS.gt.
  intros Hf Ht Hn.
  destruct (from <? to)%float eqn:Eft.
  - pose proof (F64Facts.ltb_leb _ _ Eft).
    destruct (newValue <? from)%float eqn:E1;
      [split; [now apply F64Facts.leb_refl | assumption] |].
    destruct (to <? newValue)%float eqn:E2;
      [split; [assumption | now apply F64Facts.leb_refl] |].
    split; now apply F64Facts.not_ltb_leb.
  - pose proof (F64Facts.not_ltb_leb _ _ Hf Ht Eft).
    destruct (from <? newValue)%float eqn:E1;
      [split; [assumption | now apply F64Facts.leb_refl] |].
    destruct (newValue <? to)%float eqn:E2;
      [split; [now apply F64Facts.leb_refl | assumption] |].
    split; now apply F64Facts.not_ltb_leb.
Qed.

End Interpolator.

(** C1, as the specification words it, fails: with [from = 2^1023],
    [to = -2^1023] and [over = 1] the difference [to - from] overflows to
    [-Infinity], whose product with the scroll position 0 is NaN; the
    built function returns NaN, which is not within the bounds. *)
Lemma clamp_counterexample :
  let value := buildPropertyFunction huge (- huge) 1 0 in
  JS.lt 0 1 = true
  /\ JS.isNaN value = true
  /\ (lower huge (- huge) <=? value)%float = false
  /\ (value <=? upper huge (- huge))%float = false.
Proof. vm_compute. repeat split. Qed.

(** C1, amended.  For every finite [from], [to] and scroll position and
    every finite [over] that is not zero, the built function returns a
    value within [[min(from, to), max(from, to)]], unless the difference
    [to - from] overflows and the scroll position is a zero: it then
    returns NaN.  For all arguments, the returned value is within the
    bounds exactly when the rounded value [Math.round(raw * 100) / 100] is
    a number: the clamp then keeps it between the bounds; when the rounded
    value is NaN, as it is when an argument is NaN, the clamp lets it
    through and the function returns NaN, which no bound compares with. *)
Theorem buildPropertyFunction_clamped (from to over scrollPos : float) :
  let newValue := rounded_value from to over scrollPos in
  let result := buildPropertyFunction from to over scrollPos in
  (is_finite from = true -> is_finite to = true ->
   is_finite scrollPos = true ->
   is_finite over = true -> is_zero over = false ->
   JS.isNaN newValue = (is_infinity (to - from) && is_zero scrollPos)%bool
   /\ ((is_infinity (to - from) && is_zero scrollPos)%bool = false ->
       (lower from to <=? result)%float = true
       /\ (result <=? upper from to)%float = true))
  /\ (JS.isNaN newValue = false ->
      JS.isNaN from = false /\ JS.isNaN to = false
      /\ (lower from to <=? result)%float = true
      /\ (result <=? upper from to)%float = true)
  /\ (JS.isNaN newValue = true ->
      result = newValue
      /\ (lower from to <=? result)%float = false
      /\ (result <=? upper from to)%float = false)
  /\ (JS.isNaN from = true \/ JS.isNaN to = true \/ JS.isNaN over = true
      \/ JS.isNaN scrollPos = true ->
      JS.isNaN newValue = true).
Proof.
  intros newValue result.
  assert (Hbounds :
    JS.isNaN newValue = false ->
    JS.isNaN from = false /\ JS.isNaN to = false
    /\ (lower from to <=? result)%float = true
    /\ (result <=? upper from to)%float = true).
  { intros Hn.
    assert (Hf : JS.isNaN from = false).
    { destruct (JS.isNaN from) eqn:E; [| reflexivity].
      rewrite <- Hn. symmetry. apply rounded_value_nan. tauto. }
    assert (Ht : JS.isNaN to = false).
    { destruct (JS.isNaN to) eqn:E; [| reflexivity].
      rewrite <- Hn. symmetry. apply rounded_value_nan. tauto. }
    split; [exact Hf |]. split; [exact Ht |].
    now apply clamp_bounds. }
  split; [| split; [exact Hbounds | split]].
  - intros Ff Ft Fs Fo Zo.
    pose proof (rounded_value_finite from to over scrollPos Ff Ft Fs Fo Zo)
      as Hn.
    split; [exact Hn |]. intros E. apply Hbounds. fold newValue in Hn.
    now rewrite Hn.
  - intros Hn. subst result. rewrite (clamp_nan _ _ _ _ Hn).
    split; [reflexivity |].
    split; [now apply F64Facts.nan_leb_r | now apply F64Facts.nan_leb_l].
  - apply rounded_value_nan.
Qed.

Lemma buildPropertyFunction_clamped_witness :
  (0 <=? buildPropertyFunction 0 20 70 35)%float = true
  /\ (buildPropertyFunction 0 20 70 35 <=? 20)%float = true.
Proof.
  destruct (proj1 (buildPropertyFunction_clamped 0 20 70 35)
              eq_refl eq_refl eq_refl eq_refl eq_refl) as [_ H].
  exact (H eq_refl).
Defined.

(** *** The order of the values *)

(** Saturation of the context with the facts [a <= b] that the outcomes of
    comparisons give, then a search along transitivity. *)
Ltac order_facts :=
  repeat match goal with
  | H : (?a <? ?b)%float = true |- _ =>
      pose proof (F64Facts.ltb_leb _ _ H);
      pose proof (F64Facts.ltb_not_leb _ _ H);
      clear H
  | H : (?a <? ?b)%float = false,
    Ha : is_nan ?a = false, Hb : is_nan ?b = false |- _ =>
      pose proof (F64Facts.not_ltb_leb _ _ Ha Hb H);
      clear H
  end.

Ltac order :=
  order_facts;
  first
    [ assumption
    | apply F64Facts.leb_refl; assumption
    | eauto 4 using F64Facts.leb_trans
    | exfalso;
      match goal with
      | H : (?a <=? ?b)%float = false |- _ =>
          assert ((a <=? b)%float = true)
            by eauto 5 using F64Facts.leb_trans;
          congruence
      end ].

(** The clamp is monotone: it keeps the order of the rounded values. *)
Lemma clamp_monotone (from to over s1 s2 : float) :
  JS.isNaN from = false -> JS.isNaN to = false ->
  (rounded_value from to over s1 <=? rounded_value from to over s2)%float
  = true ->
  (buildPropertyFunction from to over s1
   <=? buildPropertyFunction from to over s2)%float = true.
Proof.
  unfold JS.isNaN, buildPropertyFunction, JS.lt, JS.gt.
  set (x := rounded_value from to over s1).
  set (y := rounded_value from to over s2).
  intros Hf Ht Hxy.
  destruct (F64Facts.leb_not_nan _ _ Hxy) as [Hx Hy].
  destruct (from <? to)%float eqn:Eft.
  - destruct (x <? from)%float eqn:X1, (y <? from)%float eqn:Y1;
      try destruct (to <? x)%float eqn:X2;
      try destruct (to <? y)%float eqn:Y2; order.
  - destruct (from <? x)%float eqn:X1, (from <? y)%float eqn:Y1;
      try destruct (x <? to)%float eqn:X2;
      try destruct (y <? to)%float eqn:Y2; order.
Qed.

(** *** A grid of tweens with integer ends *)

Lemma In_Z_range (n : nat) :
  forall lo z, (lo <= z < lo + Z.of_nat n)%Z -> In z (Z_range lo n).
Proof.
  induction n as [| n IH]; intros lo z Hz; [lia |].
  cbn [Z_range]. destruct (Z.eq_dec lo z) as [-> | Hne]; [now left |].
  right. apply IH. lia.
Qed.

Lemma ordered_refl (from to x : float) :
  is_nan x = false -> ordered from to x x = true.
Proof.
  intros H. unfold ordered.
  destruct (from <=? to)%float; now apply F64Facts.leb_refl.
Qed.

Lemma ordered_trans (from to x y z : float) :
  ordered from to x y = true -> ordered from to y z = true ->
  ordered from to x z = true.
Proof.
  unfold ordered. destruct (from <=? to)%float; intros H1 H2;
    eauto using F64Facts.leb_trans.
Qed.

Lemma ordered_not_nan (from to x y : float) :
  ordered from to x y = true -> is_nan x = false /\ is_nan y = false.
Proof.
  unfold ordered. destruct (from <=? to)%float; intros H;
    apply F64Facts.leb_not_nan in H; tauto.
Qed.

Section Steps.

Variables from to over : float.

Local Abbreviation f := (buildPropertyFunction from to over).
Local Abbreviation ord := (ordered from to).

Lemma steps_ordered_step (n : nat) :
  steps_ordered from to over n = true ->
  forall k, (0 <= k < Z.of_nat n)%Z ->
    ord (f (JS.of_integer k)) (f (JS.of_integer (k + 1))) = true.
Proof.
  induction n as [| n IH]; intros H k Hk; [lia |].
  cbn [steps_ordered] in H. apply andb_prop in H. destruct H as [H1 H2].
  destruct (Z.eq_dec k (Z.of_nat n)) as [-> | Hne]; [exact H1 |].
  apply IH; [exact H2 | lia].
Qed.

Lemma steps_ordered_chain (n : nat) :
  steps_ordered from to over n = true ->
  forall (d : nat) (s1 : Z),
    (0 <= s1)%Z -> (s1 + Z.of_nat d <= Z.of_nat n)%Z -> (0 < Z.of_nat n)%Z ->
    ord (f (JS.of_integer s1)) (f (JS.of_integer (s1 + Z.of_nat d))) = true.
Proof.
  intros H. induction d as [| d IH]; intros s1 H0 Hn Hpos.
  - rewrite Z.add_0_r. apply ordered_refl.
    destruct (Z.eq_dec s1 (Z.of_nat n)) as [E | E].
    + pose proof (steps_ordered_step n H (s1 - 1)%Z ltac:(lia)) as Hs.
      replace (s1 - 1 + 1)%Z with s1 in Hs by lia.
      now apply ordered_not_nan in Hs.
    + pose proof (steps_ordered_step n H s1 ltac:(lia)) as Hs.
      now apply ordered_not_nan in Hs.
  - replace (s1 + Z.of_nat (S d))%Z with (s1 + Z.of_nat d + 1)%Z by lia.
    eapply ordered_trans.
    + apply IH; lia.
    + apply (steps_ordered_step n H). lia.
Qed.

End Steps.

Lemma grid_ordered_sound (bound : Z) (span : nat) :
  grid_ordered bound span = true ->
  forall from to over s1 s2 : Z,
    (- bound <= from <= bound)%Z -> (- bound <= to <= bound)%Z ->
    (1 <= over <= Z.of_nat span)%Z -> (0 <= s1 <= s2)%Z -> (s2 <= over)%Z ->
    let f :=
      buildPropertyFunction (JS.of_integer from) (JS.of_integer to)
        (JS.of_integer over) in
    ordered (JS.of_integer from) (JS.of_integer to)
      (f (JS.of_integer s1)) (f (JS.of_integer s2)) = true.
Proof.
  intros H from to over s1 s2 Hf Ht Ho Hs1 Hs2 f. subst f.
  unfold grid_ordered in H. cbv zeta in H.
  rewrite forallb_forall in H.
  assert (Hfrom : In from (Z_range (- bound) (Z.to_nat (2 * bound + 1))))
    by (apply In_Z_range; lia).
  assert (Hto : In to (Z_range (- bound) (Z.to_nat (2 * bound + 1))))
    by (apply In_Z_range; lia).
  assert (Hover : In over (Z_range 1 span)) by (apply In_Z_range; lia).
  pose proof (H from Hfrom) as H1. rewrite forallb_forall in H1.
  pose proof (H1 to Hto) as H2. rewrite forallb_forall in H2.
  pose proof (H2 over Hover) as H3.
  replace s2 with (s1 + Z.of_nat (Z.to_nat (s2 - s1)))%Z by lia.
  apply (steps_ordered_chain _ _ _ (Z.to_nat over) H3); lia.
Qed.

Lemma steps_ordered_sound (from to over : float) (n : nat) :
  steps_ordered from to over n = true ->
  forall s1 s2 : Z,
    (0 <= s1 <= s2)%Z -> (s2 <= Z.of_nat n)%Z -> (0 < Z.of_nat n)%Z ->
    ordered from to
      (buildPropertyFunction from to over (JS.of_integer s1))
      (buildPropertyFunction from to over (JS.of_integer s2)) = true.
Proof.
  intros H s1 s2 Hs1 Hs2 Hn.
  replace s2 with (s1 + Z.of_nat (Z.to_nat (s2 - s1)))%Z by lia.
  apply (steps_ordered_chain from to over n H); lia.
Qed.

Lemma grid_6_12 : grid_ordered 6 12 = true.
Proof. vm_compute. reflexivity. Qed.

(** The tweens of the example of the documentation, with the ends that
    are not given there read from a style: a padding from 0 to 20 and a
    scale from 1 to 0.5, over 200. *)
Lemma documented_tweens_ordered :
  steps_ordered 0 20 200 200 = true /\ steps_ordered 1 0.5 200 200 = true.
Proof. vm_compute. split; reflexivity. Qed.




(** *** Rounding *)

Lemma Qfloor_unique (y : Q) (k : Z) :
  inject_Z k <= y -> y < inject_Z k + 1 -> Qfloor y = k.
Proof.
  intros Hlo Hhi.
  pose proof (Qfloor_le y) as H1. pose proof (Qlt_floor y) as H2.
  rewrite inject_Z_plus in H2. change (inject_Z 1) with 1 in H2.
  assert (A : (k < Qfloor y + 1)%Z).
  { rewrite Zlt_Qlt, inject_Z_plus. change (inject_Z 1) with 1. lra. }
  assert (B : (Qfloor y < k + 1)%Z).
  { rewrite Zlt_Qlt, inject_Z_plus. change (inject_Z 1) with 1. lra. }
  lia.
Qed.

(** Rounding to the nearest integer with ties towards +infinity and with
    ties away from zero agree except on a negative tie, where the former
    is one above. *)
Lemma nearest_vs_half_away (x : Q) :
  JS.nearest x
  = (round_half_away_from_zero x + if negative_tie x then 1 else 0)%Z.
Proof.
  unfold JS.nearest, round_half_away_from_zero, negative_tie.
  destruct (Qle_bool 0 x) eqn:Hsign; cbn [negb andb]; [lia |].
  assert (Hneg : x < 0).
  { destruct (Qlt_le_dec x 0) as [L | L]; [exact L |].
    apply Qle_bool_iff in L. congruence. }
  set (k := Qfloor (x + (1 # 2))).
  pose proof (Qfloor_le (x + (1 # 2))) as H1.
  pose proof (Qlt_floor (x + (1 # 2))) as H2.
  fold k in H1, H2.
  rewrite inject_Z_plus in H2. change (inject_Z 1) with 1 in H2.
  destruct (Qeq_bool (inject_Z k) (x + (1 # 2))) eqn:E.
  - apply Qeq_bool_iff in E.
    assert (F : Qfloor (- x + (1 # 2)) = (1 - k)%Z).
    { apply Qfloor_unique.
      - unfold Z.sub. rewrite inject_Z_plus, inject_Z_opp.
        change (inject_Z 1) with 1. lra.
      - unfold Z.sub. rewrite inject_Z_plus, inject_Z_opp.
        change (inject_Z 1) with 1. lra. }
    rewrite F. lia.
  - apply Qeq_bool_neq in E.
    assert (F : Qfloor (- x + (1 # 2)) = (- k)%Z).
    { apply Qfloor_unique.
      - rewrite inject_Z_opp. lra.
      - rewrite inject_Z_opp.
        destruct (Qlt_le_dec (inject_Z k) (x + (1 # 2))) as [L | L]; [lra |].
        exfalso. apply E. lra. }
    rewrite F. lia.
Qed.

(** C6, as the specification words it, fails.  With [from = -1], [to = 0],
    [over = 8] and the scroll position 7 the raw value is [-0.125], and a
    hundred times it [-12.5], both exact: the program rounds to [-12] and
    returns [-12 / 100], where rounding half away from zero at the
    hundredths gives [-13 / 100].  With [from = to] the number nearest to
    0.015, which is below 0.015, a hundred times the raw value is rounded
    to 1.5 by the multiplication: the program returns [2 / 100], where
    the raw value rounded to two decimals is [1 / 100]. *)
Lemma rounding_counterexample :
  (rounded_value (-1) 0 8 7 = (-12 / 100)%float
   /\ round2_half_away (raw_value (-1) 0 8 7) = Some (-13 / 100)%float
   /\ (-12 / 100 =? -13 / 100)%float = false)
  /\ (rounded_value fifteen_thousandths fifteen_thousandths 1 0
      = (2 / 100)%float
      /\ round2_half_away
           (raw_value fifteen_thousandths fifteen_thousandths 1 0)
         = Some (1 / 100)%float
      /\ (2 / 100 =? 1 / 100)%float = false).
Proof. vm_compute. repeat split. Qed.

(** C6, amended. For every [from], [to], [over] and scroll position, the
    value before clamping is [Math.round(y) / 100], where [y] is the number
    that the multiplication of the raw value by 100 yields and the division
    is that of binary64.  When [y] is NaN or infinite, [Math.round(y)] is
    [y].  Otherwise it is the integer [n] nearest to the exact value of
    [y], a tie going towards +infinity: [n] is that value rounded half
    away from zero, except on a negative tie, where it is one above. *)
Theorem rounded_value_nearest (from to over scrollPos : float) :
  let y := (raw_value from to over scrollPos * 100)%float in
  rounded_value from to over scrollPos = (JS.Math_round y / 100)%float
  /\ (JS.exact y = None -> JS.Math_round y = y)
  /\ forall v,
      JS.exact y = Some v ->
      let n :=
        (round_half_away_from_zero v + if negative_tie v then 1 else 0)%Z in
      JS.Math_round y = JS.integral y n
      /\ (exists r, JS.exact (JS.Math_round y) = Some r /\ r == inject_Z n)
      /\ (negative_tie v = false -> n = round_half_away_from_zero v).
Proof.
  intros y. split; [reflexivity |]. split.
  - apply JSFacts.Math_round_special.
  - intros v Hv n. subst n. rewrite <- nearest_vs_half_away.
    split; [apply (JSFacts.Math_round_exact y v Hv) |].
    split; [apply (Exact.Math_round_value y v Hv) |].
    intros Ht. rewrite nearest_vs_half_away, Ht. apply Z.add_0_r.
Qed.

Lemma rounded_value_nearest_witness :
  JS.Math_round (raw_value 0 20 70 36 * 100)%float = 1029%float.
Proof.
  destruct (rounded_value_nearest 0 20 70 36) as (_ & _ & H).
  destruct (H _ eq_refl) as [H' _].
  rewrite H'. reflexivity.
Defined.

(** ** Resolution of tweens *)

Section PropertyResolver.

Variable parseFloat : string -> float.
Variable this : Settings.
Variables (property : string) (el : jq).

Lemma inherit_given (x : float) (doc : document) :
  inherit parseFloat (Some x) el property doc = (Normal x, []).
Proof. reflexivity. Qed.

Lemma inherit_absent (doc : document) :
  inherit parseFloat None el property doc
  = (Normal (style_number parseFloat (css doc el property)),
     [CssGet el property]).
Proof.
  unfold inherit, style_number, EffMonad.bind, EffMonad.css_get.
  destruct (JS.isNaN (parseFloat (ToString (css doc el property))));
    reflexivity.
Qed.

(** What [initProperty] returns for a tween object, and what it reads. *)
Lemma initProperty_run (value : Tween) (doc : document) :
  exists from to log,
    initProperty parseFloat this property (Some value) el doc
    = (Normal {| fn := buildPropertyFunction from to (resolve_over this value);
                 isTransform := inArray property (transforms this);
                 unit_ := match tw_unit value with
                          | Some u => u
                          | None =>
                              if inArray property (transforms this)
                              then ""%string else "px"%string
                          end |},
       log)
    /\ from = match tw_from value with
              | Some x => x
              | None => style_number parseFloat (css doc el property)
              end
    /\ to = match tw_to value with
            | Some x => x
            | None => style_number parseFloat (css doc el property)
            end
    /\ log = (match tw_from value with
              | Some _ => []
              | None => [CssGet el property]
              end ++
              match tw_to value with
              | Some _ => []
              | None => [CssGet el property]
              end)%list.
Proof.
  unfold initProperty, EffMonad.bind.
  destruct (tw_from value) as [f |], (tw_to value) as [t |];
    rewrite ?inherit_given, ?inherit_absent; cbn;
    eexists _, _, _; repeat split; reflexivity.
Qed.

End PropertyResolver.

(** *** The degenerate tween *)

(** With [from = to = x], for a finite [x] that is not [-0], the raw value
    is [x] at every finite scroll position, whatever the distance, as long
    as it is neither zero nor NaN: the difference is 0, its product with
    the scroll position and the quotient by the distance are zeros, and
    adding a zero to [x] gives [x]. *)
Lemma raw_value_degenerate (x over scrollPos : float) :
  is_finite x = true -> x <> (-0)%float ->
  is_finite scrollPos = true -> JS.truthy over = true ->
  raw_value x x over scrollPos = x.
Proof.
  intros Hx Hnz Hs Ho. unfold raw_value.
  apply Prim2SF_inj.
  rewrite add_spec, div_spec, mul_spec, sub_spec.
  assert (Hsign : Prim2SF x <> S754_zero true).
  { intros E. apply Hnz. rewrite <- (SF2Prim_Prim2SF x), E. reflexivity. }
  destruct (F64Facts.finite_cases _ Hx) as [[sx Ex] | (sx & mx & ex & Ex)];
    rewrite Ex in *.
  - destruct sx; [congruence |].
    destruct (F64Facts.finite_cases _ Hs) as [[sg ->] | (sg & m & e & ->)];
      destruct (F64Facts.truthy_cases _ Ho)
        as [[sg' ->] | (sg' & m' & e' & ->)];
      cbn; now destruct (xorb _ _).
  - assert (Hd : SF64sub (S754_finite sx mx ex) (S754_finite sx mx ex)
                 = S754_zero false).
    { unfold SF64sub, SFsub. now rewrite Z.sub_diag. }
    rewrite Hd.
    destruct (F64Facts.finite_cases _ Hs) as [[sg ->] | (sg & m & e & ->)];
      destruct (F64Facts.truthy_cases _ Ho)
        as [[sg' ->] | (sg' & m' & e' & ->)];
      reflexivity.
Qed.

(** The function built for such a tween is constant. *)
Lemma constant_binding (x over s1 s2 : float) :
  is_finite x = true -> x <> (-0)%float -> JS.truthy over = true ->
  is_finite s1 = true -> is_finite s2 = true ->
  buildPropertyFunction x x over s1 = buildPropertyFunction x x over s2.
Proof.
  intros Hx Hnz Ho H1 H2. unfold buildPropertyFunction, rounded_value.
  now rewrite !raw_value_degenerate.
Qed.

Lemma constant_ten (over scrollPos : float) :
  is_finite scrollPos = true -> JS.truthy over = true ->
  buildPropertyFunction 10 10 over scrollPos = 10%float.
Proof.
  intros Hs Ho. unfold buildPropertyFunction, rounded_value.
  rewrite raw_value_degenerate;
    [reflexivity | reflexivity | discriminate | exact Hs | exact Ho].
Qed.

Lemma or_default_truthy (v : option float) (d : float) :
  JS.truthy d = true -> JS.truthy (JS.or_default v d) = true.
Proof.
  intros Hd. unfold JS.or_default.
  destruct v as [x |]; [| exact Hd].
  destruct (JS.truthy x) eqn:E; [exact E | exact Hd].
Qed.

(** C8. When [from] (respectively [to]) is absent from a tween,
    [initProperty] reads the style of the property on the target and takes
    what [parseFloat] makes of it, 0 when that is NaN, without failing.
    With neither given, [from] and [to] are the same number, and the value
    function is constant over the finite scroll positions when that number
    is finite and not [-0], for an instance whose scroll distance is
    neither zero nor NaN, as that of every constructed instance is.  In
    particular, with a style of ["10px"] and a [parseFloat] that makes 10
    of it, [from] and [to] are both 10 and the function returns 10. *)
Theorem initProperty_inherits_style
  (parseFloat : string -> float)
  (this : Settings) (property : string) (value : Tween) (el : jq)
  (doc : document) :
  let style := parseFloat (ToString (css doc el property)) in
  let inherited := if JS.isNaN style then 0%float else style in
  exists b log,
    initProperty parseFloat this property (Some value) el doc
    = (Normal b, log)
    /\ (tw_from value = None ->
        In (CssGet el property) log
        /\ exists to,
            fn b = buildPropertyFunction inherited to
                     (resolve_over this value))
    /\ (tw_to value = None ->
        In (CssGet el property) log
        /\ exists from,
            fn b = buildPropertyFunction from inherited
                     (resolve_over this value))
    /\ (tw_from value = None -> tw_to value = None ->
        fn b = buildPropertyFunction inherited inherited
                 (resolve_over this value)
        /\ (JS.truthy (scrollDistance this) = true ->
            is_finite inherited = true -> inherited <> (-0)%float ->
            forall s1 s2,
              is_finite s1 = true -> is_finite s2 = true ->
              fn b s1 = fn b s2)
        /\ (css doc el property = Some "10px"%string ->
            parseFloat "10px"%string = 10%float ->
            fn b = buildPropertyFunction 10 10 (resolve_over this value)
            /\ (JS.truthy (scrollDistance this) = true ->
                forall scrollPos,
                  is_finite scrollPos = true -> fn b scrollPos = 10%float))).
Proof.
  intros style inherited.
  destruct (initProperty_run parseFloat this property el value doc)
    as (from & to & log & Hrun & Hfrom & Hto & Hlog).
  fold style in Hfrom, Hto. unfold style_number in Hfrom, Hto.
  fold style in Hfrom, Hto. fold inherited in Hfrom, Hto.
  eexists _, log. split; [exact Hrun |]. cbn [fn].
  split; [| split].
  - intros H. split.
    + rewrite Hlog, H. left. reflexivity.
    + exists to. rewrite Hfrom, H. reflexivity.
  - intros H. split.
    + rewrite Hlog, H. apply in_or_app. right. left. reflexivity.
    + exists from. rewrite Hto, H. reflexivity.
  - intros Hf Ht. rewrite Hfrom, Hto, Hf, Ht.
    split; [reflexivity |]. split.
    + intros Hd Hfin Hnz s1 s2 H1 H2.
      apply constant_binding; try assumption.
      apply or_default_truthy. exact Hd.
    + intros Hcss Hparse.
      assert (Hten : inherited = 10%float).
      { unfold inherited, style. rewrite Hcss. cbn [ToString].
        rewrite Hparse. reflexivity. }
      rewrite Hten. split; [reflexivity |].
      intros Hd scrollPos Hs. apply constant_ten; [exact Hs |].
      apply or_default_truthy. exact Hd.
Qed.

Lemma initProperty_inherits_style_witness :
  exists b,
    fst (initProperty SampleRun.parseFloat (constructor_settings None None)
           "padding-top" (Some Sample.bare_tween) Body Sample.ten_px)
    = Normal b
    /\ fn b 35%float = 10%float.
Proof.
  destruct (initProperty_inherits_style SampleRun.parseFloat
              (constructor_settings None None)
              "padding-top" Sample.bare_tween Body Sample.ten_px)
    as (b & log & Hrun & _ & _ & Hten).
  exists b. split.
  - rewrite Hrun. reflexivity.
  - destruct (Hten eq_refl eq_refl) as (_ & _ & H).
    destruct (H eq_refl eq_refl) as [_ H'].
    apply H'; reflexivity.
Defined.

(** When the style denotes no number, or when there is no style, the
    inherited ends are 0. *)
Example initProperty_defaults_to_zero :
  exists b,
    initProperty SampleRun.parseFloat (constructor_settings None None)
      "padding-top" (Some Sample.bare_tween) Body Sample.no_style
    = (Normal b, [CssGet Body "padding-top"; CssGet Body "padding-top"])
    /\ fn b = buildPropertyFunction 0 0 70.
Proof. eexists. split; reflexivity. Qed.

(** C10. For a tween in which both [from] and [to] are defined,
    [initProperty] never reads a style, and it returns the same binding
    whatever the styles of the document are. *)
Theorem initProperty_ignores_styles
  (parseFloat : string -> float)
  (this : Settings) (property : string) (value : Tween) (el : jq)
  (css1 css2 : document) :
  tw_from value <> None -> tw_to value <> None ->
  snd (initProperty parseFloat this property (Some value) el css1) = []
  /\ initProperty parseFloat this property (Some value) el css1
     = initProperty parseFloat this property (Some value) el css2.
Proof.
  intros Hf Ht.
  destruct (initProperty_run parseFloat this property el value css1)
    as (f1 & t1 & l1 & R1 & F1 & T1 & L1).
  destruct (initProperty_run parseFloat this property el value css2)
    as (f2 & t2 & l2 & R2 & F2 & T2 & L2).
  rewrite R1, R2.
  destruct (tw_from value); [| congruence].
  destruct (tw_to value); [| congruence].
  subst. split; reflexivity.
Qed.

Lemma initProperty_ignores_styles_witness :
  snd (initProperty SampleRun.parseFloat (constructor_settings None None)
         "padding-top" (Some Sample.full_tween) Body Sample.ten_px) = []
  /\ initProperty SampleRun.parseFloat (constructor_settings None None)
       "padding-top" (Some Sample.full_tween) Body Sample.ten_px
     = initProperty SampleRun.parseFloat (constructor_settings None None)
         "padding-top" (Some Sample.full_tween) Body Sample.no_style.
Proof.
  apply (initProperty_ignores_styles SampleRun.parseFloat
           (constructor_settings None None)
           "padding-top" Sample.full_tween Body Sample.ten_px
           Sample.no_style);
    discriminate.
Defined.

(** ** Validation of [over] *)

Lemma scrollDistance_truthy (el : option jq) (options : option Options) :
  JS.truthy (scrollDistance (constructor_settings el options)) = true.
Proof.
  unfold constructor_settings. cbn [scrollDistance].
  apply or_default_truthy. reflexivity.
Qed.

(** C5, as the specification words it, fails: a tween whose [over] is 0 does
    not make the construction fail.  The instance is built, and the property
    function is the one for the default distance of 70. *)
Lemma zero_over_is_not_rejected :
  ~ (exists message,
        fst (ScrollBinder_new SampleRun.parseFloat None
               (Some (Sample.padding_options (Some 0%float)))
               Sample.no_style)
        = Throw message).
Proof.
  intros [message H].
  assert (Hret : returns (ScrollBinder_new SampleRun.parseFloat None
                            (Some (Sample.padding_options (Some 0%float)))
                            Sample.no_style) = true)
    by (vm_compute; reflexivity).
  unfold returns in Hret. rewrite H in Hret. discriminate.
Qed.

(** C5, amended. [initProperty] rejects no [over]: for every tween object
    the binding is built.  An [over] of zero, like an absent one, is replaced
    by the scroll distance of the instance, which is [options.over] unless
    that is zero or absent and 70 then; so the distance the property function
    divides by is never zero.  Any other [over], a negative one included, is
    used as it is given.  (NaN is replaced as zero is.) *)
Theorem over_is_never_rejected
  (parseFloat : string -> float)
  (root : option jq) (options : option Options)
  (property : string) (value : Tween) (el : jq) (doc : document) :
  let this := constructor_settings root options in
  exists b log from to,
    initProperty parseFloat this property (Some value) el doc
    = (Normal b, log)
    /\ fn b = buildPropertyFunction from to (resolve_over this value)
    /\ (resolve_over this value =? 0)%float = false
    /\ JS.isNaN (resolve_over this value) = false
    /\ resolve_over this value
       = match tw_over value with
         | Some x =>
             if ((x =? 0)%float || JS.isNaN x)%bool then scrollDistance this
             else x
         | None => scrollDistance this
         end
    /\ scrollDistance this
       = match options with
         | Some {| opt_over := Some x |} =>
             if ((x =? 0)%float || JS.isNaN x)%bool then 70%float else x
         | _ => 70%float
         end.
Proof.
  intros this.
  destruct (initProperty_run parseFloat this property el value doc)
    as (from & to & log & Hrun & _).
  eexists _, log, from, to. split; [exact Hrun |]. cbn [fn].
  split; [reflexivity |].
  pose proof (or_default_truthy (tw_over value) (scrollDistance this)
                (scrollDistance_truthy root options)) as Ht.
  fold (resolve_over this value) in Ht. unfold JS.truthy in Ht.
  apply negb_true_iff, orb_false_iff in Ht. destruct Ht as [Hz Hn].
  split; [exact Hz |]. split; [exact Hn |]. split.
  - unfold resolve_over, JS.or_default, JS.truthy, is_zero, JS.isNaN, zero.
    destruct (tw_over value) as [x |]; [| reflexivity].
    destruct ((x =? 0)%float || is_nan x)%bool; reflexivity.
  - unfold this, constructor_settings, JS.or_default, JS.truthy, is_zero,
      JS.isNaN, zero.
    cbn [scrollDistance].
    destruct options as [[[x |] a] |]; cbn [opt_over]; try reflexivity.
    destruct ((x =? 0)%float || is_nan x)%bool; reflexivity.
Qed.

(** The construction as a whole succeeds for a zero and for a negative
    [over]; the built functions are those for 70 and for -5. *)
Example zero_over_instance :
  exists this log b,
    ScrollBinder_new SampleRun.parseFloat None
      (Some (Sample.padding_options (Some 0%float)))
      Sample.no_style = (Normal this, log)
    /\ Obj.get (animations this) "this" <> None
    /\ initProperty SampleRun.parseFloat (settings this) "padding-top"
         (Some (Sample.tween (Some 0%float) (Some 20%float) (Some 0%float)))
         Body Sample.no_style
       = (Normal b, [])
    /\ fn b 35%float = 10%float.
Proof.
  eexists _, _, _. split; [reflexivity |]. split; [discriminate |].
  split; reflexivity.
Qed.

Example negative_over_instance :
  exists this log b,
    ScrollBinder_new SampleRun.parseFloat None
      (Some (Sample.padding_options (Some (-5)%float)))
      Sample.no_style = (Normal this, log)
    /\ initProperty SampleRun.parseFloat (settings this) "padding-top"
         (Some (Sample.tween (Some 0%float) (Some 20%float)
                  (Some (-5)%float)))
         Body Sample.no_style
       = (Normal b, [])
    /\ fn b 35%float = 0%float /\ fn b (-1)%float = 4%float.
Proof.
  eexists _, _, _. split; [reflexivity |]. split; [reflexivity |].
  split; reflexivity.
Qed.

(** ** Construction *)

Module ObjFacts.

Section Facts.
Context {V : Type}.

Lemma set_fresh (o : obj V) (k : string) (v : V) :
  ~ In k (Obj.keys o) -> Obj.set o k v = o ++ [(k, v)].
Proof.
  induction o as [| [k' v'] o IH]; intros Hk; [reflexivity |].
  cbn [Obj.set]. destruct (String.eqb_spec k k') as [-> | Hne].
  - exfalso. apply Hk. left. reflexivity.
  - rewrite IH; [reflexivity |]. intros Hin. apply Hk. right. exact Hin.
Qed.

Lemma keys_app (o1 o2 : obj V) :
  Obj.keys (o1 ++ o2) = Obj.keys o1 ++ Obj.keys o2.
Proof. unfold Obj.keys. apply map_app. Qed.

Lemma wf_functional (o : obj V) (k : string) (v1 v2 : V) :
  Obj.wf o -> In (k, v1) o -> In (k, v2) o -> v1 = v2.
Proof.
  unfold Obj.wf, Obj.keys.
  induction o as [| [k' v'] o IH]; intros Hwf H1 H2; [contradiction |].
  cbn [map fst] in Hwf. inversion Hwf as [| ? ? Hnotin Hwf']; subst.
  destruct H1 as [E1 | H1], H2 as [E2 | H2].
  - congruence.
  - inversion E1; subst. exfalso. apply Hnotin.
    apply (in_map fst) in H2. exact H2.
  - inversion E2; subst. exfalso. apply Hnotin.
    apply (in_map fst) in H1. exact H1.
  - apply IH; assumption.
Qed.

Lemma In_keys_set (o : obj V) (k x : string) (v : V) :
  In x (Obj.keys (Obj.set o k v)) <-> x = k \/ In x (Obj.keys o).
Proof.
  induction o as [| [k' v'] o IH]; cbn [Obj.set].
  - cbn. intuition congruence.
  - destruct (String.eqb_spec k k') as [-> | Hne]; cbn;
      [intuition congruence |].
    unfold Obj.keys in IH. rewrite IH. intuition congruence.
Qed.

(** An object stays one under assignment. *)
Lemma set_wf (o : obj V) (k : string) (v : V) :
  Obj.wf o -> Obj.wf (Obj.set o k v).
Proof.
  unfold Obj.wf.
  induction o as [| [k' v'] o IH]; intros Hwf; cbn [Obj.set].
  - cbn. constructor; [intros [] | constructor].
  - cbn in Hwf. inversion Hwf as [| ? ? Hnotin Hwf']; subst.
    destruct (String.eqb_spec k k') as [-> | Hne]; cbn.
    + constructor; assumption.
    + constructor; [| now apply IH].
      intros Hin. apply In_keys_set in Hin. destruct Hin as [-> | Hin].
      * now apply Hne.
      * now apply Hnotin.
Qed.

End Facts.

End ObjFacts.

Lemma get_In {V : Type} (o : obj V) (k : string) (v : V) :
  In (k, v) o -> exists v', Obj.get o k = Some v'.
Proof.
  induction o as [| [k' v'] o IH]; intros Hin; [contradiction |].
  cbn [Obj.get]. destruct (String.eqb_spec k k') as [-> | Hne]; [eauto |].
  destruct Hin as [E | Hin]; [congruence | now apply IH].
Qed.

(** What a [for ... in] loop preserves, when it ends normally. *)
Lemma for_in_preserves {V S : Type} (P : S -> Prop)
  (body : string -> V -> S -> Eff S) (doc : document) :
  (forall k v acc acc' log,
      P acc -> body k v acc doc = (Normal acc', log) -> P acc') ->
  forall (o : obj V) (acc r : S) (log : list dom_event),
    P acc -> EffMonad.for_in o body acc doc = (Normal r, log) -> P r.
Proof.
  intros Hbody. induction o as [| [k v] o IH]; intros acc r log Hacc Hrun.
  - inversion Hrun; subst. exact Hacc.
  - cbn [EffMonad.for_in] in Hrun. unfold EffMonad.bind in Hrun.
    destruct (body k v acc doc) as [[acc' | message] log1] eqn:E;
      [| discriminate].
    destruct (EffMonad.for_in o body acc' doc) as [r' log2] eqn:E2.
    inversion Hrun; subst.
    apply (IH acc' r log2); [| exact E2].
    apply (Hbody k v acc acc' log1 Hacc E).
Qed.

Section ForIn.

Context {V B : Type}.

(** The object that the loop enumerates, and the function it applies. *)
Variable whole : obj V.
Variable g : string -> V -> Eff B.
Variable doc : document.

Lemma assign_each_shadowed (k : string) (v : V) (acc : obj B) :
  shadows_hasOwnProperty whole = true ->
  exists m, assign_each whole g k v acc doc = (Throw m, []).
Proof.
  unfold shadows_hasOwnProperty, assign_each, EffMonad.hasOwnProperty,
    EffMonad.bind,
    EffMonad.throw.
  destruct (Obj.get whole "hasOwnProperty"); [eauto | discriminate].
Qed.

Lemma assign_each_run (k : string) (v : V) (acc : obj B) :
  shadows_hasOwnProperty whole = false ->
  (exists v', Obj.get whole k = Some v') ->
  assign_each whole g k v acc doc
  = match g k v doc with
    | (Normal b, l) => (Normal (Obj.set acc k b), l)
    | (Throw m, l) => (Throw m, l)
    end.
Proof.
  unfold shadows_hasOwnProperty, assign_each, EffMonad.hasOwnProperty,
    EffMonad.bind,
    EffMonad.throw, EffMonad.ret.
  intros Hs [v' Hk]. rewrite Hk.
  destruct (Obj.get whole "hasOwnProperty"); [discriminate |].
  destruct (g k v doc) as [[b | m] l]; [| reflexivity].
  cbn. now rewrite app_nil_r.
Qed.

(** The keys of the entries that remain are keys of the object. *)
Local Abbreviation enumerated := (fun o : obj V =>
  forall kv, In kv o -> exists v', Obj.get whole (fst kv) = Some v').

Lemma for_in_shadowed (o : obj V) (acc : obj B) :
  shadows_hasOwnProperty whole = true -> o <> [] ->
  exists m l, EffMonad.for_in o (assign_each whole g) acc doc = (Throw m, l).
Proof.
  intros Hs Hne. destruct o as [| [k v] o]; [congruence |].
  cbn [EffMonad.for_in]. unfold EffMonad.bind at 1.
  destruct (assign_each_shadowed k v acc Hs) as [m ->]. eauto.
Qed.

Lemma for_in_throws (o : obj V) :
  forall acc,
    enumerated o ->
    Exists (fun kv => exists m l, g (fst kv) (snd kv) doc = (Throw m, l)) o ->
    exists m l,
      EffMonad.for_in o (assign_each whole g) acc doc = (Throw m, l).
Proof.
  induction o as [| [k v] o IH]; intros acc Hen Hex; [inversion Hex |].
  destruct (shadows_hasOwnProperty whole) eqn:Hs;
    [apply for_in_shadowed; [exact Hs | discriminate] |].
  cbn [EffMonad.for_in]. unfold EffMonad.bind at 1.
  rewrite (assign_each_run k v acc Hs (Hen (k, v) (or_introl eq_refl))).
  destruct (g k v doc) as [[b | m] l] eqn:E.
  - inversion Hex as [? ? (m' & l' & Hthrow) | ? ? Hrest]; subst.
    + cbn [fst snd] in Hthrow. congruence.
    + destruct (IH (Obj.set acc k b)) as (m' & l' & Hrun).
      * intros kv Hin. apply Hen. now right.
      * exact Hrest.
      * rewrite Hrun. eauto.
  - eauto.
Qed.

Lemma for_in_returns (o : obj V) :
  forall acc,
    enumerated o ->
    shadows_hasOwnProperty whole = false ->
    Forall (fun kv => exists b l, g (fst kv) (snd kv) doc = (Normal b, l)) o ->
    exists r l,
      EffMonad.for_in o (assign_each whole g) acc doc = (Normal r, l).
Proof.
  induction o as [| [k v] o IH]; intros acc Hen Hs Hall.
  - cbn. unfold EffMonad.ret. eauto.
  - inversion Hall as [| ? ? (b & l & Hb) Hrest]; subst.
    cbn [fst snd] in Hb.
    cbn [EffMonad.for_in]. unfold EffMonad.bind at 1.
    rewrite (assign_each_run k v acc Hs (Hen (k, v) (or_introl eq_refl))), Hb.
    destruct (IH (Obj.set acc k b)) as (r & l' & Hrun);
      [intros kv Hin; apply Hen; now right | exact Hs | exact Hrest |].
    rewrite Hrun. eauto.
Qed.

(** On an object the loop adds one entry per key, in order. *)
Lemma for_in_shape (o : obj V) :
  forall acc r log,
    enumerated o ->
    NoDup (Obj.keys acc ++ Obj.keys o) ->
    EffMonad.for_in o (assign_each whole g) acc doc = (Normal r, log) ->
    exists bs,
      r = acc ++ bs
      /\ Forall2
           (fun kv kb =>
              fst kb = fst kv
              /\ exists l, g (fst kv) (snd kv) doc = (Normal (snd kb), l))
           o bs.
Proof.
  induction o as [| [k v] o IH]; intros acc r log Hen Hnd Hrun.
  - cbn in Hrun. inversion Hrun; subst. exists []. rewrite app_nil_r.
    split; [reflexivity | constructor].
  - destruct (shadows_hasOwnProperty whole) eqn:Hs.
    { destruct (for_in_shadowed ((k, v) :: o) acc Hs ltac:(discriminate))
        as (m & l & Hthrow).
      congruence. }
    cbn [EffMonad.for_in] in Hrun. unfold EffMonad.bind at 1 in Hrun.
    rewrite (assign_each_run k v acc Hs (Hen (k, v) (or_introl eq_refl)))
      in Hrun.
    destruct (g k v doc) as [[b | m] l] eqn:E; [| discriminate].
    destruct (EffMonad.for_in o (assign_each whole g) (Obj.set acc k b) doc)
      as [r' l'] eqn:E'.
    inversion Hrun; subst r'.
    assert (Hfresh : ~ In k (Obj.keys acc)).
    { intros Hin. cbn in Hnd. apply NoDup_remove_2 in Hnd. apply Hnd.
      apply in_or_app. left. exact Hin. }
    rewrite (ObjFacts.set_fresh acc k b Hfresh) in E'.
    destruct (IH (acc ++ [(k, b)]) r l') as (bs & Hr & Hall).
    + intros kv Hin. apply Hen. now right.
    + rewrite ObjFacts.keys_app, <- app_assoc. exact Hnd.
    + exact E'.
    + exists ((k, b) :: bs). split.
      * rewrite Hr, <- app_assoc. reflexivity.
      * constructor; [| exact Hall]. cbn [fst snd]. eauto.
Qed.

End ForIn.

Lemma enumerated_self {V : Type} (o : obj V) :
  forall kv, In kv o -> exists v', Obj.get o (fst kv) = Some v'.
Proof. intros [k v] Hin. exact (get_In o k v Hin). Qed.

Section Construction.

Variable parseFloat : string -> float.
Variable this : Settings.
Variable doc : document.

Lemma initProperty_missing (property : string) (el : jq) :
  exists m l,
    initProperty parseFloat this property None el doc = (Throw m, l).
Proof. cbn. unfold EffMonad.throw. eauto. Qed.

Lemma initProperty_present (property : string) (value : Tween) (el : jq) :
  exists b l,
    initProperty parseFloat this property (Some value) el doc
    = (Normal b, l).
Proof.
  destruct (initProperty_run parseFloat this property el value doc)
    as (from & to & log & Hrun & _).
  eauto.
Qed.

Lemma initSelector_unfold (selector : string) (props : obj (option Tween)) :
  initSelector parseFloat this selector props doc
  = if refused doc (s_element this) selector
    then (Throw "Error: Syntax error, unrecognized expression", [])
    else
      match EffMonad.for_in props
              (assign_each props
                 (fun property value =>
                    initProperty parseFloat this property value
                      (target_of this selector)))
              [] doc with
      | (Normal ps, l) =>
          (Normal {| init_ := true; element := target_of this selector;
                     properties := ps |}, l)
      | (Throw m, l) => (Throw m, l)
      end.
Proof.
  unfold initSelector, refused, target_of, EffMonad.bind at 1.
  destruct (String.eqb selector "this").
  - cbn [EffMonad.ret]. unfold EffMonad.bind at 1.
    match goal with
    | |- context [EffMonad.for_in ?o ?body ?acc ?c] =>
        destruct (EffMonad.for_in o body acc c) as [[ps | m] l];
          [| reflexivity]
    end.
    cbn. now rewrite app_nil_r.
  - unfold EffMonad.find.
    destruct (find_throws doc (s_element this) selector); [reflexivity |].
    unfold EffMonad.bind at 1.
    match goal with
    | |- context [EffMonad.for_in ?o ?body ?acc ?c] =>
        destruct (EffMonad.for_in o body acc c) as [[ps | m] l];
          [| reflexivity]
    end.
    cbn. now rewrite app_nil_r.
Qed.

Lemma selector_fails_refused (selector : string)
  (props : obj (option Tween)) :
  selector_fails doc (s_element this) (selector, props)
  = (refused doc (s_element this) selector || shadows_hasOwnProperty props
     || existsb missing_tween props)%bool.
Proof. reflexivity. Qed.

Lemma initSelector_throws (selector : string) (props : obj (option Tween)) :
  selector_fails doc (s_element this) (selector, props) = true ->
  exists m l, initSelector parseFloat this selector props doc = (Throw m, l).
Proof.
  rewrite selector_fails_refused, initSelector_unfold. intros H.
  destruct (refused doc (s_element this) selector); [eauto |]. cbn [orb] in H.
  match goal with
  | |- context [EffMonad.for_in ?o ?body ?acc ?c] =>
      assert (Hthrow : exists m l, EffMonad.for_in o body acc c = (Throw m, l))
  end.
  { destruct (shadows_hasOwnProperty props) eqn:Hs.
    - apply for_in_shadowed; [exact Hs |].
      unfold shadows_hasOwnProperty in Hs. now destruct props.
    - cbn [orb] in H. apply for_in_throws; [apply enumerated_self |].
      apply existsb_exists in H. destruct H as ([k v] & Hin & Hmiss).
      apply Exists_exists. exists (k, v). split; [exact Hin |].
      unfold missing_tween in Hmiss. cbn [fst snd] in *.
      destruct v; [discriminate |]. apply initProperty_missing. }
  destruct Hthrow as (m & l & ->). eauto.
Qed.

Lemma initSelector_returns (selector : string) (props : obj (option Tween)) :
  selector_fails doc (s_element this) (selector, props) = false ->
  exists t l, initSelector parseFloat this selector props doc = (Normal t, l).
Proof.
  rewrite selector_fails_refused, initSelector_unfold. intros H.
  apply orb_false_iff in H. destruct H as [H Hmiss].
  apply orb_false_iff in H. destruct H as [Href Hs]. rewrite Href.
  match goal with
  | |- context [EffMonad.for_in ?o ?body ?acc ?c] =>
      assert (Hret : exists r l, EffMonad.for_in o body acc c = (Normal r, l))
  end.
  { apply for_in_returns; [apply enumerated_self | exact Hs |].
    apply Forall_forall. intros [k v] Hin. cbn [fst snd].
    destruct v as [value |]; [apply initProperty_present |].
    exfalso. apply Bool.not_true_iff_false in Hmiss. apply Hmiss.
    apply existsb_exists. exists (k, None). split; [exact Hin | reflexivity]. }
  destruct Hret as (r & l & ->). eauto.
Qed.

Lemma initAnimations_unfold (anims : obj (obj (option Tween))) :
  initAnimations parseFloat this anims doc
  = EffMonad.for_in anims
      (assign_each anims (initSelector parseFloat this)) [] doc.
Proof. reflexivity. Qed.

Lemma initAnimations_throws (anims : obj (obj (option Tween))) :
  construction_fails doc (s_element this) anims = true ->
  exists m l, initAnimations parseFloat this anims doc = (Throw m, l).
Proof.
  unfold construction_fails. intros H. rewrite initAnimations_unfold.
  destruct (shadows_hasOwnProperty anims) eqn:Hs.
  - apply for_in_shadowed; [exact Hs |].
    unfold shadows_hasOwnProperty in Hs. now destruct anims.
  - cbn [orb] in H. apply for_in_throws; [apply enumerated_self |].
    apply existsb_exists in H. destruct H as ([sel props] & Hin & Hfail).
    apply Exists_exists. exists (sel, props). split; [exact Hin |].
    cbn [fst snd]. now apply initSelector_throws.
Qed.

Lemma initAnimations_returns (anims : obj (obj (option Tween))) :
  construction_fails doc (s_element this) anims = false ->
  exists tree l, initAnimations parseFloat this anims doc = (Normal tree, l).
Proof.
  unfold construction_fails. intros H. rewrite initAnimations_unfold.
  apply orb_false_iff in H. destruct H as [Hs H].
  apply for_in_returns; [apply enumerated_self | exact Hs |].
  apply Forall_forall. intros [sel props] Hin. cbn [fst snd].
  apply initSelector_returns.
  destruct (selector_fails doc (s_element this) (sel, props)) eqn:E;
    [| reflexivity].
  exfalso. apply Bool.not_true_iff_false in H. apply H.
  apply existsb_exists. exists (sel, props). split; [exact Hin | exact E].
Qed.

(** The properties that [initSelector] builds form an object, so the
    hypothesis of the result on the writes of a selector holds of every
    instance. *)
Lemma initSelector_wf (selector : string)
  (props : obj (option Tween)) (t : SelectorTarget)
  (log : list dom_event) :
  initSelector parseFloat this selector props doc = (Normal t, log) ->
  Obj.wf (properties t).
Proof.
  rewrite initSelector_unfold. intros H.
  destruct (refused doc (s_element this) selector); [discriminate |].
  match type of H with
  | context [EffMonad.for_in ?o ?body ?acc ?c] =>
      destruct (EffMonad.for_in o body acc c) as [[ps | message] log1] eqn:E;
        [| discriminate]
  end.
  inversion H; subst. cbn [properties].
  revert E. apply for_in_preserves; [| constructor].
  intros k v acc acc' log0 Hacc Hbody.
  unfold assign_each, EffMonad.hasOwnProperty, EffMonad.bind,
    EffMonad.throw, EffMonad.ret in Hbody.
  destruct (Obj.get props "hasOwnProperty"); [discriminate |].
  destruct (Obj.get props k); [| inversion Hbody; subst; exact Hacc].
  match type of Hbody with
  | context [initProperty ?p ?a ?b ?c ?d ?e] =>
      destruct (initProperty p a b c d e) as [[pb | message] log2];
        [| discriminate]
  end.
  cbn in Hbody. inversion Hbody; subst. now apply ObjFacts.set_wf.
Qed.

End Construction.

Lemma ScrollBinder_new_unfold (parseFloat : string -> float)
  (el : option jq) (options : option Options) (doc : document) :
  ScrollBinder_new parseFloat el options doc
  = match initAnimations parseFloat (constructor_settings el options)
            (given_animations options) doc with
    | (Normal tree, l) =>
        (Normal {| settings := constructor_settings el options;
                   animations := tree; scrollFlag := true;
                   scrollEnd := None |}, l)
    | (Throw m, l) => (Throw m, l)
    end.
Proof.
  unfold ScrollBinder_new. unfold EffMonad.bind at 1.
  destruct (initAnimations _ _ _ doc) as [[tree | m] l]; [| reflexivity].
  cbn. now rewrite app_nil_r.
Qed.

(** ** The frame callback *)

Lemma string_append_assoc (a b c : string) :
  ((a ++ b) ++ c = a ++ (b ++ c))%string.
Proof. induction a as [| x a IH]; cbn; [reflexivity | now rewrite IH]. Qed.

Lemma string_append_empty_r (a : string) : (a ++ "" = a)%string.
Proof. induction a as [| x a IH]; cbn; [reflexivity | now rewrite IH]. Qed.

Lemma existsb_filter {A : Type} (f : A -> bool) (l : list A) :
  existsb f l = match filter f l with [] => false | _ :: _ => true end.
Proof.
  induction l as [| x l IH]; [reflexivity |].
  cbn [existsb filter]. destruct (f x); [reflexivity | exact IH].
Qed.

Section FrameApplier.

Variable Number_toString : float -> string.
Variables (el : jq) (scrollPos : float).

Local Abbreviation is_transform := (fun entry : string * PropertyBinding =>
                            isTransform (snd entry)).
Local Abbreviation is_plain := (fun entry : string * PropertyBinding =>
                        negb (isTransform (snd entry))).
Local Abbreviation stacked := (fun entry : string * PropertyBinding =>
                       (fst entry,
                        formatted Number_toString (snd entry) scrollPos)).

(** The loop over the properties: transforms are stacked in their order,
    the other properties are written in theirs. *)
Lemma animate_property_loop (props : obj PropertyBinding) :
  forall (stack : obj string) (writes : list dom_event),
    NoDup (Obj.keys stack ++ Obj.keys props) ->
    fold_left (animate_property Number_toString el scrollPos) props
      (stack, writes)
    = (stack ++ map stacked (filter is_transform props),
       writes ++ map (plain_write Number_toString el scrollPos)
                   (filter is_plain props)).
Proof.
  induction props as [| [property value] props IH]; intros stack writes Hnd.
  - cbn. now rewrite !app_nil_r.
  - cbn [fold_left animate_property filter snd negb].
    destruct (isTransform value) eqn:E; cbn [negb].
    + rewrite ObjFacts.set_fresh.
      * rewrite IH.
        -- cbn [map fst snd]. now rewrite <- app_assoc.
        -- rewrite ObjFacts.keys_app, <- app_assoc. exact Hnd.
      * intros Hin. apply NoDup_remove_2 in Hnd. apply Hnd.
        apply in_or_app. left. exact Hin.
    + rewrite IH.
      * cbn [map]. now rewrite <- app_assoc.
      * apply NoDup_remove_1 in Hnd. exact Hnd.
Qed.

(** The loop over the transform stack concatenates the pieces. *)
Lemma build_transformString_loop (props : obj PropertyBinding) :
  forall acc : string,
    fold_left
      (fun transformString entry =>
         (transformString ++ fst entry ++ "(" ++ snd entry ++ ") ")%string)
      (map stacked (filter is_transform props)) acc
    = (acc ++ composite_transform Number_toString scrollPos props)%string.
Proof.
  unfold composite_transform.
  induction props as [| [property value] props IH]; intros acc.
  - cbn. now rewrite string_append_empty_r.
  - cbn [filter snd]. destruct (isTransform value); [| apply IH].
    cbn [map fold_left fold_right]. rewrite IH.
    unfold transform_piece. cbn [fst snd].
    now rewrite !string_append_assoc.
Qed.

End FrameApplier.



(** ** The throttle *)

(** Deciding the comparisons of times that a run meets. *)
Ltac decide_order :=
  match goal with
  | |- context [(?a <=? ?b)%Z] =>
      first [ replace (a <=? b)%Z with true
                by (symmetry; apply Z.leb_le; lia)
            | replace (a <=? b)%Z with false
                by (symmetry; apply Z.leb_gt; lia) ]
  | |- context [(?a <? ?b)%Z] =>
      first [ replace (a <? b)%Z with true
                by (symmetry; apply Z.ltb_lt; lia)
            | replace (a <? b)%Z with false
                by (symmetry; apply Z.ltb_ge; lia) ]
  end.

Lemma run_step (parse : string -> float) (toS : float -> string)
  (w w' : world) (e : event) (es : list event) :
  step parse toS w e = Some w' ->
  run parse toS w (e :: es) = run parse toS w' es.
Proof. intros H. cbn [run]. now rewrite H. Qed.

(** One event of a run, from a world that is written out. *)
Ltac run_one :=
  erewrite run_step
    by (cbv -[Z.add Z.leb Z.ltb];
        repeat (decide_order; cbv -[Z.add Z.leb Z.ltb]);
        reflexivity).

Ltac simulate := unfold idle_world, idle_instance; repeat run_one.

Section Throttle.

Variable parseFloat : string -> float.
Variable Number_toString : float -> string.
Variables (s : Settings) (anims : obj SelectorTarget).

(** C3. From the idle state at time [t0]:
    - a scroll event makes one call of [animate] at once, and an event
      less than 16 ms later makes none;
    - two events 5 ms apart make exactly two calls, one at once and a
      trailing one 64 ms after the first event, the only one accepted:
      the dropped event does not move the trailing timer;
    - a third event [d] ms after the first one, past the window of 16 ms,
      is accepted at once: before the trailing call ([16 < d < 64], as at
      20 ms; the trailing call then comes 64 ms after it) and after the
      window that the trailing call, throttled as every call is, opens in
      its turn ([80 < d]); within that window ([64 < d < 80]) it is
      dropped, as every event within a window is. *)
Theorem throttle_scenarios (t0 e d1 d2 d3 : Z) (p0 p1 p2 : float) :
  (0 <= e < 16)%Z -> (16 < d1 < 64)%Z -> (64 < d2 < 80)%Z -> (80 < d3)%Z ->
  let w0 := idle_world s anims t0 in
  (exists w1 w2,
      run parseFloat Number_toString w0 [EvScroll t0 p0] = Some w1
      /\ animate_log w1 = [(t0, p0)]
      /\ run parseFloat Number_toString w1 [EvScroll (t0 + e) p1] = Some w2
      /\ animate_log w2 = [(t0, p0)])
  /\ (exists w,
         run parseFloat Number_toString w0
           [EvScroll t0 p0; EvScroll (t0 + 5) p1; EvTimer; EvTimer; EvTimer]
         = Some w
         /\ animate_log w = [(t0, p0); ((t0 + 64)%Z, p1)]
         /\ timers w = [])
  /\ (exists w,
         run parseFloat Number_toString w0
           [EvScroll t0 p0; EvScroll (t0 + 5) p1; EvTimer;
            EvScroll (t0 + d1) p2; EvTimer; EvTimer; EvTimer]
         = Some w
         /\ animate_log w = [(t0, p0); ((t0 + d1)%Z, p2);
                             ((t0 + d1 + 64)%Z, p2)]
         /\ timers w = [])
  /\ (exists w,
         run parseFloat Number_toString w0
           [EvScroll t0 p0; EvScroll (t0 + 5) p1; EvTimer; EvTimer;
            EvScroll (t0 + d2) p2; EvTimer]
         = Some w
         /\ animate_log w = [(t0, p0); ((t0 + 64)%Z, p1)]
         /\ timers w = [])
  /\ (exists w,
         run parseFloat Number_toString w0
           [EvScroll t0 p0; EvScroll (t0 + 5) p1; EvTimer; EvTimer; EvTimer;
            EvScroll (t0 + d3) p2; EvTimer; EvTimer; EvTimer]
         = Some w
         /\ animate_log w = [(t0, p0); ((t0 + 64)%Z, p1);
                             ((t0 + d3)%Z, p2); ((t0 + d3 + 64)%Z, p2)]
         /\ timers w = []).
Proof.
  intros He Hd1 Hd2 Hd3 w0. unfold w0. split; [| repeat split].
  - eexists _, _. split.
    + simulate. reflexivity.
    + split; [reflexivity |]. split; [simulate; reflexivity | reflexivity].
  - eexists. split; [simulate; reflexivity |]. split; reflexivity.
  - eexists. split; [simulate; reflexivity |]. split; reflexivity.
  - eexists. split; [simulate; reflexivity |]. split; reflexivity.
  - eexists. split; [simulate; reflexivity |]. split; reflexivity.
Qed.

End Throttle.

Lemma throttle_scenarios_witness :
  exists w,
    run SampleRun.parseFloat SampleRun.toString
      (idle_world (constructor_settings None None) [] 0)
      [EvScroll 0 100; EvScroll 5 120; EvTimer; EvScroll 20 130; EvTimer;
       EvTimer; EvTimer]
    = Some w
    /\ animate_log w
       = [(0%Z, 100%float); (20%Z, 130%float); (84%Z, 130%float)]
    /\ timers w = [].
Proof.
  destruct (throttle_scenarios SampleRun.parseFloat SampleRun.toString
              (constructor_settings None None) [] 0 5 20 70 100 100 120 130)
    as (_ & _ & H & _); [lia | lia | lia | lia |].
  exact H.
Defined.

(** ** The throttle: what every run preserves *)

Lemma run_outcome (r : option world) :
  happens r = true -> r = Some (outcome r).
Proof. destruct r; [reflexivity | discriminate]. Qed.

(** The window of a run that is written out: the one it ends in. *)
Ltac run_witness :=
  match goal with
  | |- exists w, ?r = Some w /\ _ =>
      exists (outcome r);
      split; [apply run_outcome; vm_compute; reflexivity |]
  end.

Module Heap.

Lemma nth_error_update {A} (f : A -> A) (l : list A) (n m : nat) :
  nth_error (Window.update l n f) m
  = if Nat.eqb n m then option_map f (nth_error l m) else nth_error l m.
Proof.
  revert n m. induction l as [| x l IH]; intros n m.
  - destruct n, m; cbn; try reflexivity; now destruct (Nat.eqb n m).
  - destruct n, m; cbn; try reflexivity. apply IH.
Qed.

Lemma update_update {A} (f g : A -> A) (l : list A) (n : nat) :
  Window.update (Window.update l n f) n g
  = Window.update l n (fun x => g (f x)).
Proof.
  revert n. induction l as [| x l IH]; intros [| n]; cbn;
    try reflexivity. now rewrite IH.
Qed.

End Heap.

Module Timers.

Lemma earliest_In (ts : list timer) (tm : timer) :
  Window.earliest ts = Some tm -> In tm ts.
Proof.
  revert tm. induction ts as [| t ts IH]; intros tm H; [discriminate |].
  cbn [Window.earliest] in H.
  destruct (Window.earliest ts) as [t' |].
  - destruct (due t' <? due t)%Z; inversion H; subst.
    + right. apply IH. reflexivity.
    + left. reflexivity.
  - inversion H. left. reflexivity.
Qed.

Lemma earliest_min (ts : list timer) (tm : timer) :
  Window.earliest ts = Some tm ->
  forall tm', In tm' ts -> (due tm <= due tm')%Z.
Proof.
  revert tm. induction ts as [| t ts IH]; intros tm H tm' Hin;
    [contradiction |].
  cbn [Window.earliest] in H.
  destruct (Window.earliest ts) as [t' |] eqn:E.
  - specialize (IH t' eq_refl).
    destruct (Z.ltb_spec (due t') (due t)); inversion H; subst.
    + destruct Hin as [<- | Hin]; [lia | now apply IH].
    + destruct Hin as [<- | Hin]; [lia |].
      specialize (IH tm' Hin). lia.
  - inversion H; subst. destruct Hin as [<- | Hin]; [lia |].
    destruct ts; [contradiction |]. cbn in E.
    destruct (Window.earliest ts); [destruct (_ <? _)%Z |]; discriminate.
Qed.

(** What [clearTimeout] leaves. *)
Lemma In_cleared (ts : list timer) (id : nat) (tm : timer) :
  In tm (filter (fun t => negb (Nat.eqb (timer_id t) id)) ts)
  <-> In tm ts /\ timer_id tm <> id.
Proof.
  rewrite filter_In.
  destruct (Nat.eqb_spec (timer_id tm) id); cbn; intuition congruence.
Qed.

Lemma NoDup_cleared (ts : list timer) (id : nat) :
  NoDup (map timer_id ts) ->
  NoDup (map timer_id
           (filter (fun t => negb (Nat.eqb (timer_id t) id)) ts)).
Proof.
  induction ts as [| t ts IH]; intros H; [constructor |].
  cbn [map] in H. inversion H as [| ? ? Hnotin Hnd]; subst.
  cbn [filter]. destruct (negb (Nat.eqb (timer_id t) id)); [| now apply IH].
  cbn [map]. constructor; [| now apply IH].
  intros Hin. apply Hnotin. apply in_map_iff in Hin.
  destruct Hin as (t' & Hid & Hin). apply filter_In in Hin.
  apply in_map_iff. exists t'. tauto.
Qed.

End Timers.

Section OnScroll.

Variables (w : world) (self : addr).

Lemma onScroll_missing (b : bool) :
  nth_error (heap w) self = None ->
  WMonad.exec (Window.onScroll self b) w = w.
Proof.
  intros Hn.
  cbv beta iota delta [WMonad.exec Window.onScroll WMonad.bind WMonad.gets
                         Window.deref].
  rewrite Hn. reflexivity.
Qed.

(** While the flag is down the event is dropped: nothing changes. *)
Lemma onScroll_dropped (b : bool) (this : ScrollBinder) :
  nth_error (heap w) self = Some this -> scrollFlag this = false ->
  WMonad.exec (Window.onScroll self b) w = w.
Proof.
  intros Hn Hf.
  cbv beta iota delta [WMonad.exec Window.onScroll WMonad.bind WMonad.gets
                         Window.deref].
  rewrite Hn, Hf. reflexivity.
Qed.

Lemma onScroll_accepted (b : bool) (this : ScrollBinder) :
  nth_error (heap w) self = Some this -> scrollFlag this = true ->
  WMonad.exec (Window.onScroll self b) w = accepted self b this w.
Proof.
  intros Hn Hf.
  cbv beta iota delta [WMonad.exec Window.onScroll WMonad.bind WMonad.gets
                         Window.deref].
  rewrite Hn, Hf. cbn [Bool.eqb].
  cbv beta iota delta [Window.clearTimeout Window.set_scrollFlag
                         Window.animate Window.setTimeout
                         Window.set_scrollEnd WMonad.modify WMonad.ret
                         WMonad.bind].
  unfold accepted.
  destruct w as [now0 top hp mi ls ts nid fr al dl]. cbn in *.
  destruct (scrollEnd this), b; cbn;
    rewrite ?Heap.update_update, <- ?app_assoc; reflexivity.
Qed.

End OnScroll.

(** The invariant survives an accepted scroll event or trailing call. *)
Lemma accepted_inv (w : world) (self : addr) (b : bool) (this : ScrollBinder) :
  throttle_inv w -> nth_error (heap w) self = Some this ->
  throttle_inv (accepted self b this w).
Proof.
  intros [Htr Hh Hids Hhs Hu] Hn.
  remember (next_timer_id w) as n eqn:En.
  remember {| timer_id := n; due := now w + 16; action := SetScrollFlag self |}
    as A eqn:EA.
  remember {| timer_id := S n; due := now w + 64; action := ScrollEnd self |}
    as B eqn:EB.
  remember (match scrollEnd this with
            | Some id =>
                filter (fun t => negb (Nat.eqb (timer_id t) id)) (timers w)
            | None => timers w
            end) as pending eqn:Ep.
  assert (Hpend : forall tm,
             In tm pending
             <-> In tm (timers w) /\ scrollEnd this <> Some (timer_id tm)).
  { intros tm. subst pending. destruct (scrollEnd this) as [id |].
    - rewrite Timers.In_cleared. split; intros [H1 H2]; split; congruence.
    - split; [intros H; split; [exact H | discriminate] | tauto]. }
  assert (Hin : forall tm,
             In tm (timers (accepted self b this w))
             <-> In tm pending \/ tm = A \/ (b = false /\ tm = B)).
  { intros tm. unfold accepted. cbn [timers].
    rewrite <- En, <- EA, <- EB, <- Ep, !in_app_iff.
    destruct b; cbn [In]; intuition (try congruence; try discriminate). }
  assert (Hheap : forall s,
             nth_error (heap (accepted self b this w)) s
             = if Nat.eqb self s
               then Some {| settings := settings this;
                            animations := animations this;
                            scrollFlag := false;
                            scrollEnd := if b then scrollEnd this
                                         else Some (S n) |}
               else nth_error (heap w) s).
  { intros s0. unfold accepted. cbn [heap]. rewrite Heap.nth_error_update.
    destruct (Nat.eqb_spec self s0) as [<- | Hneq]; [| reflexivity].
    rewrite Hn, <- En. reflexivity. }
  assert (Hnext : next_timer_id (accepted self b this w)
                  = if b then S n else S (S n)).
  { unfold accepted. cbn [next_timer_id]. now rewrite <- En. }
  constructor.
  - intros tm s0 Htm Hact. apply Hin in Htm.
    destruct Htm as [Htm | [-> | [-> ->]]].
    + apply Hpend in Htm. destruct Htm as [Htm Hne].
      destruct (Htr tm s0 Htm Hact) as (this0 & Hn0 & He0 & Hfl).
      destruct (Nat.eqb_spec self s0) as [<- | Hneq].
      * rewrite Hn in Hn0. inversion Hn0; subst this0. contradiction.
      * exists this0. rewrite Hheap.
        rewrite (proj2 (Nat.eqb_neq _ _) Hneq).
        split; [exact Hn0 |]. split; [exact He0 |].
        destruct Hfl as [Hfl | (tm' & Hin' & Hact' & Hdue)];
          [left; exact Hfl |].
        right. exists tm'. split; [| split; assumption].
        apply Hin. left. apply Hpend. split; [exact Hin' |].
        intros Heq. destruct (Hh tm' self this Hin' Hn Heq) as [s' Hs'].
        congruence.
    + subst A. discriminate Hact.
    + subst B. cbn [action] in Hact. inversion Hact; subst s0.
      eexists. rewrite Hheap, Nat.eqb_refl.
      split; [reflexivity |]. split; [reflexivity |].
      right. exists A. split; [apply Hin; right; left; reflexivity |].
      subst A. cbn [action due]. split; [reflexivity | lia].
  - intros tm s0 this0 Htm Hn0 He0. rewrite Hheap in Hn0. apply Hin in Htm.
    destruct Htm as [Htm | [-> | [-> ->]]].
    + apply Hpend in Htm. destruct Htm as [Htm Hne].
      pose proof (Hids tm Htm) as Hlt.
      destruct (Nat.eqb_spec self s0) as [<- | Hneq].
      * inversion Hn0; subst this0. cbn [scrollEnd] in He0. destruct b.
        -- apply (Hh tm self this Htm Hn He0).
        -- inversion He0. lia.
      * apply (Hh tm s0 this0 Htm Hn0 He0).
    + exfalso. subst A. cbn [timer_id] in He0.
      destruct (Nat.eqb_spec self s0) as [<- | Hneq].
      * inversion Hn0; subst this0. cbn [scrollEnd] in He0. destruct b.
        -- pose proof (Hhs self this n Hn He0). lia.
        -- inversion He0. lia.
      * pose proof (Hhs s0 this0 n Hn0 He0). lia.
    + exists self. subst B. reflexivity.
  - intros tm Htm. rewrite Hnext. apply Hin in Htm.
    destruct Htm as [Htm | [-> | [-> ->]]].
    + apply Hpend in Htm. pose proof (Hids tm (proj1 Htm)). destruct b; lia.
    + subst A. cbn [timer_id]. destruct b; lia.
    + subst B. cbn [timer_id]. lia.
  - intros s0 this0 id Hn0 He0. rewrite Hnext. rewrite Hheap in Hn0.
    destruct (Nat.eqb_spec self s0) as [<- | Hneq].
    + inversion Hn0; subst this0. cbn [scrollEnd] in He0. destruct b.
      * pose proof (Hhs self this id Hn He0). lia.
      * inversion He0. lia.
    + pose proof (Hhs s0 this0 id Hn0 He0). destruct b; lia.
  - unfold accepted. cbn [timers]. rewrite <- En, <- EA, <- EB, <- Ep.
    rewrite !map_app. apply NoDup_app.
    + subst pending. destruct (scrollEnd this);
        [apply Timers.NoDup_cleared |]; exact Hu.
    + subst A B. destruct b; cbn; repeat constructor; cbn; intuition lia.
    + intros id Hid Hid'. apply in_map_iff in Hid.
      destruct Hid as (tm & <- & Htm). apply Hpend in Htm.
      pose proof (Hids tm (proj1 Htm)).
      subst A B. destruct b; cbn in Hid'; intuition lia.
Qed.

(** The invariant only speaks of the instances and of the timers. *)
Lemma inv_ext (w w' : world) :
  heap w' = heap w -> timers w' = timers w ->
  next_timer_id w' = next_timer_id w ->
  throttle_inv w -> throttle_inv w'.
Proof.
  intros Hh Ht Hn [I1 I2 I3 I4 I5].
  constructor; rewrite ?Hh, ?Ht, ?Hn; assumption.
Qed.

Lemma exec_for_each_cons {A} (x : A) (l : list A) (body : A -> W unit)
  (w : world) :
  WMonad.exec (WMonad.for_each (x :: l) body) w
  = WMonad.exec (WMonad.for_each l body) (WMonad.exec (body x) w).
Proof.
  unfold WMonad.exec. cbn [WMonad.for_each]. unfold WMonad.bind.
  destruct (body x w) as [[] w']. reflexivity.
Qed.

Lemma for_each_preserves {A} (P : world -> Prop) (body : A -> W unit)
  (l : list A) :
  (forall x w, P w -> P (WMonad.exec (body x) w)) ->
  forall w, P w -> P (WMonad.exec (WMonad.for_each l body) w).
Proof.
  intros Hbody. induction l as [| x l IH]; intros w Hw; [exact Hw |].
  rewrite exec_for_each_cons. apply IH, Hbody, Hw.
Qed.

Lemma onScroll_inv (w : world) (self : addr) (b : bool) :
  throttle_inv w -> throttle_inv (WMonad.exec (Window.onScroll self b) w).
Proof.
  intros Hinv. destruct (nth_error (heap w) self) as [this |] eqn:Hn.
  - destruct (scrollFlag this) eqn:Hf.
    + rewrite (onScroll_accepted w self b this Hn Hf).
      apply accepted_inv; assumption.
    + rewrite (onScroll_dropped w self b this Hn Hf). exact Hinv.
  - rewrite (onScroll_missing w self b Hn). exact Hinv.
Qed.

Lemma timer_id_injective (ts : list timer) (a b : timer) :
  NoDup (map timer_id ts) -> In a ts -> In b ts ->
  timer_id a = timer_id b -> a = b.
Proof.
  induction ts as [| t ts IH]; intros Hnd Ha Hb Hid; [contradiction |].
  cbn [map] in Hnd. inversion Hnd as [| ? ? Hnotin Hnd']; subst.
  destruct Ha as [-> | Ha], Hb as [-> | Hb].
  - reflexivity.
  - exfalso. apply Hnotin. rewrite Hid. now apply in_map.
  - exfalso. apply Hnotin. rewrite <- Hid. now apply in_map.
  - now apply IH.
Qed.

Lemma fired_inv (w : world) (tm : timer) :
  throttle_inv w -> In tm (timers w) ->
  (forall self this,
      action tm = SetScrollFlag self -> nth_error (heap w) self = Some this ->
      scrollFlag this = true) ->
  throttle_inv (fired tm w).
Proof.
  intros [Htr Hh Hids Hhs Hu] Htm Hflag.
  assert (Hin : forall t, In t (timers (fired tm w))
                          <-> In t (timers w) /\ timer_id t <> timer_id tm).
  { intros t. unfold fired. cbn [timers World.with_timers].
    apply Timers.In_cleared. }
  constructor.
  - intros t s0 Ht Hact. apply Hin in Ht. destruct Ht as [Ht Hne].
    destruct (Htr t s0 Ht Hact) as (this0 & Hn0 & He0 & Hfl).
    exists this0. split; [exact Hn0 |]. split; [exact He0 |].
    destruct Hfl as [Hfl | (t' & Hin' & Hact' & Hdue)]; [left; exact Hfl |].
    destruct (Nat.eq_dec (timer_id t') (timer_id tm)) as [Heq | Hneq].
    + left.
      assert (t' = tm) by (apply (timer_id_injective (timers w)); assumption).
      subst t'. apply (Hflag s0 this0 Hact' Hn0).
    + right. exists t'. split; [apply Hin; split; assumption |].
      split; assumption.
  - intros t s0 this0 Ht Hn0 He0. apply Hin in Ht.
    apply (Hh t s0 this0 (proj1 Ht) Hn0 He0).
  - intros t Ht. apply Hin in Ht. apply (Hids t (proj1 Ht)).
  - exact Hhs.
  - unfold fired. cbn [timers World.with_timers].
    apply Timers.NoDup_cleared, Hu.
Qed.

Lemma raise_flag_inv (w : world) (self : addr) :
  throttle_inv w ->
  throttle_inv (WMonad.exec (Window.set_scrollFlag self true) w).
Proof.
  intros [Htr Hh Hids Hhs Hu].
  assert (Hheap : forall s,
    nth_error (heap (WMonad.exec (Window.set_scrollFlag self true) w)) s
    = if Nat.eqb self s
      then option_map
             (fun o => {| settings := settings o; animations := animations o;
                          scrollFlag := true; scrollEnd := scrollEnd o |})
             (nth_error (heap w) s)
      else nth_error (heap w) s).
  { intros s0. cbn. apply Heap.nth_error_update. }
  constructor.
  - intros t s0 Ht Hact. cbn in Ht.
    destruct (Htr t s0 Ht Hact) as (this0 & Hn0 & He0 & Hfl).
    rewrite Hheap, Hn0. destruct (Nat.eqb self s0).
    + eexists. split; [reflexivity |]. split; [exact He0 |]. left. reflexivity.
    + exists this0. split; [reflexivity |]. split; [exact He0 |].
      destruct Hfl as [Hfl | (t' & Hin' & Hact' & Hdue)]; [left; exact Hfl |].
      right. exists t'. cbn. tauto.
  - intros t s0 this0 Ht Hn0 He0. cbn in Ht. rewrite Hheap in Hn0.
    destruct (Nat.eqb self s0).
    + destruct (nth_error (heap w) s0) as [o |] eqn:Ho; [| discriminate].
      inversion Hn0; subst this0. cbn in He0. apply (Hh t s0 o Ht Ho He0).
    + apply (Hh t s0 this0 Ht Hn0 He0).
  - exact Hids.
  - intros s0 this0 id Hn0 He0. rewrite Hheap in Hn0. cbn.
    destruct (Nat.eqb self s0).
    + destruct (nth_error (heap w) s0) as [o |] eqn:Ho; [| discriminate].
      inversion Hn0; subst this0. cbn in He0. apply (Hhs s0 o id Ho He0).
    + apply (Hhs s0 this0 id Hn0 He0).
  - exact Hu.
Qed.

Lemma ScrollBinder_new_idle (parseFloat : string -> float)
  (el : option jq) (options : option Options)
  (doc : document) (this : ScrollBinder) (reads : list dom_event) :
  ScrollBinder_new parseFloat el options doc = (Normal this, reads) ->
  scrollFlag this = true /\ scrollEnd this = None.
Proof.
  unfold ScrollBinder_new, EffMonad.bind, EffMonad.ret.
  destruct (initAnimations _ _ _ doc) as [[tree | message] log]; intros H;
    inversion H; subst. split; reflexivity.
Qed.

Lemma exports_init_inv (parseFloat : string -> float) (doc : document)
  (el : option jq) (options : option Options) (w : world) :
  throttle_inv w ->
  throttle_inv
    (WMonad.exec (Window.exports_init parseFloat doc el options) w).
Proof.
  intros Hinv.
  unfold WMonad.exec, Window.exports_init, WMonad.bind, WMonad.gets,
    WMonad.modify, WMonad.ret.
  destruct (module_instance w); [exact Hinv |]. cbn [snd].
  destruct (ScrollBinder_new parseFloat el options doc)
    as [[this | message] reads] eqn:E;
    [| revert Hinv; apply inv_ext; reflexivity].
  apply ScrollBinder_new_idle in E. destruct E as [Hflag Hend].
  destruct Hinv as [Htr Hh Hids Hhs Hu].
  constructor; cbn.
  - intros t s0 Ht Hact.
    destruct (Htr t s0 Ht Hact) as (this0 & Hn0 & Hrest).
    exists this0. split; [| exact Hrest].
    rewrite nth_error_app1; [exact Hn0 |].
    apply nth_error_Some. congruence.
  - intros t s0 this0 Ht Hn0 He0.
    destruct (Nat.lt_ge_cases s0 (List.length (heap w))) as [Hlt | Hge].
    + rewrite nth_error_app1 in Hn0 by exact Hlt.
      apply (Hh t s0 this0 Ht Hn0 He0).
    + rewrite nth_error_app2 in Hn0 by exact Hge.
      destruct (s0 - List.length (heap w))%nat as [| k]; cbn in Hn0.
      * inversion Hn0; subst this0. congruence.
      * destruct k; discriminate.
  - exact Hids.
  - intros s0 this0 id Hn0 He0.
    destruct (Nat.lt_ge_cases s0 (List.length (heap w))) as [Hlt | Hge].
    + rewrite nth_error_app1 in Hn0 by exact Hlt.
      apply (Hhs s0 this0 id Hn0 He0).
    + rewrite nth_error_app2 in Hn0 by exact Hge.
      destruct (s0 - List.length (heap w))%nat as [| k]; cbn in Hn0.
      * inversion Hn0; subst this0. congruence.
      * destruct k; discriminate.
  - exact Hu.
Qed.

(** [exports.destroy] touches neither the timers nor the instances. *)
Lemma exports_destroy_keeps_timers (w : world) :
  let w' := WMonad.exec Window.exports_destroy w in
  timers w' = timers w /\ heap w' = heap w
  /\ next_timer_id w' = next_timer_id w /\ frames w' = frames w.
Proof.
  unfold WMonad.exec, Window.exports_destroy, WMonad.bind, WMonad.gets.
  destruct (module_instance w); cbn; repeat split; reflexivity.
Qed.

Section Invariant.

Variable parseFloat : string -> float.
Variable Number_toString : float -> string.

Lemma run_frame_core (frame : addr * float) (w : world) :
  let w' := WMonad.exec (run_frame Number_toString frame) w in
  heap w' = heap w /\ timers w' = timers w
  /\ next_timer_id w' = next_timer_id w.
Proof.
  destruct frame as [self scrollPos].
  unfold WMonad.exec, run_frame, WMonad.bind, Window.deref, WMonad.gets.
  destruct (nth_error (heap w) self); cbn; repeat split; reflexivity.
Qed.

Lemma step_inv (w w' : world) (e : event) :
  throttle_inv w -> step parseFloat Number_toString w e = Some w' ->
  throttle_inv w'.
Proof.
  intros Hinv Hstep. destruct e as [doc el options | | t top | |];
    cbn [step] in Hstep.
  - inversion Hstep; subst. now apply exports_init_inv.
  - inversion Hstep; subst.
    destruct (exports_destroy_keeps_timers w) as (Ht & Hh & Hn & _).
    revert Hinv. now apply inv_ext.
  - destruct (_ && _)%bool; [| discriminate]. inversion Hstep; subst.
    apply for_each_preserves; [intros x w0; apply onScroll_inv |].
    revert Hinv. apply inv_ext; reflexivity.
  - destruct (Window.earliest (timers w)) as [tm |] eqn:E; [| discriminate].
    inversion Hstep; subst. fold (fired tm w).
    pose proof (Timers.earliest_In _ _ E) as Htm.
    destruct (action tm) as [self | self] eqn:Hact;
      cbn [Window.run_callback].
    + assert (Hcomm :
        WMonad.exec (Window.set_scrollFlag self true) (fired tm w)
        = fired tm (WMonad.exec (Window.set_scrollFlag self true) w))
        by reflexivity.
      rewrite Hcomm. apply fired_inv.
      * now apply raise_flag_inv.
      * exact Htm.
      * intros self' this Hact' Hn. rewrite Hact in Hact'.
        inversion Hact'; subst self'. cbn in Hn.
        rewrite Heap.nth_error_update, Nat.eqb_refl in Hn.
        destruct (nth_error (heap w) self); [| discriminate].
        inversion Hn. reflexivity.
    + apply onScroll_inv. apply fired_inv; [exact Hinv | exact Htm |].
      intros self' this Hact'. congruence.
  - inversion Hstep; subst.
    apply for_each_preserves.
    + intros x w0. apply inv_ext; apply run_frame_core.
    + revert Hinv. apply inv_ext; reflexivity.
Qed.

Lemma empty_world_inv : throttle_inv empty_world.
Proof.
  constructor; cbn; try contradiction; try constructor.
  intros [| n] this id H; discriminate H.
Qed.

Lemma run_inv (es : list event) :
  forall w w',
    throttle_inv w -> run parseFloat Number_toString w es = Some w' ->
               throttle_inv w'.
Proof.
  induction es as [| e es IH]; intros w w' Hinv Hrun; cbn [run] in Hrun.
  - inversion Hrun; subst. exact Hinv.
  - destruct (step parseFloat Number_toString w e) as [w1 |] eqn:E;
      [| discriminate].
    apply (IH w1 w'); [| exact Hrun]. apply (step_inv w w1 e Hinv E).
Qed.

(** C9. In every sequence of events from the initial state, whenever the
    trailing timer fires (it is pending, so it was not cleared, and it is
    the next to fire), [scrollFlag] is true: the call of [onScroll] it
    makes is not dropped and calls [animate]. *)
Theorem trailing_call_is_never_throttled
  (es : list event) (w : world) (tm : timer) (self : addr) :
  run parseFloat Number_toString empty_world es = Some w ->
  Window.earliest (timers w) = Some tm ->
  action tm = ScrollEnd self ->
  (exists this,
      nth_error (heap w) self = Some this /\ scrollFlag this = true)
  /\ exists w',
      step parseFloat Number_toString w EvTimer = Some w'
      /\ animate_log w' = animate_log w ++ [(due tm, window_scrollTop w)].
Proof.
  intros Hrun Hnext Hact.
  pose proof (run_inv es _ _ empty_world_inv Hrun) as Hinv.
  pose proof (Timers.earliest_In _ _ Hnext) as Htm.
  destruct (inv_trailing w Hinv tm self Htm Hact)
    as (this & Hn & He & Hfl).
  assert (Hflag : scrollFlag this = true).
  { destruct Hfl as [Hfl | (tm' & Hin' & _ & Hdue)]; [exact Hfl |].
    pose proof (Timers.earliest_min _ _ Hnext tm' Hin'). lia. }
  split; [exists this; split; assumption |].
  cbn [step]. rewrite Hnext, Hact. cbn [Window.run_callback].
  eexists. split; [reflexivity |]. fold (fired tm w).
  rewrite (onScroll_accepted (fired tm w) self true this Hn Hflag).
  reflexivity.
Qed.

End Invariant.

Lemma trailing_call_is_never_throttled_witness :
  exists w tm,
    run SampleRun.parseFloat SampleRun.toString empty_world
      [EvInit Sample.no_style None (Some (Sample.padding_options None));
       EvScroll 0 35; EvTimer]
    = Some w
    /\ Window.earliest (timers w) = Some tm
    /\ action tm = ScrollEnd 0%nat
    /\ due tm = 64%Z
    /\ exists this,
        nth_error (heap w) 0 = Some this /\ scrollFlag this = true.
Proof.
  pose (es := [EvInit Sample.no_style None
                 (Some (Sample.padding_options None));
               EvScroll 0 35; EvTimer]).
  pose (w := outcome (run SampleRun.parseFloat SampleRun.toString
                        empty_world es)).
  assert (Hrun : run SampleRun.parseFloat SampleRun.toString empty_world es
                 = Some w)
    by (apply run_outcome; vm_compute; reflexivity).
  pose (tm := {| timer_id := 1; due := 64; action := ScrollEnd 0%nat |}).
  assert (Hnext : Window.earliest (timers w) = Some tm)
    by (vm_compute; reflexivity).
  exists w, tm.
  split; [exact Hrun |]. split; [exact Hnext |].
  split; [reflexivity |]. split; [reflexivity |].
  exact (proj1 (trailing_call_is_never_throttled SampleRun.parseFloat
                  SampleRun.toString es w tm 0%nat Hrun Hnext eq_refl)).
Defined.

(** ** Destruction *)

(** C4 fails on the program: [exports.destroy] clears no timer.  After a
    scroll event and the destruction of the singleton the trailing timer is
    still pending; when it fires it calls [animate], whose frame writes a
    style, although nothing is thrown. *)
Lemma trailing_timer_survives_destroy :
  exists w_destroyed w_end,
    run SampleRun.parseFloat SampleRun.toString empty_world
      [EvInit Sample.no_style None (Some (Sample.padding_options None));
       EvScroll 0 35; EvFrame; EvDestroy]
    = Some w_destroyed
    /\ module_instance w_destroyed = None
    /\ listeners w_destroyed = []
    /\ timers w_destroyed
       = [{| timer_id := 0; due := 16; action := SetScrollFlag 0%nat |};
          {| timer_id := 1; due := 64; action := ScrollEnd 0%nat |}]
    /\ run SampleRun.parseFloat SampleRun.toString w_destroyed
         [EvTimer; EvTimer; EvFrame]
       = Some w_end
    /\ animate_log w_end = animate_log w_destroyed ++ [(64%Z, 35%float)]
    /\ dom_log w_end
       = dom_log w_destroyed ++ [CssSet Body "padding-top" "10px"].
Proof.
  pose (w1 := outcome (run SampleRun.parseFloat SampleRun.toString
                         empty_world
                         [EvInit Sample.no_style None
                            (Some (Sample.padding_options None));
                          EvScroll 0 35; EvFrame; EvDestroy])).
  pose (w2 := outcome (run SampleRun.parseFloat SampleRun.toString w1
                         [EvTimer; EvTimer; EvFrame])).
  exists w1, w2.
  split; [apply run_outcome; vm_compute; reflexivity |].
  split; [vm_compute; reflexivity |].
  split; [vm_compute; reflexivity |].
  split; [vm_compute; reflexivity |].
  split; [apply run_outcome; vm_compute; reflexivity |].
  split; vm_compute; reflexivity.
Qed.

(** * Further results *)

(** ** The construction as a whole *)

(** X4. [exports.init] with no instance yet is all or nothing.  The
    constructor throws when the animations or the properties of some
    selector have a key named [hasOwnProperty] (it hides the method that
    the loops call), when [find] throws on some selector, or when some
    property has no tween ([null] or [undefined]): the singleton then
    stays unset, no scroll handler is bound, no instance is kept and no
    timer is set.  Otherwise the new instance becomes the singleton, its
    handler is bound, and it starts listening, with no timer. *)
Theorem exports_init_all_or_nothing
  (parseFloat : string -> float)
  (doc : document) (el : option jq) (options : option Options)
  (w : world) :
  module_instance w = None ->
  let root := s_element (constructor_settings el options) in
  let w' := WMonad.exec (Window.exports_init parseFloat doc el options) w in
  (construction_fails doc root (given_animations options) = true ->
   module_instance w' = None /\ listeners w' = listeners w
   /\ heap w' = heap w /\ timers w' = timers w)
  /\ (construction_fails doc root (given_animations options) = false ->
      module_instance w' = Some (List.length (heap w))
      /\ listeners w' = listeners w ++ [List.length (heap w)]
      /\ timers w' = timers w
      /\ exists this,
          heap w' = heap w ++ [this]
          /\ settings this = constructor_settings el options
          /\ scrollFlag this = true /\ scrollEnd this = None).
Proof.
  intros Hnone root w'. subst w' root.
  unfold WMonad.exec, Window.exports_init, WMonad.bind, WMonad.gets,
    WMonad.modify.
  rewrite Hnone. cbn [snd]. rewrite ScrollBinder_new_unfold.
  split; intros H.
  - destruct (initAnimations_throws parseFloat
                (constructor_settings el options) doc
                (given_animations options) H) as (m & l & Hrun).
    rewrite Hrun. cbn. repeat split; try reflexivity. exact Hnone.
  - destruct (initAnimations_returns parseFloat
                (constructor_settings el options) doc
                (given_animations options) H) as (tree & l & Hrun).
    rewrite Hrun. cbn.
    split; [reflexivity |]. split; [reflexivity |]. split; [reflexivity |].
    eexists. split; [reflexivity |]. cbn. repeat split; reflexivity.
Qed.

Lemma exports_init_all_or_nothing_witness :
  module_instance
    (WMonad.exec
       (Window.exports_init SampleRun.parseFloat Sample.no_style None
          (Some {| opt_over := None;
                   opt_animations :=
                     Some [("this"%string,
                            [("padding-top"%string, Some Sample.full_tween);
                             ("scale"%string, None)])] |}))
       empty_world)
  = None
  /\ module_instance
       (WMonad.exec
          (Window.exports_init SampleRun.parseFloat Sample.no_style None
             (Some (Sample.padding_options None)))
          empty_world)
     = Some 0%nat.
Proof.
  split.
  - refine (proj1 (proj1 (exports_init_all_or_nothing SampleRun.parseFloat
                            Sample.no_style None _ empty_world _) _));
      reflexivity.
  - refine (proj1 (proj2 (exports_init_all_or_nothing SampleRun.parseFloat
                            Sample.no_style None _ empty_world _) _));
      reflexivity.
Defined.

(** The three ways in which the construction throws. *)
Example construction_failures :
  construction_fails Sample.no_style Body
    [("this"%string, [("scale"%string, None)])] = true
  /\ construction_fails Sample.no_style Body
       [("this"%string,
         [("hasOwnProperty"%string, Some Sample.full_tween)])] = true
  /\ construction_fails Sample.no_style Body
       [("hasOwnProperty"%string, [])] = true
  /\ construction_fails Sample.no_selector Body
       [(".logo"%string, [])] = true
  /\ construction_fails Sample.no_selector Body
       [("this"%string, [("scale"%string, Some Sample.bare_tween)])]
     = false.
Proof. repeat split. Qed.



(** ** The module and its singleton *)

Lemma map_update {A B : Type} (g : A -> B) (f : A -> A) (l : list A)
  (n : nat) :
  (forall x, g (f x) = g x) ->
  map g (Window.update l n f) = map g l.
Proof.
  intros H. revert n. induction l as [| x l IH]; intros [| n]; cbn;
    try reflexivity.
  - now rewrite H.
  - now rewrite IH.
Qed.

Lemma same_bindings_refl (w : world) : same_bindings w w.
Proof. repeat split. Qed.

Lemma same_bindings_trans (w1 w2 w3 : world) :
  same_bindings w1 w2 -> same_bindings w2 w3 -> same_bindings w1 w3.
Proof.
  intros (A1 & A2 & A3 & A4) (B1 & B2 & B3 & B4).
  repeat split; congruence.
Qed.

Lemma onScroll_same_bindings (w : world) (self : addr) (b : bool) :
  same_bindings w (WMonad.exec (Window.onScroll self b) w).
Proof.
  destruct (nth_error (heap w) self) as [this |] eqn:Hn.
  - destruct (scrollFlag this) eqn:Hf.
    + rewrite (onScroll_accepted w self b this Hn Hf).
      unfold same_bindings, accepted. cbn.
      repeat split. now apply map_update.
    + rewrite (onScroll_dropped w self b this Hn Hf).
      apply same_bindings_refl.
  - rewrite (onScroll_missing w self b Hn). apply same_bindings_refl.
Qed.

Lemma for_each_onScroll_same_bindings (l : list addr) (w : world) :
  same_bindings w
    (WMonad.exec
       (WMonad.for_each l (fun self => Window.onScroll self false)) w).
Proof.
  apply (for_each_preserves (same_bindings w)).
  - intros x w0 H. eapply same_bindings_trans; [exact H |].
    apply onScroll_same_bindings.
  - apply same_bindings_refl.
Qed.

Section Module.

Variable parseFloat : string -> float.
Variable Number_toString : float -> string.

Lemma run_frame_keeps (frame : addr * float) (w : world) :
  let w' := WMonad.exec (run_frame Number_toString frame) w in
  listeners w' = listeners w /\ module_instance w' = module_instance w
  /\ heap w' = heap w /\ timers w' = timers w
  /\ animate_log w' = animate_log w /\ frames w' = frames w.
Proof.
  destruct frame as [self scrollPos].
  unfold WMonad.exec, run_frame, WMonad.bind, Window.deref, WMonad.gets.
  destruct (nth_error (heap w) self); cbn; repeat split; reflexivity.
Qed.

Lemma frames_keep (fs : list (addr * float)) (w : world) :
  let w' := WMonad.exec (WMonad.for_each fs (run_frame Number_toString)) w in
  listeners w' = listeners w /\ module_instance w' = module_instance w
  /\ heap w' = heap w /\ timers w' = timers w
  /\ animate_log w' = animate_log w /\ frames w' = frames w.
Proof.
  apply (for_each_preserves
           (fun w' =>
              listeners w' = listeners w
              /\ module_instance w' = module_instance w
              /\ heap w' = heap w /\ timers w' = timers w
              /\ animate_log w' = animate_log w /\ frames w' = frames w)).
  - intros x w0 (H1 & H2 & H3 & H4 & H5 & H6).
    destruct (run_frame_keeps x w0) as (K1 & K2 & K3 & K4 & K5 & K6).
    repeat split; congruence.
  - repeat split.
Qed.

(** Scroll events and timers leave the bindings alone. *)
Lemma step_same_bindings (w w' : world) (e : event) :
  match e with EvScroll _ _ | EvTimer => True | _ => False end ->
  step parseFloat Number_toString w e = Some w' -> same_bindings w w'.
Proof.
  intros He Hstep. destruct e as [doc el options | | t top | |];
    try contradiction; cbn [step] in Hstep.
  - destruct (_ && _)%bool; [| discriminate]. inversion Hstep; subst.
    eapply same_bindings_trans;
      [| apply for_each_onScroll_same_bindings].
    repeat split.
  - destruct (Window.earliest (timers w)) as [tm |]; [| discriminate].
    inversion Hstep; subst. fold (fired tm w).
    assert (H0 : same_bindings w (fired tm w)) by (repeat split).
    eapply same_bindings_trans; [exact H0 |].
    destruct (action tm) as [self | self]; cbn [Window.run_callback].
    + unfold same_bindings. cbn. repeat split. now apply map_update.
    + apply onScroll_same_bindings.
Qed.

Lemma step_singleton (w w' : world) (e : event) :
  singleton_ok w -> step parseFloat Number_toString w e = Some w' ->
  singleton_ok w'.
Proof.
  unfold singleton_ok. intros [Hl Hm] Hstep.
  destruct e as [doc el options | | t top | |].
  - cbn [step] in Hstep. inversion Hstep; subst. clear Hstep.
    unfold WMonad.exec, Window.exports_init, WMonad.bind, WMonad.gets,
      WMonad.modify.
    destruct (module_instance w) as [self |] eqn:E; cbn.
    + rewrite E. split; assumption.
    + destruct (ScrollBinder_new parseFloat el options doc)
        as [[this | m] reads];
        cbn.
      * rewrite Hl. split; [reflexivity |].
        intros self H. inversion H; subst.
        rewrite length_app. cbn. lia.
      * rewrite E. split; assumption.
  - cbn [step] in Hstep. inversion Hstep; subst. clear Hstep.
    unfold WMonad.exec, Window.exports_destroy, WMonad.bind, WMonad.gets.
    destruct (module_instance w) as [self |] eqn:E; cbn.
    + split; [reflexivity | discriminate].
    + rewrite E. split; assumption.
  - destruct (step_same_bindings w w' (EvScroll t top) I Hstep)
      as (B1 & B2 & B3 & _).
    rewrite B1, B2. split; [exact Hl |].
    intros self H. rewrite <- (length_map animations), B3, length_map.
    now apply Hm.
  - destruct (step_same_bindings w w' EvTimer I Hstep) as (B1 & B2 & B3 & _).
    rewrite B1, B2. split; [exact Hl |].
    intros self H. rewrite <- (length_map animations), B3, length_map.
    now apply Hm.
  - cbn [step] in Hstep. inversion Hstep; subst. clear Hstep.
    destruct (frames_keep (frames w)
                (World.with_frames [] (animate_log w) w))
      as (K1 & K2 & K3 & _).
    rewrite K1, K2, K3. cbn. split; assumption.
Qed.

(** X6. In every sequence of events from the start, at most one scroll
    handler is bound: that of the singleton while there is one, which is
    the last instance constructed, and none otherwise. *)
Theorem singleton_discipline (es : list event) (w : world) :
  run parseFloat Number_toString empty_world es = Some w ->
  singleton_ok w /\ (List.length (listeners w) <= 1)%nat.
Proof.
  intros Hrun.
  assert (H : singleton_ok w).
  { revert Hrun.
    assert (H0 : singleton_ok empty_world)
      by (split; [reflexivity | discriminate]).
    revert H0. generalize empty_world. induction es as [| e es IH];
      intros w0 H0 Hrun; cbn [run] in Hrun.
    - inversion Hrun; subst. exact H0.
    - destruct (step parseFloat Number_toString w0 e) as [w1 |] eqn:E;
        [| discriminate].
      apply (IH w1); [| exact Hrun]. apply (step_singleton w0 w1 e H0 E). }
  split; [exact H |]. destruct H as [Hl _]. rewrite Hl.
  destruct (module_instance w); cbn; lia.
Qed.

(** X7. In every window that the program reaches, after [exports.destroy]
    a scroll event calls no handler: no call of [animate], no new timer, no
    frame and no change of an instance. *)
Theorem destroy_stops_scroll_handling
  (es : list event) (w w' : world) (t : Z) (top : float) :
  run parseFloat Number_toString empty_world es = Some w ->
  step parseFloat Number_toString (WMonad.exec Window.exports_destroy w)
    (EvScroll t top)
  = Some w' ->
  animate_log w' = animate_log w /\ timers w' = timers w
  /\ frames w' = frames w /\ heap w' = heap w /\ dom_log w' = dom_log w
  /\ module_instance w' = None.
Proof.
  intros Hrun Hstep.
  destruct (singleton_discipline es w Hrun) as [[Hl _] _].
  assert (Hd : listeners (WMonad.exec Window.exports_destroy w) = []
               /\ module_instance (WMonad.exec Window.exports_destroy w)
                  = None).
  { unfold WMonad.exec, Window.exports_destroy, WMonad.bind, WMonad.gets.
    destruct (module_instance w) eqn:E; cbn; [split; reflexivity |].
    rewrite E. split; [exact Hl | reflexivity]. }
  destruct Hd as [Hd1 Hd2].
  destruct (exports_destroy_keeps_timers w) as (Kt & Kh & Kn & Kf).
  cbn [step] in Hstep. destruct (_ && _)%bool; [| discriminate].
  inversion Hstep; subst. cbn [listeners World.with_clock].
  rewrite Hd1. cbn.
  rewrite Kt, Kh, Kf, Hd2.
  unfold WMonad.exec, Window.exports_destroy, WMonad.bind, WMonad.gets.
  destruct (module_instance w); cbn; repeat split; reflexivity.
Qed.

End Module.

Lemma destroy_stops_scroll_handling_witness :
  exists w w',
    run SampleRun.parseFloat SampleRun.toString empty_world
      [EvInit Sample.no_style None (Some (Sample.padding_options None));
       EvScroll 0 35; EvTimer; EvTimer; EvTimer]
    = Some w
    /\ step SampleRun.parseFloat SampleRun.toString
         (WMonad.exec Window.exports_destroy w) (EvScroll 100 10)
       = Some w'
    /\ animate_log w' = [(0%Z, 35%float); (64%Z, 35%float)].
Proof.
  pose (es := [EvInit Sample.no_style None
                 (Some (Sample.padding_options None));
               EvScroll 0 35; EvTimer; EvTimer; EvTimer]).
  pose (w := outcome (run SampleRun.parseFloat SampleRun.toString
                        empty_world es)).
  pose (w' := outcome (step SampleRun.parseFloat SampleRun.toString
                         (WMonad.exec Window.exports_destroy w)
                         (EvScroll 100 10))).
  assert (Hrun : run SampleRun.parseFloat SampleRun.toString empty_world es
                 = Some w)
    by (apply run_outcome; vm_compute; reflexivity).
  assert (Hstep : step SampleRun.parseFloat SampleRun.toString
                    (WMonad.exec Window.exports_destroy w) (EvScroll 100 10)
                  = Some w')
    by (apply run_outcome; vm_compute; reflexivity).
  exists w, w'. split; [exact Hrun |]. split; [exact Hstep |].
  refine (eq_trans
            (proj1 (destroy_stops_scroll_handling SampleRun.parseFloat
                      SampleRun.toString es w w' 100 10 Hrun Hstep)) _).
  vm_compute; reflexivity.
Defined.

Lemma singleton_discipline_witness :
  exists w,
    run SampleRun.parseFloat SampleRun.toString empty_world
      [EvInit Sample.no_style None (Some (Sample.padding_options None));
       EvInit Sample.ten_px (Some (Given 1)) None; EvDestroy;
       EvInit Sample.ten_px (Some (Given 1)) None]
    = Some w
    /\ singleton_ok w
    /\ listeners w = [1%nat] /\ module_instance w = Some 1%nat.
Proof.
  run_witness.
  split; [| split; vm_compute; reflexivity].
  refine (proj1 (singleton_discipline SampleRun.parseFloat SampleRun.toString
                   [EvInit Sample.no_style None
                      (Some (Sample.padding_options None));
                    EvInit Sample.ten_px (Some (Given 1)) None; EvDestroy;
                    EvInit Sample.ten_px (Some (Given 1)) None] _ _)).
  apply run_outcome; vm_compute; reflexivity.
Defined.

(** ** Frames *)

Section Frames.

Variable parseFloat : string -> float.
Variable Number_toString : float -> string.

(** The styles that the loop over the properties writes, whatever the
    object is. *)
Lemma animate_property_writes (el : jq) (scrollPos : float)
  (props : obj PropertyBinding) :
  forall stack writes,
    snd (fold_left (animate_property Number_toString el scrollPos) props
           (stack, writes))
    = writes ++ map (plain_write Number_toString el scrollPos)
                  (filter (fun entry => negb (isTransform (snd entry)))
                     props).
Proof.
  induction props as [| [property value] props IH]; intros stack writes.
  - cbn. now rewrite app_nil_r.
  - cbn [fold_left animate_property filter snd].
    destruct (isTransform value); cbn [negb].
    + apply IH.
    + rewrite IH. cbn [map]. now rewrite <- app_assoc.
Qed.

Lemma animate_selector_events (animation : SelectorTarget) (scrollPos : float)
  (ev : dom_event) :
  In ev (animate_selector Number_toString animation scrollPos) ->
  (exists entry,
      In entry (properties animation)
      /\ isTransform (snd entry) = false
      /\ ev = plain_write Number_toString (element animation) scrollPos entry)
  \/ (exists styles,
         ev = CssSetAll (element animation) styles
         /\ existsb (fun entry => isTransform (snd entry))
              (properties animation) = true).
Proof.
  unfold animate_selector.
  pose proof (animate_property_writes (element animation) scrollPos
                (properties animation) [] []) as Hw.
  match goal with
  | |- context [fold_left ?f ?l ?a] =>
      destruct (fold_left f l a) as [stack writes] eqn:E
  end.
  pose proof (eq_trans (eq_sym (f_equal snd E)) Hw) as Hw'.
  cbn [snd app] in Hw'. clear Hw. subst writes.
  assert (Hplain : forall e,
             In e (map (plain_write Number_toString (element animation)
                          scrollPos)
                     (filter (fun entry => negb (isTransform (snd entry)))
                        (properties animation))) ->
             exists entry,
               In entry (properties animation)
               /\ isTransform (snd entry) = false
               /\ e = plain_write Number_toString (element animation)
                        scrollPos entry).
  { intros e He. apply in_map_iff in He. destruct He as (entry & <- & Hin).
    apply filter_In in Hin. destruct Hin as [Hin Hp].
    exists entry. split; [exact Hin |]. split; [| reflexivity].
    now destruct (isTransform (snd entry)). }
  destruct (Obj.isEmptyObject stack) eqn:Hempty; cbn [negb].
  - intros Hin. left. now apply Hplain.
  - intros Hin. apply in_app_or in Hin. destruct Hin as [Hin | [<- | []]].
    + left. now apply Hplain.
    + right. eexists. split; [reflexivity |].
      (* the stack is not empty: some property is a transform *)
      destruct (existsb (fun entry => isTransform (snd entry))
                  (properties animation)) eqn:Hex; [reflexivity |].
      exfalso.
      assert (Hnone : forall props stack0 writes0,
                 existsb (fun entry => isTransform (snd entry)) props = false ->
                 fst (fold_left
                        (animate_property Number_toString (element animation)
                           scrollPos) props (stack0, writes0)) = stack0).
      { induction props as [| [p v] props IH]; intros stack0 writes0 Hf;
          [reflexivity |].
        cbn [existsb snd] in Hf. apply Bool.orb_false_iff in Hf.
        destruct Hf as [Hv Hrest].
        cbn [fold_left animate_property]. rewrite Hv. now apply IH. }
      specialize (Hnone (properties animation) [] [] Hex).
      pose proof (eq_trans (eq_sym (f_equal fst E)) Hnone) as Hstack.
      cbn [fst] in Hstack. subst stack. discriminate.
Qed.

(** X10. A frame never reads a style, and each of its writes is made on
    the cached element of a selector of the instance: either one property
    of that selector which is no transform, with its value at the scroll
    position followed by its unit, or the three transform styles at once,
    and then the selector has a transform property. *)
Theorem animate_frame_events
  (anims : obj SelectorTarget) (scrollPos : float) (ev : dom_event) :
  In ev (animate_frame Number_toString anims scrollPos) ->
  is_read ev = false
  /\ exists selector animation,
      In (selector, animation) anims
      /\ target ev = element animation
      /\ ((exists property value,
              In (property, value) (properties animation)
              /\ isTransform value = false
              /\ ev = CssSet (element animation) property
                        (Number_toString (fn value scrollPos)
                         ++ unit_ value)%string)
          \/ (exists transformString,
                 ev = CssSetAll (element animation)
                        [("-webkit-transform"%string, transformString);
                         ("-ms-transform"%string, transformString);
                         ("transform"%string, transformString)]
                 /\ existsb (fun entry => isTransform (snd entry))
                      (properties animation) = true)).
Proof.
  unfold animate_frame. intros Hin. apply in_flat_map in Hin.
  destruct Hin as ([selector animation] & Hsel & Hev). cbn [snd] in Hev.
  assert (Hform :
    (exists property value,
        In (property, value) (properties animation)
        /\ isTransform value = false
        /\ ev = CssSet (element animation) property
                  (Number_toString (fn value scrollPos) ++ unit_ value)%string)
    \/ (exists transformString,
           ev = CssSetAll (element animation)
                  [("-webkit-transform"%string, transformString);
                   ("-ms-transform"%string, transformString);
                   ("transform"%string, transformString)]
           /\ existsb (fun entry => isTransform (snd entry))
                (properties animation) = true)).
  { pose proof (animate_selector_events animation scrollPos ev Hev) as H.
    destruct H as [([p v] & Hin & Hp & ->) | (styles & -> & Hex)].
    - left. exists p, v. repeat split; assumption.
    - right. revert Hev. unfold animate_selector.
      pose proof (animate_property_writes (element animation) scrollPos
                    (properties animation) [] []) as Hw.
      match goal with
      | |- context [fold_left ?f ?l ?a] =>
          destruct (fold_left f l a) as [stack writes] eqn:E
      end.
      pose proof (eq_trans (eq_sym (f_equal snd E)) Hw) as Hw'.
      cbn [snd app] in Hw'. clear Hw. rename Hw' into Hw.
      destruct (negb (Obj.isEmptyObject stack)).
      + intros Hin. apply in_app_or in Hin. destruct Hin as [Hin | [H | []]].
        * exfalso. rewrite Hw in Hin. apply in_map_iff in Hin.
          destruct Hin as (entry & Habs & _). discriminate Habs.
        * inversion H; subst styles. eexists. split; [reflexivity | exact Hex].
      + intros Hin. exfalso. rewrite Hw in Hin. apply in_map_iff in Hin.
        destruct Hin as (entry & Habs & _). discriminate Habs. }
  split.
  - destruct Hform as [(p & v & _ & _ & ->) | (ts & -> & _)]; reflexivity.
  - exists selector, animation. split; [exact Hsel |]. split; [| exact Hform].
    destruct Hform as [(p & v & _ & _ & ->) | (ts & -> & _)]; reflexivity.
Qed.

(** A frame of an instance without animations writes nothing. *)
Lemma run_frame_without_animations (frame : addr * float) (w : world) :
  Forall (fun a => a = []) (map animations (heap w)) ->
  dom_log (WMonad.exec (run_frame Number_toString frame) w) = dom_log w.
Proof.
  intros Hall. destruct frame as [self scrollPos].
  unfold WMonad.exec, run_frame, WMonad.bind, Window.deref, WMonad.gets.
  destruct (nth_error (heap w) self) as [this |] eqn:E; cbn; [| reflexivity].
  apply nth_error_In in E. apply (in_map animations) in E.
  rewrite Forall_forall in Hall. rewrite (Hall _ E). cbn.
  apply app_nil_r.
Qed.

Lemma step_without_animations (w w' : world) (e : event) :
  init_without_animations e = true ->
  step parseFloat Number_toString w e = Some w' ->
  dom_log w = [] /\ Forall (fun a => a = []) (map animations (heap w)) ->
  dom_log w' = [] /\ Forall (fun a => a = []) (map animations (heap w')).
Proof.
  intros He Hstep [Hlog Hall].
  destruct e as [doc el options | | t top | |].
  - cbn [step] in Hstep. inversion Hstep; subst. clear Hstep.
    cbn [init_without_animations] in He.
    destruct (given_animations options) eqn:Eg; [| discriminate].
    unfold WMonad.exec, Window.exports_init, WMonad.bind, WMonad.gets,
      WMonad.modify.
    destruct (module_instance w); cbn; [split; assumption |].
    rewrite ScrollBinder_new_unfold, Eg. cbn.
    rewrite Hlog, map_app. split; [reflexivity |].
    apply Forall_app. split; [exact Hall | repeat constructor].
  - cbn [step] in Hstep. inversion Hstep; subst. clear Hstep.
    unfold WMonad.exec, Window.exports_destroy, WMonad.bind, WMonad.gets.
    destruct (module_instance w); cbn; split; assumption.
  - destruct (step_same_bindings parseFloat Number_toString w w'
                (EvScroll t top) I
                Hstep) as (_ & _ & B3 & B4).
    rewrite B3, B4. split; assumption.
  - destruct (step_same_bindings parseFloat Number_toString w w' EvTimer I
                Hstep)
      as (_ & _ & B3 & B4).
    rewrite B3, B4. split; assumption.
  - cbn [step] in Hstep. inversion Hstep; subst. clear Hstep.
    apply (for_each_preserves
             (fun w0 =>
                dom_log w0 = []
                /\ Forall (fun a => a = []) (map animations (heap w0)))).
    + intros frame w0 [H1 H2].
      destruct (run_frame_keeps Number_toString frame w0)
        as (_ & _ & Kh & _).
      rewrite Kh, (run_frame_without_animations frame w0 H2).
      split; assumption.
    + cbn. split; assumption.
Qed.

(** X11. An instance made without animations never touches a style: in
    every sequence of events in which each [exports.init] gives no
    animation (no options, no [animations], or an empty object), no style is
    read or written, while scroll events are handled as usual. *)
Theorem binding_without_animations_is_inert (es : list event) (w : world) :
  forallb init_without_animations es = true ->
  run parseFloat Number_toString empty_world es = Some w ->
  dom_log w = [].
Proof.
  intros Hes Hrun.
  assert (H : dom_log w = []
              /\ Forall (fun a => a = []) (map animations (heap w))).
  { revert Hes Hrun.
    assert (H0 : dom_log empty_world = []
                 /\ Forall (fun a => a = [])
                      (map animations (heap empty_world)))
      by (split; [reflexivity | constructor]).
    revert H0. generalize empty_world.
    induction es as [| e es IH]; intros w0 H0 Hes Hrun; cbn [run] in Hrun.
    - inversion Hrun; subst. exact H0.
    - cbn [forallb] in Hes. apply andb_prop in Hes. destruct Hes as [He Hes].
      destruct (step parseFloat Number_toString w0 e) as [w1 |] eqn:E;
        [| discriminate].
      apply (IH w1); [| exact Hes | exact Hrun].
      apply (step_without_animations w0 w1 e He E H0). }
  apply H.
Qed.

End Frames.

Lemma binding_without_animations_is_inert_witness :
  exists w,
    run SampleRun.parseFloat SampleRun.toString empty_world
      [EvInit Sample.ten_px None None; EvScroll 0 35; EvFrame; EvTimer;
       EvTimer; EvFrame]
    = Some w
    /\ animate_log w = [(0%Z, 35%float); (64%Z, 35%float)]
    /\ dom_log w = [].
Proof.
  run_witness.
  split; [vm_compute; reflexivity |].
  refine (binding_without_animations_is_inert SampleRun.parseFloat
            SampleRun.toString
            [EvInit Sample.ten_px None None; EvScroll 0 35; EvFrame; EvTimer;
             EvTimer; EvFrame] _ _ _);
    [| apply run_outcome]; vm_compute; reflexivity.
Defined.

Lemma animate_frame_events_witness :
  is_read (CssSet (Find Body ".logo") "padding-top" "10px") = false.
Proof.
  refine (proj1 (animate_frame_events SampleRun.toString
                   [(".logo"%string, SampleRun.rotate_scale)] 100%float
                   _ _)).
  vm_compute. left. reflexivity.
Defined.

(** ** The pace of the calls of [animate] *)

Lemma last_call_snoc (log : list (Z * float)) (t : Z) (p : float) :
  last_call (log ++ [(t, p)]) = Some t.
Proof.
  induction log as [| c log IH]; [reflexivity |].
  cbn [app last_call]. destruct log as [| c' log]; [reflexivity |].
  exact IH.
Qed.

Lemma spaced_snoc (log : list (Z * float)) (t : Z) (p : float) :
  spaced log ->
  (forall t0, last_call log = Some t0 -> (t0 + 16 <= t)%Z) ->
  spaced (log ++ [(t, p)]).
Proof.
  induction log as [| c log IH]; intros Hs Hlast.
  - cbn. tauto.
  - destruct log as [| c' log].
    + cbn. cbn in Hlast. repeat split. now apply Hlast.
    + cbn [app spaced] in *. destruct Hs as [Hc Hs].
      split; [exact Hc |]. apply IH; [exact Hs | exact Hlast].
Qed.

(** The invariant only speaks of the instance, the calls, the timers and the
    clock. *)
Lemma pace_ext (w w' : world) :
  heap w' = heap w -> animate_log w' = animate_log w ->
  timers w' = timers w -> now w' = now w ->
  throttle_pace w -> throttle_pace w'.
Proof.
  intros Hh Hl Ht Hn [P1 P2 P3 P4 P5].
  constructor; rewrite ?Hh, ?Hl, ?Ht, ?Hn; assumption.
Qed.

Lemma In_pending_timers (this : ScrollBinder) (ts : list timer) (tm : timer) :
  In tm (match scrollEnd this with
         | Some id => filter (fun t => negb (Nat.eqb (timer_id t) id)) ts
         | None => ts
         end) ->
  In tm ts.
Proof.
  destruct (scrollEnd this); [| tauto].
  intros H. apply filter_In in H. tauto.
Qed.

Lemma accepted_pace (w : world) (b : bool) (this : ScrollBinder) :
  throttle_pace w -> heap w = [this] -> scrollFlag this = true ->
  throttle_pace (accepted 0%nat b this w).
Proof.
  intros [P1 P2 P3 P4 P5] Hheap Hflag.
  destruct (P4 this Hheap Hflag) as [Hnoflag Hlast].
  assert (Hin : forall tm,
             In tm (timers (accepted 0%nat b this w)) ->
             (In tm (timers w) /\ is_flag_timer tm = false)
             \/ (due tm = now w + 16 /\ is_flag_timer tm = true)%Z
             \/ (due tm = now w + 64 /\ is_flag_timer tm = false)%Z).
  { intros tm H. unfold accepted in H. cbn [timers] in H.
    apply in_app_or in H. destruct H as [H | H].
    - apply In_pending_timers in H. left. split; [exact H |].
      now apply Hnoflag.
    - apply in_app_or in H. destruct H as [[<- | []] | H].
      + right. left. split; reflexivity.
      + destruct b; [contradiction |]. destruct H as [<- | []].
        right. right. split; reflexivity. }
  assert (Hflagtimer : forall tm,
             In tm (timers (accepted 0%nat b this w)) ->
             is_flag_timer tm = true ->
             tm = {| timer_id := next_timer_id w; due := now w + 16;
                     action := SetScrollFlag 0%nat |}).
  { intros tm H Hf. unfold accepted in H. cbn [timers] in H.
    apply in_app_or in H. destruct H as [H | H].
    - apply In_pending_timers in H. rewrite (Hnoflag tm H) in Hf.
      discriminate.
    - apply in_app_or in H. destruct H as [[<- | []] | H]; [reflexivity |].
      destruct b; [contradiction |]. destruct H as [<- | []].
      discriminate Hf. }
  constructor.
  - unfold accepted. cbn [heap]. rewrite Hheap. cbn. eauto.
  - unfold accepted. cbn [animate_log]. apply spaced_snoc; assumption.
  - intros tm H. apply Hin in H. unfold accepted. cbn [now].
    destruct H as [[H _] | [[H _] | [H _]]]; [now apply P3 | lia | lia].
  - intros this' Hh Hf. exfalso. unfold accepted in Hh. cbn [heap] in Hh.
    rewrite Hheap in Hh. cbn in Hh. inversion Hh; subst this'.
    cbn in Hf. discriminate.
  - intros tm H Hf. pose proof (Hflagtimer tm H Hf) as ->. split.
    + intros tm' H' Hf'. now apply Hflagtimer.
    + intros t0 Ht0. unfold accepted in Ht0. cbn [animate_log] in Ht0.
      rewrite last_call_snoc in Ht0. inversion Ht0; subst. cbn. lia.
Qed.

Lemma onScroll_pace (w : world) (self : addr) (b : bool) :
  throttle_pace w -> throttle_pace (WMonad.exec (Window.onScroll self b) w).
Proof.
  intros Hp. destruct (nth_error (heap w) self) as [this |] eqn:Hn.
  - destruct (scrollFlag this) eqn:Hf.
    + rewrite (onScroll_accepted w self b this Hn Hf).
      destruct (pace_heap w Hp) as [this0 Hheap].
      rewrite Hheap in Hn. destruct self as [| self]; cbn in Hn.
      * inversion Hn; subst this0. now apply accepted_pace.
      * destruct self; discriminate.
    + rewrite (onScroll_dropped w self b this Hn Hf). exact Hp.
  - rewrite (onScroll_missing w self b Hn). exact Hp.
Qed.

(** Time may pass, as long as no pending timer becomes overdue. *)
Lemma clock_pace (w : world) (t : Z) (top : float) :
  throttle_pace w -> (now w <= t)%Z ->
  (forall tm, In tm (timers w) -> (t <= due tm)%Z) ->
  throttle_pace (World.with_clock t top w).
Proof.
  intros [P1 P2 P3 P4 P5] Hnow Hdue. constructor; cbn.
  - exact P1.
  - exact P2.
  - exact Hdue.
  - intros this Hh Hf. destruct (P4 this Hh Hf) as [H1 H2].
    split; [exact H1 |]. intros t0 Ht0. specialize (H2 t0 Ht0). lia.
  - exact P5.
Qed.

Lemma fired_pace (w : world) (tm : timer) :
  throttle_pace w -> Window.earliest (timers w) = Some tm ->
  throttle_pace (fired tm w)
  /\ (is_flag_timer tm = true ->
      (forall tm', In tm' (timers (fired tm w)) -> is_flag_timer tm' = false)
      /\ forall t0,
          last_call (animate_log w) = Some t0 -> (t0 + 16 <= due tm)%Z).
Proof.
  intros [P1 P2 P3 P4 P5] Hnext.
  pose proof (Timers.earliest_In _ _ Hnext) as Htm.
  pose proof (Timers.earliest_min _ _ Hnext) as Hmin.
  assert (Hin : forall t, In t (timers (fired tm w)) ->
                          In t (timers w) /\ timer_id t <> timer_id tm).
  { intros t H. unfold fired in H. cbn [timers World.with_timers] in H.
    now apply Timers.In_cleared in H. }
  split.
  - constructor.
    + exact P1.
    + exact P2.
    + intros t H. apply Hin in H. cbn. apply Hmin. tauto.
    + intros this Hh Hf. destruct (P4 this Hh Hf) as [H1 H2]. split.
      * intros t H. apply Hin in H. apply H1. tauto.
      * intros t0 Ht0. cbn. specialize (H2 t0 Ht0).
        specialize (P3 tm Htm). lia.
    + intros t H Hf. apply Hin in H. destruct H as [H _].
      destruct (P5 t H Hf) as [H1 H2]. split; [| exact H2].
      intros t' H' Hf'. apply Hin in H'. apply H1; tauto.
  - intros Hf. destruct (P5 tm Htm Hf) as [Huniq Hdue].
    split; [| exact Hdue].
    intros t' H'. apply Hin in H'. destruct H' as [H' Hne].
    destruct (is_flag_timer t') eqn:Hf'; [| reflexivity].
    exfalso. apply Hne. now rewrite (Huniq t' H' Hf').
Qed.

Lemma raise_flag_pace (w : world) (self : addr) :
  throttle_pace w ->
  (forall tm, In tm (timers w) -> is_flag_timer tm = false) ->
  (forall t0, last_call (animate_log w) = Some t0 -> (t0 + 16 <= now w)%Z) ->
  throttle_pace (WMonad.exec (Window.set_scrollFlag self true) w).
Proof.
  intros [P1 P2 P3 P4 P5] Hnone Hlast.
  constructor; cbn.
  - destruct P1 as [this Hh]. rewrite Hh.
    destruct self as [| self]; cbn; eauto.
  - exact P2.
  - exact P3.
  - intros this Hh Hf. split; assumption.
  - exact P5.
Qed.

Section Pace.

Variable parseFloat : string -> float.
Variable Number_toString : float -> string.

Lemma step_pace (w w' : world) (e : event) :
  is_init e = false ->
  throttle_pace w -> step parseFloat Number_toString w e = Some w' ->
  throttle_pace w'.
Proof.
  intros He Hp Hstep. destruct e as [doc el options | | t top | |];
    cbn [step] in Hstep.
  - discriminate He.
  - inversion Hstep; subst.
    destruct (exports_destroy_keeps_timers w) as (Ht & Hh & _ & _).
    revert Hp. apply pace_ext; try assumption.
    + unfold WMonad.exec, Window.exports_destroy, WMonad.bind, WMonad.gets.
      destruct (module_instance w); reflexivity.
    + unfold WMonad.exec, Window.exports_destroy, WMonad.bind, WMonad.gets.
      destruct (module_instance w); reflexivity.
  - destruct (now w <=? t)%Z eqn:Hnow; [| discriminate].
    destruct (forallb _ (timers w)) eqn:Hdue; [| discriminate].
    cbn [andb] in Hstep. inversion Hstep; subst.
    apply for_each_preserves; [intros x w0; apply onScroll_pace |].
    apply clock_pace; [exact Hp | now apply Z.leb_le |].
    intros tm Hin. rewrite forallb_forall in Hdue.
    apply Z.leb_le. now apply Hdue.
  - destruct (Window.earliest (timers w)) as [tm |] eqn:E; [| discriminate].
    inversion Hstep; subst. fold (fired tm w).
    destruct (fired_pace w tm Hp E) as [Hfired Hflag].
    destruct (action tm) as [self | self] eqn:Hact;
      cbn [Window.run_callback].
    + assert (Hf : is_flag_timer tm = true)
        by (unfold is_flag_timer; now rewrite Hact).
      destruct (Hflag Hf) as [Hnone Hlast].
      apply raise_flag_pace; [exact Hfired | exact Hnone |].
      intros t0 Ht0. cbn. now apply Hlast.
    + now apply onScroll_pace.
  - inversion Hstep; subst.
    destruct (frames_keep Number_toString (frames w)
                (World.with_frames [] (animate_log w) w))
      as (_ & _ & Kh & Kt & Kl & _).
    revert Hp. apply pace_ext; try assumption.
    apply (for_each_preserves
             (fun w0 => now w0 = now w)); [| reflexivity].
    intros [self pos] w0 H.
    unfold WMonad.exec, run_frame, WMonad.bind, Window.deref, WMonad.gets.
    destruct (nth_error (heap w0) self); cbn; exact H.
Qed.

(** X8. For an instance alone in its window, in every sequence of scroll
    events, timers, frames and destructions, two calls of [animate] are
    never less than 16 ms apart, trailing calls included. *)
Theorem animate_calls_are_paced
  (s : Settings) (anims : obj SelectorTarget) (t0 : Z) (es : list event)
  (w : world) :
  forallb (fun e => negb (is_init e)) es = true ->
  run parseFloat Number_toString (idle_world s anims t0) es = Some w ->
  spaced (animate_log w).
Proof.
  intros Hes Hrun. apply pace_spaced.
  assert (H0 : throttle_pace (idle_world s anims t0)).
  { constructor; cbn; try contradiction; try tauto.
    - eauto.
    - intros this _ _. split; [contradiction | discriminate]. }
  revert H0 Hes Hrun. generalize (idle_world s anims t0).
  induction es as [| e es IH]; intros w0 H0 Hes Hrun; cbn [run] in Hrun.
  - inversion Hrun; subst. exact H0.
  - cbn [forallb] in Hes. apply andb_prop in Hes. destruct Hes as [He Hes].
    destruct (step parseFloat Number_toString w0 e) as [w1 |] eqn:E;
      [| discriminate].
    apply (IH w1); [| exact Hes | exact Hrun].
    apply (step_pace w0 w1 e); [| exact H0 | exact E].
    now destruct (is_init e).
Qed.

End Pace.

Lemma animate_calls_are_paced_witness :
  exists w,
    run SampleRun.parseFloat SampleRun.toString
      (idle_world (constructor_settings None None) [] 0)
      [EvScroll 0 100; EvScroll 5 120; EvTimer; EvScroll 20 130; EvDestroy;
       EvTimer; EvTimer; EvTimer]
    = Some w
    /\ animate_log w
       = [(0%Z, 100%float); (20%Z, 130%float); (84%Z, 130%float)]
    /\ spaced (animate_log w).
Proof.
  run_witness. split; [vm_compute; reflexivity |].
  refine (animate_calls_are_paced SampleRun.parseFloat SampleRun.toString
            (constructor_settings None None) [] 0
            [EvScroll 0 100; EvScroll 5 120; EvTimer; EvScroll 20 130;
             EvDestroy; EvTimer; EvTimer; EvTimer] _ _ _);
    [| apply run_outcome]; vm_compute; reflexivity.
Defined.

(** ** The timers run out *)

Lemma filter_filter_length {A : Type} (p q : A -> bool) (l : list A) :
  (List.length (filter q (filter p l)) <= List.length (filter q l))%nat.
Proof.
  induction l as [| x l IH]; [constructor |].
  cbn [filter]. destruct (p x); cbn [filter]; destruct (q x); cbn; lia.
Qed.

Lemma filter_length_strict {A : Type} (p : A -> bool) (l : list A) (x : A) :
  In x l -> p x = false ->
  (List.length (filter p l) < List.length l)%nat.
Proof.
  induction l as [| y l IH]; intros Hin Hp; [contradiction |].
  pose proof (filter_length_le p l) as Hle.
  cbn [filter]. destruct Hin as [-> | Hin].
  - rewrite Hp. cbn. lia.
  - specialize (IH Hin Hp). destruct (p y); cbn; lia.
Qed.

Lemma filter_filter_length_strict {A : Type} (p q : A -> bool) (l : list A)
  (x : A) :
  In x l -> p x = false -> q x = true ->
  (List.length (filter q (filter p l)) < List.length (filter q l))%nat.
Proof.
  induction l as [| y l IH]; intros Hin Hp Hq; [contradiction |].
  pose proof (filter_filter_length p q l) as Hle.
  cbn [filter]. destruct Hin as [-> | Hin].
  - rewrite Hp, Hq. cbn. lia.
  - specialize (IH Hin Hp Hq).
    destruct (p y); cbn [filter]; destruct (q y); cbn; lia.
Qed.

(** Clearing a timer frees budget. *)
Lemma cleared_budget (ts : list timer) (id : nat) :
  let ts' := filter (fun t => negb (Nat.eqb (timer_id t) id)) ts in
  (List.length ts' + List.length (filter is_trailing ts')
   <= List.length ts + List.length (filter is_trailing ts))%nat.
Proof.
  cbn zeta.
  pose proof (filter_length_le
                (fun t => negb (Nat.eqb (timer_id t) id)) ts).
  pose proof (filter_filter_length
                (fun t => negb (Nat.eqb (timer_id t) id)) is_trailing ts).
  lia.
Qed.

Lemma fired_budget (w : world) (tm : timer) :
  In tm (timers w) ->
  (timer_budget (fired tm w) + (if is_trailing tm then 2 else 1)
   <= timer_budget w)%nat.
Proof.
  intros Hin. unfold timer_budget, fired. cbn [timers World.with_timers].
  assert (Hself : negb (Nat.eqb (timer_id tm) (timer_id tm)) = false)
    by now rewrite Nat.eqb_refl.
  pose proof (filter_length_strict
                (fun t => negb (Nat.eqb (timer_id t) (timer_id tm)))
                (timers w) tm Hin Hself) as H1.
  pose proof (filter_filter_length
                (fun t => negb (Nat.eqb (timer_id t) (timer_id tm)))
                is_trailing (timers w)) as H2.
  destruct (is_trailing tm) eqn:Ht; [| lia].
  pose proof (filter_filter_length_strict
                (fun t => negb (Nat.eqb (timer_id t) (timer_id tm)))
                is_trailing (timers w) tm Hin Hself Ht) as H3.
  lia.
Qed.

(** A trailing call sets one timer, which is no trailing one. *)
Lemma trailing_call_budget (w : world) (self : addr) :
  (timer_budget (WMonad.exec (Window.onScroll self true) w)
   <= timer_budget w + 1)%nat.
Proof.
  destruct (nth_error (heap w) self) as [this |] eqn:Hn.
  - destruct (scrollFlag this) eqn:Hf.
    + rewrite (onScroll_accepted w self true this Hn Hf).
      unfold timer_budget, accepted. cbn [timers].
      rewrite app_nil_r, filter_app, !length_app. cbn.
      destruct (scrollEnd this) as [id |]; [| lia].
      pose proof (cleared_budget (timers w) id) as H. cbn zeta in H. lia.
    + rewrite (onScroll_dropped w self true this Hn Hf). lia.
  - rewrite (onScroll_missing w self true Hn). lia.
Qed.

Section Budget.

Variable parseFloat : string -> float.
Variable Number_toString : float -> string.

Lemma timer_step_budget (w w' : world) :
  step parseFloat Number_toString w EvTimer = Some w' ->
  (timer_budget w' < timer_budget w)%nat.
Proof.
  cbn [step]. intros Hstep.
  destruct (Window.earliest (timers w)) as [tm |] eqn:E; [| discriminate].
  inversion Hstep; subst. fold (fired tm w).
  pose proof (fired_budget w tm (Timers.earliest_In _ _ E)) as Hf.
  unfold is_trailing in Hf.
  destruct (action tm) as [self | self]; cbn [Window.run_callback].
  - assert (Hs : timer_budget
                   (WMonad.exec (Window.set_scrollFlag self true) (fired tm w))
                 = timer_budget (fired tm w)) by reflexivity.
    lia.
  - pose proof (trailing_call_budget (fired tm w) self). lia.
Qed.

(** X9. A trailing call does not set a trailing timer again: from any
    window, when no other event comes, the timers that fire in a row are at
    most the pending timers counted once, and once more for each trailing
    one; each firing uses up some of this budget. *)
Theorem timers_run_out (n : nat) (w w' : world) :
  run parseFloat Number_toString w (repeat EvTimer n) = Some w' ->
  (n + timer_budget w' <= timer_budget w)%nat.
Proof.
  revert w. induction n as [| n IH]; intros w Hrun; cbn [repeat run] in Hrun.
  - inversion Hrun; subst. lia.
  - destruct (step parseFloat Number_toString w EvTimer) as [w1 |] eqn:E;
      [| discriminate].
    specialize (IH w1 Hrun). pose proof (timer_step_budget w w1 E). lia.
Qed.

End Budget.

Lemma timers_run_out_witness :
  exists w w',
    run SampleRun.parseFloat SampleRun.toString
      (idle_world (constructor_settings None None) [] 0) [EvScroll 0 100]
    = Some w
    /\ timer_budget w = 3%nat
    /\ run SampleRun.parseFloat SampleRun.toString w (repeat EvTimer 3)
       = Some w'
    /\ timers w' = []
    /\ (3 + timer_budget w' <= timer_budget w)%nat.
Proof.
  pose (w := outcome (run SampleRun.parseFloat SampleRun.toString
                        (idle_world (constructor_settings None None) [] 0)
                        [EvScroll 0 100])).
  pose (w' := outcome (run SampleRun.parseFloat SampleRun.toString w
                         (repeat EvTimer 3))).
  exists w, w'.
  split; [apply run_outcome; vm_compute; reflexivity |].
  split; [vm_compute; reflexivity |].
  split; [apply run_outcome; vm_compute; reflexivity |].
  split; [vm_compute; reflexivity |].
  refine (timers_run_out SampleRun.parseFloat SampleRun.toString 3 w w' _).
  apply run_outcome; vm_compute; reflexivity.
Defined.

(** ** From the tweens to the frame *)

Section Compose.

Variable parseFloat : string -> float.
Variable Number_toString : float -> string.
Variable this : Settings.
Variable doc : document.

(** The writes of a selector, whatever its properties are. *)
Lemma animate_selector_split (animation : SelectorTarget) (scrollPos : float) :
  exists tail,
    animate_selector Number_toString animation scrollPos
    = map (plain_write Number_toString (element animation) scrollPos)
        (filter (fun entry => negb (isTransform (snd entry)))
           (properties animation))
      ++ tail
    /\ ((existsb (fun entry => isTransform (snd entry))
           (properties animation) = false /\ tail = [])
        \/ (existsb (fun entry => isTransform (snd entry))
              (properties animation) = true
            /\ exists styles, tail = [CssSetAll (element animation) styles])).
Proof.
  unfold animate_selector.
  pose proof (animate_property_writes Number_toString (element animation)
                scrollPos (properties animation) [] []) as Hw.
  assert (Hstack : forall props stack0 writes0,
             fst (fold_left
                    (animate_property Number_toString (element animation)
                       scrollPos) props (stack0, writes0)) = []
             -> stack0 = []
                /\ existsb (fun entry => isTransform (snd entry)) props
                   = false).
  { induction props as [| [p v] props IH]; intros stack0 writes0 H.
    - cbn in H. split; [exact H | reflexivity].
    - cbn [fold_left animate_property] in H. cbn [existsb snd].
      destruct (isTransform v).
      + apply IH in H. destruct H as [H _]. exfalso.
        destruct stack0 as [| [k' v'] stack0]; cbn in H; [discriminate |].
        destruct (String.eqb p k'); discriminate.
      + apply IH in H. cbn [orb]. exact H. }
  assert (Hnone : forall props stack0 writes0,
             existsb (fun entry => isTransform (snd entry)) props = false ->
             fst (fold_left
                    (animate_property Number_toString (element animation)
                       scrollPos) props (stack0, writes0)) = stack0).
  { induction props as [| [p v] props IH]; intros stack0 writes0 Hf;
      [reflexivity |].
    cbn [existsb snd] in Hf. apply Bool.orb_false_iff in Hf.
    destruct Hf as [Hv Hrest].
    cbn [fold_left animate_property]. rewrite Hv. now apply IH. }
  specialize (Hstack (properties animation) [] []).
  specialize (Hnone (properties animation) [] []).
  match goal with
  | |- context [fold_left ?f ?l ?a] =>
      destruct (fold_left f l a) as [stack writes] eqn:E
  end.
  pose proof (eq_trans (eq_sym (f_equal snd E)) Hw) as Hw'.
  cbn [snd app] in Hw'. subst writes.
  destruct stack as [| entry stack]; cbn [Obj.isEmptyObject negb].
  - exists []. rewrite app_nil_r. split; [reflexivity |]. left.
    split; [| reflexivity].
    apply Hstack. exact (f_equal fst E).
  - eexists. split; [reflexivity |]. right. split; [| eauto].
    destruct (existsb (fun e => isTransform (snd e)) (properties animation))
      eqn:Hex; [reflexivity |].
    specialize (Hnone eq_refl).
    first [ discriminate Hnone
          | pose proof (eq_trans (eq_sym (f_equal fst E)) Hnone) as Habs;
            discriminate Habs ].
Qed.


End Compose.

